(** * Backtesting a top-20 momentum strategy against the S&P 500

    A shallow embedding of [scripts/preprocessing.py], [scripts/create_signal.py]
    and [scripts/backtester.py], and the properties of the pipeline they form.

    Modelling conventions.
    - A pandas DataFrame is the list of its rows, in frame order; the
      [(date, ticker)] MultiIndex is the pair of the two label fields of a row.
    - A float cell is [option Q]: [None] is NaN (pandas' missing marker) and
      [Some q] a finite value, with exact rational arithmetic in place of
      IEEE rounding. The return column of the benchmark, which may hold a
      quotient by a close of 0, has cells that may also be infinite.
    - A [Timestamp] is the number of days since 1970-01-01 (pandas stores the
      nanoseconds since that epoch; every label here is a month end at
      midnight).
    - The model starts at [prices_monthly] as it is after the monthly
      resampling (line 23 of preprocessing.py): one row per ticker and month,
      whose price is NaN for a month without observations. The frame has
      no other column than the price.
    - Rows are addressed by their labels where the code does so ([.loc],
      [Index.intersection]); the names of the index levels are not part of
      the model.
    - Plotting, printing and file output are left out: [backtest] returns
      the figures it writes. *)

From stdpp Require Import gmap strings list sorting.
From Stdlib Require Import QArith Qround.

(** ** Calendar *)

Abbreviation Timestamp := Z (only parsing).

(** Days from 1970-01-01 to the civil date [y]-[m]-[d] (proleptic Gregorian). *)
Definition days_from_civil (y m d : Z) : Timestamp :=
  let y' := (if m <=? 2 then y - 1 else y)%Z in
  let era := (y' `div` 400)%Z in
  let yoe := (y' - era * 400)%Z in
  let mp := (if 2 <? m then m - 3 else m + 9)%Z in
  let doy := ((153 * mp + 2) `div` 5 + d - 1)%Z in
  let doe := (yoe * 365 + yoe `div` 4 - yoe `div` 100 + doy)%Z in
  (era * 146097 + doe - 719468)%Z.

(** The civil date of a day number, as [(year, month, day)]. *)
Definition civil_from_days (z : Timestamp) : Z * Z * Z :=
  let z := (z + 719468)%Z in
  let era := (z `div` 146097)%Z in
  let doe := (z - era * 146097)%Z in
  let yoe :=
    ((doe - doe `div` 1460 + doe `div` 36524 - doe `div` 146096) `div` 365)%Z in
  let y := (yoe + era * 400)%Z in
  let doy := (doe - (365 * yoe + yoe `div` 4 - yoe `div` 100))%Z in
  let mp := ((5 * doy + 2) `div` 153)%Z in
  let d := (doy - (153 * mp + 2) `div` 5 + 1)%Z in
  let m := (if mp <? 10 then mp + 3 else mp - 9)%Z in
  ((if m <=? 2 then y + 1 else y)%Z, m, d).

(** Calendar months are numbered [12 * year + (month - 1)]. *)
Definition month_of (d : Timestamp) : Z :=
  let '(y, m, _) := civil_from_days d in (y * 12 + (m - 1))%Z.

Definition first_of_month (mi : Z) : Timestamp :=
  days_from_civil (mi `div` 12) (mi `mod` 12 + 1) 1.

(** The label of a monthly bin of [resample('ME')]: the last day of the
    month. *)
Definition month_end (mi : Z) : Timestamp := (first_of_month (mi + 1) - 1)%Z.

(** Exhaustive checks over a range of consecutive integers. *)
Fixpoint all_from (P : Z -> bool) (n : nat) (d : Z) : bool :=
  match n with
  | O => true
  | S n' => if P d then all_from P n' (d + 1)%Z else false
  end.

(** Every day from the first of month [mi] to the eve of the next first
    lies in month [mi]. *)
Definition month_ok (mi : Z) : bool :=
  all_from (fun d => (month_of d =? mi)%Z)
    (Z.to_nat (first_of_month (mi + 1) - first_of_month mi)) (first_of_month mi).

(** ** Float cells *)

Definition Qltb (x y : Q) : bool := negb (Qle_bool y x).

(** [a > c] and [a < c] on a float cell: a comparison with NaN is False. *)
Definition cell_gt (a : option Q) (c : Q) : bool :=
  match a with Some q => Qltb c q | None => false end.
Definition cell_lt (a : option Q) (c : Q) : bool :=
  match a with Some q => Qltb q c | None => false end.
Definition cell_ge (a : option Q) (c : Q) : bool :=
  match a with Some q => Qle_bool c q | None => false end.
Definition cell_le (a : option Q) (c : Q) : bool :=
  match a with Some q => Qle_bool q c | None => false end.

(** [Series.sum()]: NaN cells are skipped, the empty sum is 0. *)
Definition Qsum (l : list Q) : Q := foldl Qplus 0%Q l.
Definition sum_skipna (l : list (option Q)) : Q := Qsum (omap id l).

(** ** Index labels and their order *)

Abbreviation Key := (Timestamp * string)%type (only parsing).

(** [k1 <= k2] on index labels: by date, then by ticker (code-point order). *)
Definition key_leb (k1 k2 : Key) : bool :=
  (k1.1 <? k2.1)%Z || ((k1.1 =? k2.1)%Z && String.leb k1.2 k2.2).

(** [k1] sorts strictly before [k2]. *)
Definition key_ltb (k1 k2 : Key) : bool := negb (key_leb k2 k1).

(** A stable insertion sort: [x] is placed before the first element that
    does not sort strictly before it, so equal elements keep their order. *)
Section StableSort.
Context {A : Type} (ltb : A -> A -> bool).

Fixpoint insert_stable (x : A) (l : list A) : list A :=
  match l with
  | [] => [x]
  | y :: l' => if ltb y x then y :: insert_stable x l' else x :: y :: l'
  end.

Fixpoint stable_sort (l : list A) : list A :=
  match l with
  | [] => []
  | x :: l' => insert_stable x (stable_sort l')
  end.

(** [x] may stand before [y] in the sorted list. *)
Definition may_precede (x y : A) : Prop := ltb y x = false.

End StableSort.

(** First occurrences, in order of appearance ([Index.unique()]). *)
Fixpoint unique {A} `{EqDecision A} (l : list A) : list A :=
  match l with
  | [] => []
  | x :: l' => x :: filter (fun y => y <> x) (unique l')
  end.

Module Preprocessing.

(** *** Tables *)

(** A row of [prices_monthly] before the return columns exist. *)
Record PriceRow := mkPriceRow {
  pr_date : Timestamp;
  pr_ticker : string;
  pr_price : option Q
}.

(** A row of [prices_monthly] from line 36 on. *)
Record Row := mkRow {
  date : Timestamp;
  ticker : string;
  price : option Q;
  monthly_past_return : option Q;
  monthly_future_return : option Q
}.

Definition pr_key (r : PriceRow) : Key := (pr_date r, pr_ticker r).
Definition key (r : Row) : Key := (date r, ticker r).

(** *** Lines 25-30: price filter and [sort_index] *)

Definition price_in_range (p : option Q) : bool :=
  cell_ge p (1 # 10) && cell_le p 10000.

Definition filter_prices (t : list PriceRow) : list PriceRow :=
  filter (fun r => price_in_range (pr_price r) = true) t.

Definition sort_index (t : list PriceRow) : list PriceRow :=
  stable_sort (fun r1 r2 => key_ltb (pr_key r1) (pr_key r2)) t.

(** *** Lines 33-36: the return columns *)

(** One step of [pct_change]: [prev] is the cell of the previous row of the
    group ([None] when there is none). *)
Definition pct (prev : option (option Q)) (cur : option Q) : option Q :=
  match prev, cur with
  | Some (Some p0), Some p1 => Some (p1 / p0 - 1)%Q
  | _, _ => None
  end.

(** [groupby('ticker')['price'].pct_change()]: the frame is walked in order,
    [last] holds the previous price cell of every ticker seen so far, and the
    result is aligned with the frame. *)
Fixpoint pct_change_from (last : gmap string (option Q)) (t : list PriceRow)
    : list (option Q) :=
  match t with
  | [] => []
  | r :: t' =>
      pct (last !! pr_ticker r) (pr_price r)
        :: pct_change_from (<[pr_ticker r := pr_price r]> last) t'
  end.

Definition groupby_pct_change (t : list PriceRow) : list (option Q) :=
  pct_change_from ∅ t.

(** [Series.shift(-1)] on the whole column: every cell takes the value of
    the next row of the frame, the last one becomes NaN. *)
Definition shift_m1 (col : list (option Q)) : list (option Q) :=
  match col with
  | [] => []
  | _ :: col' => col' ++ [None]
  end.

Fixpoint assign_returns (t : list PriceRow) (past future : list (option Q))
    : list Row :=
  match t, past, future with
  | r :: t', p :: past', f :: future' =>
      mkRow (pr_date r) (pr_ticker r) (pr_price r) p f
        :: assign_returns t' past' future'
  | _, _, _ => []
  end.

Definition with_returns (t : list PriceRow) : list Row :=
  let monthly_past_return := groupby_pct_change t in
  let monthly_future_return := shift_m1 (groupby_pct_change t) in
  assign_returns t monthly_past_return monthly_future_return.

(** Lines 25-36 together. *)
Definition compute_returns (prices_monthly : list PriceRow) : list Row :=
  with_returns (sort_index (filter_prices prices_monthly)).

(** *** Lines 38-61: return outliers outside the 2008-2009 window *)

Definition crisis_start : Timestamp := days_from_civil 2008 1 1.
Definition crisis_end : Timestamp := days_from_civil 2009 12 31.

Definition crisis_mask (d : Timestamp) : bool :=
  (crisis_start <=? d)%Z && (d <=? crisis_end)%Z.

(** [(col > 1) | (col < -0.5)] on one cell. *)
Definition is_outlier (v : option Q) : bool :=
  cell_gt v 1 || cell_lt v (- (1 # 2)).

Definition nan_past (r : Row) : Row :=
  mkRow (date r) (ticker r) (price r) None (monthly_future_return r).
Definition nan_future (r : Row) : Row :=
  mkRow (date r) (ticker r) (price r) (monthly_past_return r) None.

(** [prices_monthly.loc[labels, column] = np.nan]: every row carrying one of
    the labels is overwritten. *)
Definition loc_set_nan (nan_col : Row -> Row) (labels : list Key)
    (t : list Row) : list Row :=
  (fun r => if decide (key r ∈ labels) then nan_col r else r) <$> t.

(** The body of the loop for one ticker. [non_crisis_data] is a copy taken
    before either assignment, so the second test does not see the first
    assignment. *)
Definition suppress_ticker (prices_monthly : list Row) (tk : string)
    : list Row :=
  let ticker_data := filter (fun r => ticker r = tk) prices_monthly in
  let non_crisis_data :=
    filter (fun r => crisis_mask (date r) = false) ticker_data in
  let prices_monthly :=
    if (0 <? length non_crisis_data)%nat then
      let outliers_past r := is_outlier (monthly_past_return r) in
      if existsb outliers_past non_crisis_data then
        let outlier_indices :=
          key <$> filter (fun r => outliers_past r = true) non_crisis_data in
        loc_set_nan nan_past outlier_indices prices_monthly
      else prices_monthly
    else prices_monthly in
  if (0 <? length non_crisis_data)%nat then
    let outliers_future r := is_outlier (monthly_future_return r) in
    if existsb outliers_future non_crisis_data then
      let outlier_indices :=
        key <$> filter (fun r => outliers_future r = true) non_crisis_data in
      loc_set_nan nan_future outlier_indices prices_monthly
    else prices_monthly
  else prices_monthly.

Definition suppress_outliers (prices_monthly : list Row) : list Row :=
  foldl suppress_ticker prices_monthly (unique (ticker <$> prices_monthly)).

(** *** Lines 63-71: forward fill and row drops *)

(** [groupby('ticker')[col].ffill()]: [last] holds the last value seen for
    every ticker; a NaN cell takes it, when there is one. *)
Fixpoint ffill_from (last : gmap string Q) (col : list (string * option Q))
    : list (option Q) :=
  match col with
  | [] => []
  | (tk, Some q) :: col' => Some q :: ffill_from (<[tk := q]> last) col'
  | (tk, None) :: col' => last !! tk :: ffill_from last col'
  end.

Definition groupby_ffill (t : list Row) (col : Row -> option Q)
    : list (option Q) :=
  ffill_from ∅ ((fun r => (ticker r, col r)) <$> t).

Definition assign_price (t : list Row) (col : list (option Q)) : list Row :=
  zip_with (fun r v => mkRow (date r) (ticker r) v (monthly_past_return r)
                             (monthly_future_return r)) t col.
Definition assign_past (t : list Row) (col : list (option Q)) : list Row :=
  zip_with (fun r v => mkRow (date r) (ticker r) (price r) v
                             (monthly_future_return r)) t col.

Definition fill_missing (t : list Row) : list Row :=
  let t := assign_price t (groupby_ffill t price) in
  assign_past t (groupby_ffill t monthly_past_return).

Definition complete (r : Row) : bool :=
  bool_decide (is_Some (price r)) && bool_decide (is_Some (monthly_past_return r))
  && bool_decide (is_Some (monthly_future_return r)).

Definition dropna_future (t : list Row) : list Row :=
  filter (fun r => is_Some (monthly_future_return r)) t.
Definition dropna (t : list Row) : list Row :=
  filter (fun r => complete r = true) t.

(** *** [preprocess_prices], from line 25 on *)

Definition preprocess_prices (prices_monthly : list PriceRow) : list Row :=
  let prices_monthly := compute_returns prices_monthly in
  let prices_monthly := suppress_outliers prices_monthly in
  let prices_monthly := fill_missing prices_monthly in
  let prices_monthly := dropna_future prices_monthly in
  dropna prices_monthly.

(** *** Lines 17-23: the raw frame and its monthly resampling *)

(** A row of the raw [prices_df], once [date] is a datetime. *)
Record Obs := mkObs {
  o_date : Timestamp;
  o_ticker : string;
  o_price : option Q
}.

(** [a] sorts strictly before [b] among group keys. *)
Definition ticker_ltb (a b : string) : bool := negb (String.leb b a).

(** [.last()] of a bin: the last value that is not NaN. *)
Definition last_valid (col : list (option Q)) : option Q := last (omap id col).

(** [resample('ME', level=0).last()] on the rows of one ticker: the rows
    are put in date order (a stable sort), there is one bin for every
    calendar month from the first to the last observation, labelled by the
    month end, and an empty bin gives NaN. *)
Definition resample_ticker (tk : string) (prices_df : list Obs) : list PriceRow :=
  let group :=
    stable_sort (fun a b => (o_date a <? o_date b)%Z)
      (filter (fun o => o_ticker o = tk) prices_df) in
  match head group, last group with
  | Some first, Some final =>
      let lo := month_of (o_date first) in
      let hi := month_of (o_date final) in
      (fun mi =>
         mkPriceRow (month_end mi) tk
           (last_valid
              (o_price <$> filter (fun o => month_of (o_date o) = mi) group)))
        <$> seqZ lo (hi - lo + 1)
  | _, _ => []
  end.

(** [groupby('ticker')] walks the tickers in sorted order. A frame without
    rows, which pandas refuses to resample, is given no rows. *)
Definition resample_monthly (prices_df : list Obs) : list PriceRow :=
  tk ← stable_sort ticker_ltb (unique (o_ticker <$> prices_df));
  resample_ticker tk prices_df.

(** *** [plot_price_analysis] and the whole of [preprocess_prices] *)

(** A chart written to disk: its path and the series it shows. *)
Record Figure := mkFigure {
  fig_path : string;
  fig_series : list (Timestamp * option Q)
}.

(** [Series.mean()]: NaN cells are skipped, the mean of nothing is NaN. *)
Definition mean_skipna (col : list (option Q)) : option Q :=
  let obs := omap id col in
  match obs with
  | [] => None
  | _ => Some (Qsum obs / inject_Z (Z.of_nat (length obs)))%Q
  end.

(** [plot_price_analysis(prices_df, plot=False)]: the figures it saves. *)
Definition plot_price_analysis (prices_df : list Row) (plot : bool)
    : list Figure :=
  if negb plot then []
  else
    let avg_prices :=
      (fun d => (d, mean_skipna (price <$> filter (fun r => date r = d) prices_df)))
        <$> stable_sort Z.ltb (unique (date <$> prices_df)) in
    [ mkFigure "../results/plots/average_price_over_time.png" avg_prices ].

(** [preprocess_prices(prices_df, plot)] as a whole: the table returned and
    the figures saved. Line 74 calls [plot_price_analysis(prices_monthly)]
    without its second argument, which then takes its default [False]. *)
Definition preprocess_prices_df (prices_df : list Obs) (plot : bool)
    : list Row * list Figure :=
  let prices_monthly := preprocess_prices (resample_monthly prices_df) in
  let figures :=
    if plot then plot_price_analysis prices_monthly false else [] in
  (prices_monthly, figures).

(** *** [preprocess_sp500] *)

(** The closes of the benchmark pass no price filter, so that [pct_change]
    may divide by a close of 0: a return cell is a finite value, plus or
    minus infinity, or NaN. *)
Inductive FloatCell :=
  | Num (q : Q)
  | Infinity (negative : bool)
  | NaN.

(** A row of the raw [sp500_df] and a row of [sp500_monthly]. *)
Record IndexObs := mkIndexObs {
  i_date : Timestamp;
  i_adj_close : option Q
}.

Record IndexRow := mkIndexRow {
  ir_date : Timestamp;
  ir_adj_close : option Q;
  ir_monthly_return : FloatCell
}.

(** One step of [pct_change] on unfiltered closes, [cur / prev - 1] in
    float arithmetic: a nonzero close over a zero close is infinite, with
    the sign of the numerator, and stays so when 1 is subtracted; 0 / 0 is
    NaN. *)
Definition pct_float (prev : option (option Q)) (cur : option Q) : FloatCell :=
  match prev, cur with
  | Some (Some p0), Some p1 =>
      if Qeq_bool p0 0 then
        if Qeq_bool p1 0 then NaN else Infinity (Qltb p1 0)
      else Num (p1 / p0 - 1)%Q
  | _, _ => NaN
  end.

(** [sp500_df.resample('ME').last()]: as for one ticker. *)
Definition resample_index (sp500_df : list IndexObs)
    : list (Timestamp * option Q) :=
  let sorted := stable_sort (fun a b => (i_date a <? i_date b)%Z) sp500_df in
  match head sorted, last sorted with
  | Some first, Some final =>
      let lo := month_of (i_date first) in
      let hi := month_of (i_date final) in
      (fun mi =>
         (month_end mi,
          last_valid
            (i_adj_close <$> filter (fun o => month_of (i_date o) = mi) sorted)))
        <$> seqZ lo (hi - lo + 1)
  | _, _ => []
  end.

(** Forward fill of a plain column. *)
Fixpoint ffill_col (prev : option Q) (col : list (option Q)) : list (option Q) :=
  match col with
  | [] => []
  | Some q :: col' => Some q :: ffill_col (Some q) col'
  | None :: col' => prev :: ffill_col prev col'
  end.

(** [Series.pct_change()] of a plain column. [pad] tells whether NaN cells
    are forward filled first: pandas 2 does so by default, pandas 3 does
    not. *)
Fixpoint pct_change_col (prev : option (option Q)) (col : list (option Q))
    : list FloatCell :=
  match col with
  | [] => []
  | p :: col' => pct_float prev p :: pct_change_col (Some p) col'
  end.

Definition series_pct_change (pad : bool) (col : list (option Q))
    : list FloatCell :=
  pct_change_col None (if pad then ffill_col None col else col).

Definition preprocess_sp500 (pad : bool) (sp500_df : list IndexObs)
    : list IndexRow :=
  let sp500_monthly := resample_index sp500_df in
  zip_with (fun r ret => mkIndexRow r.1 r.2 ret) sp500_monthly
    (series_pct_change pad (sp500_monthly.*2)).

(** *** [identify_outliers] *)

(** [Series.quantile(q)] with linear interpolation: NaN cells are skipped,
    the quantile of nothing is NaN. *)
Definition quantile (q : Q) (col : list (option Q)) : option Q :=
  let v := stable_sort Qltb (omap id col) in
  match v with
  | [] => None
  | v0 :: _ =>
      let h := (inject_Z (Z.of_nat (length v) - 1) * q)%Q in
      let i := Z.to_nat (Qfloor h) in
      let lo := default v0 (v !! i) in
      let hi := default lo (v !! S i) in
      Some (lo + (h - inject_Z (Qfloor h)) * (hi - lo))%Q
  end.

(** The IQR fence of a price column: [(lower_bound, upper_bound)]. *)
Definition iqr_bounds (col : list (option Q)) : option (Q * Q) :=
  q1 ← quantile (1 # 4) col;
  q3 ← quantile (3 # 4) col;
  let iqr := (q3 - q1)%Q in
  Some ((q1 - (3 # 2) * iqr)%Q, (q3 + (3 # 2) * iqr)%Q).

(** [(price < lower_bound) | (price > upper_bound)]; with NaN bounds
    nothing is an outlier. *)
Definition price_outlier (bounds : option (Q * Q)) (o : Obs) : bool :=
  match bounds with
  | Some (lower_bound, upper_bound) =>
      cell_lt (o_price o) lower_bound || cell_gt (o_price o) upper_bound
  | None => false
  end.

(** The rows [identify_outliers] collects for one ticker, and the rows it
    writes to [outliers.txt] below the header (the formatting of a row as
    text is left out). *)
Definition ticker_outliers (prices_df : list Obs) (tk : string) : list Obs :=
  let ticker_data := filter (fun o => o_ticker o = tk) prices_df in
  let bounds := iqr_bounds (o_price <$> ticker_data) in
  take 5 (filter (fun o => price_outlier bounds o = true) ticker_data).

Definition identify_outliers (prices_df : list Obs) : list Obs :=
  let outliers :=
    tk ← unique (o_ticker <$> prices_df); ticker_outliers prices_df tk in
  take 5 outliers.

(** *** [preprocessing] *)

(** [prices_processed.isna().sum()]: the NaN count of every column. *)
Definition isna_sum (t : list Row) : nat * nat * nat :=
  (length (filter (fun r => price r = None) t),
   length (filter (fun r => monthly_past_return r = None) t),
   length (filter (fun r => monthly_future_return r = None) t)).

Record Preprocessed := mkPreprocessed {
  prices_processed : list Row;
  sp500_processed : list IndexRow;
  outliers_txt : list Obs;
  figures : list Figure;
  missing_values : nat * nat * nat
}.

Definition preprocessing (pad : bool) (prices_df : list Obs)
    (sp500_df : list IndexObs) (plot : bool) : Preprocessed :=
  let outliers_txt := identify_outliers prices_df in
  let '(prices_processed, figures) := preprocess_prices_df prices_df plot in
  let sp500_processed := preprocess_sp500 pad sp500_df in
  mkPreprocessed prices_processed sp500_processed outliers_txt figures
    (isna_sum prices_processed).

End Preprocessing.

(** Sorted group keys of [groupby('date')]. *)
Definition group_keys (dates : list Timestamp) : list Timestamp :=
  stable_sort Z.ltb (unique dates).

Module CreateSignal.
Import Preprocessing.

(** A row once [average_return_1y] is assigned, and once [signal] is. *)
Abbreviation AvgRow := (Row * option Q)%type (only parsing).

Record SignalRow := mkSignalRow {
  row : Row;
  average_return_1y : option Q;
  signal : bool
}.

(** Mean of a rolling window with [min_periods=1]: NaN cells do not count,
    and the mean is NaN when no observation is left. *)
Definition window_mean (w : list (option Q)) : option Q :=
  let obs := omap id w in
  if (1 <=? length obs)%nat
  then Some (Qsum obs / inject_Z (Z.of_nat (length obs)))%Q
  else None.

(** [groupby('ticker')[col].rolling(window=12, min_periods=1).mean()],
    aligned with the frame: [seen] holds, most recent first, the last cells
    of every ticker (at most 12 of them). *)
Fixpoint rolling_from (seen : gmap string (list (option Q))) (t : list Row)
    : list (option Q) :=
  match t with
  | [] => []
  | r :: t' =>
      let w := take 12 (monthly_past_return r :: default [] (seen !! ticker r)) in
      window_mean w :: rolling_from (<[ticker r := w]> seen) t'
  end.

Definition with_average (prices_df : list Row) : list AvgRow :=
  zip prices_df (rolling_from ∅ prices_df).

(** [Series.nlargest(n)] with the default [keep='first']: the values that
    are not NaN are put in descending order, equal values in frame order,
    the NaN entries follow in frame order, and the first [n] entries are
    kept. *)
Definition series_dropna (s : list (Key * option Q)) : list (Key * Q) :=
  omap (fun kv => pair kv.1 <$> kv.2) s.

Definition series_nan (s : list (Key * option Q)) : list (Key * option Q) :=
  filter (fun kv => kv.2 = None) s.

(** [a] sorts strictly before [b]: its value is strictly larger. *)
Definition by_value_desc (a b : Key * Q) : bool := Qltb b.2 a.2.

Definition nlargest (n : nat) (s : list (Key * option Q))
    : list (Key * option Q) :=
  take n (((fun kv => (kv.1, Some kv.2))
             <$> stable_sort by_value_desc (series_dropna s))
          ++ series_nan s).

Definition get_top_20_signal (group : list AvgRow) : list SignalRow :=
  if (length group <? 20)%nat then
    (fun g => mkSignalRow g.1 g.2 true) <$> group
  else
    let top_20_idx :=
      (nlargest 20 ((fun g => (key g.1, g.2)) <$> group)).*1 in
    (fun g => mkSignalRow g.1 g.2 (bool_decide (key g.1 ∈ top_20_idx)))
      <$> group.

(** [groupby('date').apply(f)]: one call per date, in date order, the
    results concatenated. *)
Definition groupby_date_apply {A B} (date_of : A -> Timestamp)
    (f : list A -> list B) (t : list A) : list B :=
  d ← group_keys (date_of <$> t); f (filter (fun r => date_of r = d) t).

Definition create_signal (prices_df : list Row) : list SignalRow :=
  groupby_date_apply (fun g => date g.1) get_top_20_signal
    (with_average prices_df).

End CreateSignal.

Module Backtester.
Import Preprocessing CreateSignal.

(** A row of [sp500_df]: the month and its [monthly_return]. *)
Record BenchRow := mkBenchRow {
  b_date : Timestamp;
  monthly_return : option Q
}.

Abbreviation Series V := (list (Timestamp * V)) (only parsing).

(** A bool in arithmetic: [True] is 1 and [False] is 0. *)
Definition b2q (b : bool) : Q := if b then 1%Q else 0%Q.

(** Line 15: the [pnl] cell of a row. *)
Definition pnl (r : SignalRow) : option Q :=
  Qmult (b2q (signal r)) <$> monthly_future_return (row r).

Definition month (d : Timestamp) (t : list SignalRow) : list SignalRow :=
  filter (fun r => date (row r) = d) t.

(** Lines 18 and 21: per-date sums. *)
Definition strategy_pnl_series (prices_df : list SignalRow) : Series Q :=
  (fun d => (d, sum_skipna (pnl <$> month d prices_df)))
    <$> group_keys ((fun r => date (row r)) <$> prices_df).

Definition signal_sum (prices_df : list SignalRow) : Series nat :=
  (fun d => (d, length (filter (fun r => signal r = true) (month d prices_df))))
    <$> group_keys ((fun r => date (row r)) <$> prices_df).

(** Float division by an integer count. A zero count gives NaN: the
    numerator is then 0 as well (see [pnl_zero_without_selection]). *)
Definition div_count (x : Q) (n : nat) : option Q :=
  match n with
  | O => None
  | S _ => Some (x / inject_Z (Z.of_nat n))%Q
  end.

(** Line 22: both series carry the same index. *)
Definition strategy_returns (prices_df : list SignalRow) : Series (option Q) :=
  zip_with (fun p s => (p.1, div_count p.2 s.2))
    (strategy_pnl_series prices_df) (signal_sum prices_df).

(** Lines 25-27. *)
Definition benchmark_returns (sp500_df : list BenchRow) : Series Q :=
  omap (fun r => pair (b_date r) <$> monthly_return r) sp500_df.

Definition sp500_signal (benchmark_returns : Series Q) : Series Z :=
  zip (benchmark_returns.*1) (replicate (length benchmark_returns) 20%Z).

Definition benchmark_pnl_series (benchmark_returns : Series Q) : Series Q :=
  zip_with (fun s r => (r.1, inject_Z s.2 * r.2)%Q)
    (sp500_signal benchmark_returns) benchmark_returns.

(** Lines 30-34: [Index.intersection] keeps the labels of the left index
    that occur in the right one; [.loc[labels]] picks the entries of every
    label in turn. *)
Definition intersection (left right : list Timestamp) : list Timestamp :=
  filter (fun d => d ∈ right) (unique left).

Definition loc {V} (s : Series V) (labels : list Timestamp) : Series V :=
  d ← labels; filter (fun e => e.1 = d) s.

(** Lines 37-38: running sums. *)
Fixpoint cumsum_from (acc : Q) (l : list Q) : list Q :=
  match l with
  | [] => []
  | x :: l' => (acc + x)%Q :: cumsum_from (acc + x)%Q l'
  end.

Definition cumsum (l : list Q) : list Q :=
  match l with
  | [] => []
  | x :: l' => x :: cumsum_from x l'
  end.

Record Results := mkResults {
  strategy_cumulative_pnl : list Q;
  benchmark_cumulative_pnl : list Q;
  strategy_total_return : Q;
  benchmark_total_return : Q;
  strategy_total_pnl : Q;
  benchmark_total_pnl : Q;
  outperformance_pct : Q
}.

(** The series after alignment (lines 30-34). *)
Record Aligned := mkAligned {
  common_dates : list Timestamp;
  a_strategy_returns : Series (option Q);
  a_strategy_pnl : Series Q;
  a_benchmark_returns : Series Q;
  a_benchmark_pnl : Series Q
}.

Definition align (prices_df : list SignalRow) (sp500_df : list BenchRow)
    : Aligned :=
  let strategy_pnl_series := strategy_pnl_series prices_df in
  let strategy_returns := strategy_returns prices_df in
  let benchmark_returns := benchmark_returns sp500_df in
  let benchmark_pnl_series := benchmark_pnl_series benchmark_returns in
  let common_dates :=
    intersection (strategy_returns.*1) (benchmark_returns.*1) in
  mkAligned common_dates
    (loc strategy_returns common_dates)
    (loc strategy_pnl_series common_dates)
    (loc benchmark_returns common_dates)
    (loc benchmark_pnl_series common_dates).

(** [backtest] up to the figures it writes. [iloc[-1]] raises IndexError on
    an empty series: the result is then [None]. *)
Definition backtest (prices_df : list SignalRow) (sp500_df : list BenchRow)
    : option Results :=
  let a := align prices_df sp500_df in
  let strategy_cumulative_pnl := cumsum (a_strategy_pnl a).*2 in
  let benchmark_cumulative_pnl := cumsum (a_benchmark_pnl a).*2 in
  let strategy_total_return := sum_skipna (a_strategy_returns a).*2 in
  let benchmark_total_return := Qsum (a_benchmark_returns a).*2 in
  strategy_total_pnl ← last strategy_cumulative_pnl;
  benchmark_total_pnl ← last benchmark_cumulative_pnl;
  Some (mkResults strategy_cumulative_pnl benchmark_cumulative_pnl
          strategy_total_return benchmark_total_return
          strategy_total_pnl benchmark_total_pnl
          ((strategy_total_return - benchmark_total_return) * 100)%Q).

End Backtester.

Module Main.
Import Preprocessing CreateSignal Backtester.

(** A row of the preprocessed benchmark as [backtest] reads it: the index
    and the [monthly_return] column. The cells of [backtest] are finite or
    NaN; a row with an infinite return has no counterpart there. *)
Definition bench_row (r : IndexRow) : option BenchRow :=
  match ir_monthly_return r with
  | Num q => Some (mkBenchRow (ir_date r) (Some q))
  | NaN => Some (mkBenchRow (ir_date r) None)
  | Infinity _ => None
  end.

(** The preprocessed benchmark as the frame [backtest] takes, when every
    return is finite or NaN. *)
Definition bench_frame (sp500 : list IndexRow) : option (list BenchRow) :=
  mapM bench_row sp500.

(** Lines 43-50 of [main]: preprocessing and signal. The result holds the
    outputs of [preprocessing] and the table handed to [backtest]. *)
Definition run_pipeline (pad : bool) (prices : list Obs) (sp500 : list IndexObs)
    : Preprocessed * list SignalRow :=
  let p := preprocessing pad prices sp500 true in
  let prices := create_signal (prices_processed p) in
  (p, prices).

End Main.

(** ** Reference definitions

    The per-ticker reading of the grouped operations, as the specification
    words them, and the scenarios the properties are run on. *)

Import Preprocessing CreateSignal Backtester Main.

Definition row_precedes (r1 r2 : PriceRow) : Prop :=
  key_leb (pr_key r1) (pr_key r2) = true.

(** The rows of one ticker, in frame order. *)
Definition ticker_series (k : string) (t : list Row) : list Row :=
  filter (fun r => ticker r = k) t.
Definition price_series (k : string) (t : list PriceRow) : list PriceRow :=
  filter (fun r => pr_ticker r = k) t.

(** [Series.pct_change()] on the price column of a single ticker, as the
    specification words it: the change from the previous record to this
    one, undefined at the first record. *)
Fixpoint pct_change_series (prev : option (option Q)) (ps : list (option Q))
    : list (option Q) :=
  match ps with
  | [] => []
  | p :: ps' => pct prev p :: pct_change_series (Some p) ps'
  end.

(** A return cell the outlier rule leaves alone: missing, or in [-0.5, 1]. *)
Definition within_bounds (v : option Q) : Prop :=
  match v with
  | Some q => (- (1 # 2) <= q)%Q /\ (q <= 1)%Q
  | None => True
  end.

(** The labels the loop body overwrites for ticker [tk]: the non-crisis
    rows of the ticker whose cell [col] is an outlier. *)
Definition outlier_labels (col : Row -> option Q) (tk : string)
    (t : list Row) : list Key :=
  key <$> filter (fun r => is_outlier (col r) = true)
            (filter (fun r => crisis_mask (date r) = false)
               (filter (fun r => ticker r = tk) t)).

(** The loop body on one row, given the two label lists. *)
Definition suppress_row (past_labels future_labels : list Key) (r : Row) : Row :=
  let r1 := if decide (key r ∈ past_labels) then nan_past r else r in
  if decide (key r1 ∈ future_labels) then nan_future r1 else r1.

(** What the outlier rule promises of a row: outside the crisis window both
    return cells are within bounds or missing. *)
Definition suppressed (r : Row) : Prop :=
  crisis_mask (date r) = false ->
  within_bounds (monthly_past_return r) /\ within_bounds (monthly_future_return r).

(** Forward fill of the column of a single ticker, as the specification
    words it: a missing cell takes the last known value, when there is one. *)
Fixpoint ffill_series (prev : option Q) (l : list (option Q))
    : list (option Q) :=
  match l with
  | [] => []
  | Some q :: l' => Some q :: ffill_series (Some q) l'
  | None :: l' => prev :: ffill_series prev l'
  end.

(** The window of the rolling mean at record [i] of the column [l] of a
    single ticker, as the specification words it: the last 12 records up to
    this one, fewer when the history is shorter (most recent first). *)
Definition trailing_window (l : list (option Q)) (i : nat) : list (option Q) :=
  take 12 (reverse (take (S i) l)).

(** [a] stands before [b] in [l]. *)
Definition before {A} (a b : A) (l : list A) : Prop :=
  exists l1 l2 l3, l = l1 ++ a :: l2 ++ b :: l3.

(** The series [get_top_20_signal] ranks, its values in rank order, and the
    labels of the first 20. *)
Definition group_series (g : list (Row * option Q)) : list (Key * option Q) :=
  (fun x => (key x.1, x.2)) <$> g.
Definition ranked (g : list (Row * option Q)) : list (Key * Q) :=
  stable_sort by_value_desc (series_dropna (group_series g)).
Definition top_20_idx (g : list (Row * option Q)) : list Key :=
  (take 20 (ranked g)).*1.

(** The months of the signalled table. *)
Definition months (prices_df : list SignalRow) : list Timestamp :=
  (fun r => date (row r)) <$> prices_df.

(** The count [signal_sum] holds for month [d]. *)
Definition selected_count_of (d : Timestamp) (prices_df : list SignalRow) : nat :=
  length (filter (fun r => signal r = true) (month d prices_df)).

(** *** Scenarios *)

(** One ticker with the monthly prices 10, 11, 9. *)
Definition scenario_A : list PriceRow :=
  [ mkPriceRow (days_from_civil 2010 1 31) "A" (Some 10%Q);
    mkPriceRow (days_from_civil 2010 2 28) "A" (Some 11%Q);
    mkPriceRow (days_from_civil 2010 3 31) "A" (Some 9%Q) ].

(** Two tickers over the same two months: A goes 10 -> 11, B goes 100 -> 150. *)
Definition scenario_two_tickers : list PriceRow :=
  [ mkPriceRow (days_from_civil 2010 1 31) "A" (Some 10%Q);
    mkPriceRow (days_from_civil 2010 1 31) "B" (Some 100%Q);
    mkPriceRow (days_from_civil 2010 2 28) "A" (Some 11%Q);
    mkPriceRow (days_from_civil 2010 2 28) "B" (Some 150%Q) ].

(** One ticker that triples in December 2009 and again in January 2010. *)
Definition scenario_crisis_exit : list PriceRow :=
  [ mkPriceRow (days_from_civil 2009 11 30) "A" (Some 10%Q);
    mkPriceRow (days_from_civil 2009 12 31) "A" (Some 30%Q);
    mkPriceRow (days_from_civil 2010 1 31) "A" (Some 90%Q);
    mkPriceRow (days_from_civil 2010 2 28) "A" (Some 99%Q) ].

(** Twenty-one tickers over four months; ticker number [i] gains [i] in
    price every month, from 100. *)
Definition tickers_21 : list string :=
  [ "T01"; "T02"; "T03"; "T04"; "T05"; "T06"; "T07"; "T08"; "T09"; "T10";
    "T11"; "T12"; "T13"; "T14"; "T15"; "T16"; "T17"; "T18"; "T19"; "T20";
    "T21" ].

Definition month_ends_2010 : list Timestamp :=
  [ days_from_civil 2010 1 31; days_from_civil 2010 2 28;
    days_from_civil 2010 3 31; days_from_civil 2010 4 30 ].

Definition scenario_21 : list PriceRow :=
  '(m, day) ← imap pair month_ends_2010;
  '(i, tk) ← imap pair tickers_21;
  [ mkPriceRow day tk (Some (inject_Z (100 + Z.of_nat (S i) * Z.of_nat m))) ].

(** A benchmark of three months, the last one without return. *)
Definition scenario_benchmark : list BenchRow :=
  [ mkBenchRow (days_from_civil 2009 12 31) (Some (2 # 100)%Q);
    mkBenchRow (days_from_civil 2010 1 31) (Some (3 # 100)%Q);
    mkBenchRow (days_from_civil 2010 2 28) None ].

Definition ticker_group (tk : string) (prices_df : list Obs) : list Obs :=
  stable_sort (fun a b => (o_date a <? o_date b)%Z)
    (filter (fun o => o_ticker o = tk) prices_df).

Definition month_bin (mi : Z) (group : list Obs) : list Obs :=
  filter (fun o => month_of (o_date o) = mi) group.

(** What the outlier loop may do to a row. *)
Definition weakened (r r' : Row) : Prop :=
  key r' = key r /\
  (monthly_past_return r' = monthly_past_return r \/ monthly_past_return r' = None).

Definition scenario_index : list IndexObs :=
  [ mkIndexObs (days_from_civil 2010 1 4) (Some 1100%Q);
    mkIndexObs (days_from_civil 2010 1 29) (Some 1000%Q);
    mkIndexObs (days_from_civil 2010 2 26) (Some 1100%Q) ].

Definition scenario_benchmark_2010 : list BenchRow :=
  [ mkBenchRow (days_from_civil 2010 2 28) (Some (1 # 100)%Q);
    mkBenchRow (days_from_civil 2010 3 31) (Some (2 # 100)%Q) ].

(** One ticker observed five times over four months, the last price a
    hundred times the others. *)
Definition scenario_daily : list Obs :=
  [ mkObs (days_from_civil 2010 1 4) "A" (Some 10%Q);
    mkObs (days_from_civil 2010 1 29) "A" (Some 10%Q);
    mkObs (days_from_civil 2010 2 26) "A" (Some 10%Q);
    mkObs (days_from_civil 2010 3 31) "A" (Some 10%Q);
    mkObs (days_from_civil 2010 4 30) "A" (Some 1000%Q) ].

(** A benchmark that stands at 0 for two months. *)
Definition scenario_zero_close : list IndexObs :=
  [ mkIndexObs (days_from_civil 2010 1 29) (Some 0%Q);
    mkIndexObs (days_from_civil 2010 2 26) (Some 0%Q);
    mkIndexObs (days_from_civil 2010 3 31) (Some 5%Q) ].

(** * Properties *)

(** ** Lists, sorting and group keys *)

Section StableSortFacts.
Context {A : Type} (ltb : A -> A -> bool).

Lemma insert_stable_Permutation x l : insert_stable ltb x l ≡ₚ x :: l.
Proof.
  induction l as [|y l IH]; simpl; [done|].
  destruct (ltb y x); [|done].
  rewrite IH. apply Permutation_swap.
Qed.

Lemma stable_sort_Permutation l : stable_sort ltb l ≡ₚ l.
Proof.
  induction l as [|x l IH]; simpl; [done|].
  by rewrite insert_stable_Permutation, IH.
Qed.

Lemma before_cons {B} (a b z : B) l : before a b l -> before a b (z :: l).
Proof. intros (l1 & l2 & l3 & ->). by exists (z :: l1), l2, l3. Qed.

Lemma before_head {B} (a b : B) l : b ∈ l -> before a b (a :: l).
Proof.
  intros (l2 & l3 & ->)%list_elem_of_split. by exists [], l2, l3.
Qed.

Lemma before_inv_cons {B} (a b z : B) l :
  before a b (z :: l) -> (a = z /\ b ∈ l) \/ before a b l.
Proof.
  intros ([|z' l1] & l2 & l3 & Heq); simplify_eq/=.
  - left. split; [done|]. set_solver.
  - right. by exists l1, l2, l3.
Qed.

(** Inserting keeps the elements already there in their order, and puts the
    new element before every element that does not sort strictly before
    it. *)
Lemma insert_stable_before_old x a b l :
  before a b l -> before a b (insert_stable ltb x l).
Proof.
  induction l as [|z l IH]; simpl; intros Hab.
  - by destruct Hab as ([|??] & ? & ? & ?).
  - destruct (ltb z x); [|by apply before_cons].
    apply before_inv_cons in Hab as [[-> Hb]|Hab].
    + apply before_head. by rewrite insert_stable_Permutation, elem_of_cons; right.
    + by apply before_cons, IH.
Qed.

Lemma insert_stable_before_new x y l :
  y ∈ l -> ltb y x = false -> before x y (insert_stable ltb x l).
Proof.
  induction l as [|z l IH]; simpl; intros Hy Hyx.
  - by apply elem_of_nil in Hy.
  - destruct (ltb z x) eqn:Hzx; [|by apply before_head].
    apply elem_of_cons in Hy as [->|Hy]; [congruence|].
    by apply before_cons, IH.
Qed.

(** The sort is stable: [a] stays before [b] unless [b] sorts strictly
    before [a]. *)
Lemma stable_sort_stable a b l :
  before a b l -> ltb b a = false -> before a b (stable_sort ltb l).
Proof.
  induction l as [|z l IH]; simpl; intros Hab Hba.
  - by destruct Hab as ([|??] & ? & ? & ?).
  - apply before_inv_cons in Hab as [[-> Hb]|Hab].
    + apply insert_stable_before_new; [|done].
      by rewrite stable_sort_Permutation.
    + by apply insert_stable_before_old, IH.
Qed.

Hypothesis ltb_asym : forall x y, ltb x y = true -> ltb y x = false.
Hypothesis precede_trans : Transitive (may_precede ltb).

Lemma insert_stable_sorted x l :
  StronglySorted (may_precede ltb) l ->
  StronglySorted (may_precede ltb) (insert_stable ltb x l).
Proof.
  induction 1 as [|y l Hl IH Hy]; simpl.
  - repeat constructor.
  - destruct (ltb y x) eqn:Hyx.
    + constructor; [done|].
      rewrite insert_stable_Permutation. constructor; [|done].
      by apply ltb_asym.
    + constructor; [by constructor|].
      constructor; [done|].
      eapply Forall_impl; [exact Hy|].
      intros z Hz. by trans y.
Qed.

Lemma stable_sort_sorted l : StronglySorted (may_precede ltb) (stable_sort ltb l).
Proof.
  induction l as [|x l IH]; simpl; [constructor|].
  by apply insert_stable_sorted.
Qed.
End StableSortFacts.

Lemma StronglySorted_lookup_lt {A} (R : relation A) l i j x y :
  StronglySorted R l -> l !! i = Some x -> l !! j = Some y -> (i < j)%nat ->
  R x y.
Proof.
  intros Hl. revert i j. induction Hl as [|z l Hl IH Hz]; intros i j Hi Hj Hij.
  - by rewrite lookup_nil in Hi.
  - destruct j as [|j]; [lia|]. destruct i as [|i]; simplify_eq/=.
    + rewrite Forall_forall in Hz. apply Hz. by eapply list_elem_of_lookup_2.
    + eapply IH; eauto. lia.
Qed.

Lemma StronglySorted_filter {A} (R : relation A) (P : A -> Prop)
    `{forall x, Decision (P x)} l :
  StronglySorted R l -> StronglySorted R (filter P l).
Proof.
  induction 1 as [|x l Hl IH Hx]; [constructor|].
  rewrite filter_cons. case_decide; [|done].
  constructor; [done|].
  rewrite Forall_forall in Hx |- *. intros y [_ Hy]%list_elem_of_filter. auto.
Qed.

Lemma StronglySorted_weaken {A} (R1 R2 : relation A) l :
  (forall x y, R1 x y -> R2 x y) -> StronglySorted R1 l -> StronglySorted R2 l.
Proof.
  intros HR. induction 1 as [|x l Hl IH Hx]; constructor; [done|].
  eapply Forall_impl; eauto.
Qed.

Section Unique.
Context {A : Type} `{EqDecision A}.
Implicit Types l : list A.

Lemma elem_of_unique l x : x ∈ unique l <-> x ∈ l.
Proof.
  induction l as [|y l IH]; simpl; [done|].
  rewrite !elem_of_cons, list_elem_of_filter, IH.
  destruct (decide (x = y)); tauto.
Qed.

Lemma NoDup_unique l : NoDup (unique l).
Proof.
  induction l as [|y l IH]; simpl; [constructor|].
  constructor; [|by apply NoDup_filter].
  rewrite list_elem_of_filter. by intros [? _].
Qed.
End Unique.

Lemma elem_of_group_keys dates d : d ∈ group_keys dates <-> d ∈ dates.
Proof.
  unfold group_keys. by rewrite stable_sort_Permutation, elem_of_unique.
Qed.

Lemma NoDup_group_keys dates : NoDup (group_keys dates).
Proof.
  unfold group_keys. rewrite stable_sort_Permutation. apply NoDup_unique.
Qed.

Lemma group_keys_sorted dates : StronglySorted Z.le (group_keys dates).
Proof.
  unfold group_keys.
  apply (StronglySorted_weaken (may_precede Z.ltb)).
  - intros x y. unfold may_precede. rewrite Z.ltb_ge. lia.
  - apply stable_sort_sorted.
    + intros x y. rewrite Z.ltb_lt, Z.ltb_ge. lia.
    + intros x y z. unfold may_precede. rewrite !Z.ltb_ge. lia.
Qed.

(** ** Calendar *)

Lemma crisis_window_days :
  days_from_civil 1970 1 1 = 0%Z /\ crisis_start = 13879%Z /\ crisis_end = 14609%Z.
Proof. done. Qed.

(** The month ends from January 2008 to December 2009 are in the window,
    December 2007 and January 2010 are not. *)
Lemma crisis_mask_month_ends :
  crisis_mask (days_from_civil 2007 12 31) = false /\
  crisis_mask (days_from_civil 2008 1 31) = true /\
  crisis_mask (days_from_civil 2009 12 31) = true /\
  crisis_mask (days_from_civil 2010 1 31) = false.
Proof. done. Qed.

Lemma first_of_month_step mi : (first_of_month mi < first_of_month (mi + 1))%Z.
Proof.
  unfold first_of_month, days_from_civil.
  (repeat match goal with |- context [Z.leb ?a ?b] => destruct (Z.leb_spec a b) | |- context [Z.ltb ?a ?b] => destruct (Z.ltb_spec a b) end);
  Z.div_mod_to_equations; lia.
Qed.


Lemma first_of_month_period1 mi :
  first_of_month (mi + 4800) = (first_of_month mi + 146097)%Z.
Proof.
  unfold first_of_month.
  replace ((mi + 4800) `div` 12)%Z with (mi `div` 12 + 400)%Z
    by (Z.div_mod_to_equations; lia).
  replace ((mi + 4800) `mod` 12)%Z with (mi `mod` 12)%Z
    by (Z.div_mod_to_equations; lia).
  unfold days_from_civil.
  set (m := (mi `mod` 12 + 1)%Z). set (y := (mi `div` 12)%Z).
  destruct (m <=? 2)%Z.
  - replace (y + 400 - 1)%Z with (y - 1 + 1 * 400)%Z by lia.
    rewrite Z.div_add by lia. cbv zeta. set (e := ((y - 1) `div` 400)%Z).
    replace (y - 1 + 1 * 400 - (e + 1) * 400)%Z with (y - 1 - e * 400)%Z by lia.
    lia.
  - replace (y + 400)%Z with (y + 1 * 400)%Z by lia.
    rewrite Z.div_add by lia. cbv zeta. set (e := (y `div` 400)%Z).
    replace (y + 1 * 400 - (e + 1) * 400)%Z with (y - e * 400)%Z by lia.
    lia.
Qed.

Lemma month_of_period1 d : month_of (d + 146097) = (month_of d + 4800)%Z.
Proof.
  unfold month_of, civil_from_days.
  replace (d + 146097 + 719468)%Z with (d + 719468 + 1 * 146097)%Z by lia.
  rewrite Z.div_add by lia.
  set (z := (d + 719468)%Z). set (era := (z `div` 146097)%Z).
  replace (z + 1 * 146097 - (era + 1) * 146097)%Z with (z - era * 146097)%Z by lia.
  set (doe := (z - era * 146097)%Z).
  set (yoe := ((doe - doe `div` 1460 + doe `div` 36524 - doe `div` 146096) `div` 365)%Z).
  set (doy := (doe - (365 * yoe + yoe `div` 4 - yoe `div` 100))%Z).
  set (mp := ((5 * doy + 2) `div` 153)%Z).
  destruct (mp <? 10)%Z; destruct (_ <=? 2)%Z; lia.
Qed.

Lemma first_of_month_period mi (k : Z) :
  first_of_month (mi + 4800 * k) = (first_of_month mi + 146097 * k)%Z.
Proof.
  assert (forall n : nat, forall mi, first_of_month (mi + 4800 * Z.of_nat n)
            = (first_of_month mi + 146097 * Z.of_nat n)%Z) as Hn.
  { induction n as [|n IH]; intros mi'.
    - by rewrite !Z.mul_0_r, !Z.add_0_r.
    - replace (mi' + 4800 * Z.of_nat (S n))%Z with (mi' + 4800 * Z.of_nat n + 4800)%Z by lia.
      rewrite first_of_month_period1, IH. lia. }
  destruct (Z.le_gt_cases 0 k) as [Hk|Hk].
  - rewrite <- (Z2Nat.id k) by done. apply Hn.
  - specialize (Hn (Z.to_nat (- k)) (mi + 4800 * k)%Z).
    rewrite Z2Nat.id in Hn by lia.
    replace (mi + 4800 * k + 4800 * - k)%Z with mi in Hn by lia. lia.
Qed.

Lemma month_of_period d (k : Z) :
  month_of (d + 146097 * k) = (month_of d + 4800 * k)%Z.
Proof.
  assert (forall n : nat, forall d, month_of (d + 146097 * Z.of_nat n)
            = (month_of d + 4800 * Z.of_nat n)%Z) as Hn.
  { induction n as [|n IH]; intros d'.
    - by rewrite !Z.mul_0_r, !Z.add_0_r.
    - replace (d' + 146097 * Z.of_nat (S n))%Z with (d' + 146097 * Z.of_nat n + 146097)%Z by lia.
      rewrite month_of_period1, IH. lia. }
  destruct (Z.le_gt_cases 0 k) as [Hk|Hk].
  - rewrite <- (Z2Nat.id k) by done. apply Hn.
  - specialize (Hn (Z.to_nat (- k)) (d + 146097 * k)%Z).
    rewrite Z2Nat.id in Hn by lia.
    replace (d + 146097 * k + 146097 * - k)%Z with d in Hn by lia. lia.
Qed.


Lemma all_from_spec P n d i :
  all_from P n d = true -> (d <= i < d + Z.of_nat n)%Z -> P i = true.
Proof.
  revert d. induction n as [|n IH]; intros d Hall Hi; [lia|].
  simpl in Hall. destruct (P d) eqn:HP; [|done].
  destruct (decide (i = d)) as [->|Hne]; [done|].
  apply (IH (d + 1)%Z); [done|lia].
Qed.

Lemma era_months_ok : all_from month_ok 4800 0 = true.
Proof. vm_compute. reflexivity. Qed.

Lemma first_of_month_mono mi1 mi2 :
  (mi1 < mi2)%Z -> (first_of_month mi1 < first_of_month mi2)%Z.
Proof.
  intros Hlt.
  assert (forall n : nat, first_of_month mi1 < first_of_month (mi1 + 1 + Z.of_nat n))%Z as Hn.
  { induction n as [|n IH].
    - rewrite Z.add_0_r. apply first_of_month_step.
    - etrans; [exact IH|].
      replace (mi1 + 1 + Z.of_nat (S n))%Z with (mi1 + 1 + Z.of_nat n + 1)%Z by lia.
      apply first_of_month_step. }
  specialize (Hn (Z.to_nat (mi2 - mi1 - 1))).
  rewrite Z2Nat.id in Hn by lia.
  by replace (mi1 + 1 + (mi2 - mi1 - 1))%Z with mi2 in Hn by lia.
Qed.

Lemma month_of_in_base mi d :
  (0 <= mi < 4800)%Z ->
  (first_of_month mi <= d < first_of_month (mi + 1))%Z -> month_of d = mi.
Proof.
  intros Hmi Hd.
  pose proof (all_from_spec month_ok 4800 0 mi era_months_ok ltac:(lia)) as Hok.
  unfold month_ok in Hok.
  apply Z.eqb_eq, (all_from_spec _ _ _ d Hok). lia.
Qed.

(** Some month of the base era holds every day of the base era. *)
Lemma base_month_exists d :
  (first_of_month 0 <= d < first_of_month 4800)%Z ->
  exists mi, (0 <= mi < 4800)%Z /\
    (first_of_month mi <= d < first_of_month (mi + 1))%Z.
Proof.
  intros [Hlo Hhi].
  assert (forall n : nat, (d < first_of_month (Z.of_nat n))%Z ->
            exists mi, (0 <= mi < Z.of_nat n)%Z /\
              (first_of_month mi <= d < first_of_month (mi + 1))%Z) as Hn.
  { induction n as [|n IH]; intros Hd; [change (Z.of_nat 0) with 0%Z in Hd; lia|].
    destruct (Z.lt_ge_cases d (first_of_month (Z.of_nat n))) as [Hlt|Hge].
    - destruct (IH Hlt) as (mi & ? & ?). exists mi. split; [lia|done].
    - exists (Z.of_nat n). split; [lia|].
      replace (Z.of_nat n + 1)%Z with (Z.of_nat (S n)) by lia. done. }
  apply (Hn 4800%nat). exact Hhi.
Qed.

Lemma month_bracket d :
  (first_of_month (month_of d) <= d < first_of_month (month_of d + 1))%Z.
Proof.
  set (k := ((d - first_of_month 0) `div` 146097)%Z).
  set (d0 := (d - 146097 * k)%Z).
  assert (first_of_month 0 <= d0 < first_of_month 0 + 146097)%Z as Hd0.
  { unfold d0, k. generalize (first_of_month 0). intros f.
    Z.div_mod_to_equations. lia. }
  assert (first_of_month 4800 = first_of_month 0 + 146097)%Z as H4800
    by apply (first_of_month_period1 0).
  destruct (base_month_exists d0) as (mi & Hmi & Hb); [lia|].
  pose proof (month_of_in_base mi d0 Hmi Hb) as Hm.
  replace d with (d0 + 146097 * k)%Z by (unfold d0; lia).
  rewrite month_of_period, Hm.
  replace (mi + 4800 * k + 1)%Z with (mi + 1 + 4800 * k)%Z by lia.
  rewrite !first_of_month_period. lia.
Qed.

(** A day lies in month [mi] exactly when it is between the first of that
    month and the eve of the next first. *)
Lemma month_of_spec d mi :
  month_of d = mi <-> (first_of_month mi <= d < first_of_month (mi + 1))%Z.
Proof.
  split; [intros <-; apply month_bracket|].
  intros [Hlo Hhi]. pose proof (month_bracket d) as [Hlo' Hhi'].
  destruct (Z.lt_trichotomy (month_of d) mi) as [Hlt|[?|Hgt]]; [|done|].
  - assert (first_of_month (month_of d + 1) <= first_of_month mi)%Z; [|lia].
    destruct (decide (month_of d + 1 = mi)%Z) as [->|]; [done|].
    apply Z.lt_le_incl, first_of_month_mono. lia.
  - assert (first_of_month (mi + 1) <= first_of_month (month_of d))%Z; [|lia].
    destruct (decide (mi + 1 = month_of d)%Z) as [->|]; [done|].
    apply Z.lt_le_incl, first_of_month_mono. lia.
Qed.

Lemma month_of_mono d1 d2 : (d1 <= d2)%Z -> (month_of d1 <= month_of d2)%Z.
Proof.
  intros Hle. pose proof (month_bracket d1) as [H1 _].
  pose proof (month_bracket d2) as [_ H2].
  destruct (Z.le_gt_cases (month_of d1) (month_of d2)) as [|Hgt]; [done|].
  assert (first_of_month (month_of d2 + 1) <= first_of_month (month_of d1))%Z; [|lia].
  destruct (decide (month_of d2 + 1 = month_of d1)%Z) as [->|]; [done|].
  apply Z.lt_le_incl, first_of_month_mono. lia.
Qed.

Lemma month_of_month_end mi : month_of (month_end mi) = mi.
Proof.
  apply month_of_spec. unfold month_end.
  pose proof (first_of_month_step mi). lia.
Qed.

Lemma month_end_mono mi1 mi2 : (mi1 < mi2)%Z -> (month_end mi1 < month_end mi2)%Z.
Proof.
  intros. unfold month_end.
  assert (first_of_month (mi1 + 1) < first_of_month (mi2 + 1))%Z
    by (apply first_of_month_mono; lia). lia.
Qed.

Lemma month_end_inj mi1 mi2 : month_end mi1 = month_end mi2 -> mi1 = mi2.
Proof.
  intros Heq. rewrite <- (month_of_month_end mi1), Heq. apply month_of_month_end.
Qed.

(** ** Return computation (preprocessing.py, lines 25-36) *)

Lemma key_leb_total k1 k2 : key_leb k1 k2 = false -> key_leb k2 k1 = true.
Proof.
  destruct k1 as [d1 t1], k2 as [d2 t2]. unfold key_leb; simpl.
  destruct (Z.ltb_spec d1 d2), (Z.ltb_spec d2 d1),
    (Z.eqb_spec d1 d2), (Z.eqb_spec d2 d1); simpl; try done; try lia.
  intros Hle. destruct (String.leb_total t1 t2); congruence.
Qed.

Lemma key_leb_trans k1 k2 k3 :
  key_leb k1 k2 = true -> key_leb k2 k3 = true -> key_leb k1 k3 = true.
Proof.
  destruct k1 as [d1 t1], k2 as [d2 t2], k3 as [d3 t3]. unfold key_leb; simpl.
  destruct (Z.ltb_spec d1 d2), (Z.ltb_spec d2 d3), (Z.ltb_spec d1 d3),
    (Z.eqb_spec d1 d2), (Z.eqb_spec d2 d3), (Z.eqb_spec d1 d3);
    simpl; try done; try lia.
  intros H12 H23. apply Is_true_true.
  apply Is_true_true in H12, H23.
  by trans t2; [exact H12 | exact H23].
Qed.

Lemma key_leb_date k1 k2 : key_leb k1 k2 = true -> (k1.1 <= k2.1)%Z.
Proof.
  unfold key_leb.
  destruct (Z.ltb_spec (k1.1) (k2.1)), (Z.eqb_spec (k1.1) (k2.1)); simpl;
    try done; lia.
Qed.

Lemma sort_index_Permutation t : sort_index t ≡ₚ t.
Proof. apply stable_sort_Permutation. Qed.

Lemma sort_index_sorted t : StronglySorted row_precedes (sort_index t).
Proof.
  unfold sort_index. eapply StronglySorted_weaken; [|apply stable_sort_sorted].
  - intros x y. unfold may_precede, row_precedes, key_ltb.
    by intros ->%negb_false_iff.
  - intros x y. unfold key_ltb. rewrite negb_true_iff, negb_false_iff.
    apply key_leb_total.
  - intros x y z. unfold may_precede, key_ltb. rewrite !negb_false_iff.
    apply key_leb_trans.
Qed.

Lemma pct_change_series_lookup_0 prev ps p :
  ps !! 0%nat = Some p -> pct_change_series prev ps !! 0%nat = Some (pct prev p).
Proof. destruct ps; intros; simplify_eq/=; done. Qed.

Lemma pct_change_series_lookup_S prev ps i p0 p1 :
  ps !! i = Some p0 -> ps !! S i = Some p1 ->
  pct_change_series prev ps !! S i = Some (pct (Some p0) p1).
Proof.
  revert prev i. induction ps as [|p ps IH]; intros prev i H0 H1; [done|].
  destruct i as [|i]; simplify_eq/=.
  - exact (pct_change_series_lookup_0 _ _ _ H1).
  - by eapply IH.
Qed.

Lemma assign_returns_length t past future :
  length past = length t -> length future = length t ->
  length (assign_returns t past future) = length t.
Proof.
  revert past future. induction t as [|r t IH]; intros [|p past] [|f future];
    simpl; try done. intros. f_equal. apply IH; lia.
Qed.

Lemma pct_change_from_length last t : length (pct_change_from last t) = length t.
Proof. revert last. induction t; intros; simpl; [done|]. by f_equal. Qed.

Lemma shift_m1_length col : length (shift_m1 col) = length col.
Proof. destruct col; simpl; [done|]. rewrite length_app. simpl. lia. Qed.

Lemma assign_returns_keys t past future :
  length past = length t -> length future = length t ->
  key <$> assign_returns t past future = pr_key <$> t.
Proof.
  revert past future. induction t as [|r t IH]; intros [|p past] [|f future];
    simpl; try done. intros. f_equal. apply IH; lia.
Qed.

Lemma assign_returns_prices t past future :
  length past = length t -> length future = length t ->
  price <$> assign_returns t past future = pr_price <$> t.
Proof.
  revert past future. induction t as [|r t IH]; intros [|p past] [|f future];
    simpl; try done. intros. f_equal. apply IH; lia.
Qed.

(** The grouped [pct_change], read ticker by ticker, is the per-series
    [pct_change]; the rows of a ticker keep their dates and prices. *)
Lemma ticker_series_assign_returns k last t future :
  length future = length t ->
  let s := ticker_series k (assign_returns t (pct_change_from last t) future) in
  let ps := price_series k t in
  date <$> s = pr_date <$> ps /\ price <$> s = pr_price <$> ps /\
  monthly_past_return <$> s = pct_change_series (last !! k) (pr_price <$> ps).
Proof.
  revert last future. induction t as [|r t IH]; intros last [|f future] Hlen;
    simplify_eq/=; [done|].
  unfold ticker_series, price_series. rewrite !filter_cons. simpl.
  specialize (IH (<[pr_ticker r := pr_price r]> last) future Hlen).
  destruct IH as (IHd & IHp & IHr).
  case_decide as Hk; simpl.
  - subst k. rewrite lookup_insert_eq in IHr.
    split_and!; f_equal; done.
  - rewrite lookup_insert_ne in IHr by done. done.
Qed.

Lemma compute_returns_prices_in_range prices_monthly r :
  r ∈ compute_returns prices_monthly -> price_in_range (price r) = true.
Proof.
  intros Hr. apply (list_elem_of_fmap_2 price) in Hr.
  unfold compute_returns, with_returns in Hr.
  rewrite assign_returns_prices in Hr
    by (unfold groupby_pct_change;
        by rewrite ?shift_m1_length, pct_change_from_length).
  apply list_elem_of_fmap in Hr as (r0 & -> & Hr0).
  rewrite sort_index_Permutation in Hr0.
  by apply list_elem_of_filter in Hr0 as [? _].
Qed.

Lemma price_in_range_Some p :
  price_in_range p = true -> exists q, p = Some q /\ (1 # 10 <= q)%Q /\ (q <= 10000)%Q.
Proof.
  destruct p as [q|]; [|done]. unfold price_in_range; simpl.
  intros [H1 H2]%andb_true_iff. apply Qle_bool_iff in H1, H2. eauto.
Qed.

(** C8. Within the monthly series of a ticker (ascending by date), the
    trailing return of a record is [price[t] / price[t-1] - 1], computed
    from two present prices of which the divisor is at least 0.1, and it is
    missing at the first record of the ticker. *)
Theorem trailing_return_is_pct_change prices_monthly k :
  let s := ticker_series k (compute_returns prices_monthly) in
  (forall r, s !! 0%nat = Some r -> monthly_past_return r = None) /\
  (forall t r0 r1, s !! t = Some r0 -> s !! S t = Some r1 ->
     (date r0 <= date r1)%Z /\
     exists p0 p1, price r0 = Some p0 /\ price r1 = Some p1 /\
       (1 # 10 <= p0)%Q /\
       monthly_past_return r1 = Some (p1 / p0 - 1)%Q).
Proof.
  set (m := sort_index (filter_prices prices_monthly)).
  intros s.
  destruct (ticker_series_assign_returns k ∅ m (shift_m1 (groupby_pct_change m)))
    as (Hd & Hp & Hr).
  { unfold groupby_pct_change. by rewrite shift_m1_length, pct_change_from_length. }
  fold (groupby_pct_change m) in Hd, Hp, Hr.
  change (ticker_series k _) with s in Hd, Hp, Hr.
  rewrite lookup_empty in Hr. split.
  - intros r H0.
    assert ((monthly_past_return <$> s) !! 0%nat = Some (monthly_past_return r))
      as Hr0 by (by rewrite list_lookup_fmap, H0).
    rewrite Hr in Hr0.
    assert ((price <$> s) !! 0%nat = Some (price r)) as Hp0
      by (by rewrite list_lookup_fmap, H0).
    rewrite Hp in Hp0.
    rewrite (pct_change_series_lookup_0 _ _ _ Hp0) in Hr0. by simplify_eq/=.
  - intros t r0 r1 H0 H1.
    assert (forall {B} (f : Row -> B) i r, s !! i = Some r ->
              (f <$> s) !! i = Some (f r)) as Hf
      by (intros B f i r Hi; by rewrite list_lookup_fmap, Hi).
    split.
    + pose proof (Hf _ date _ _ H0) as Hd0. pose proof (Hf _ date _ _ H1) as Hd1.
      rewrite Hd in Hd0, Hd1. rewrite list_lookup_fmap in Hd0, Hd1.
      destruct (price_series k m !! t) as [a|] eqn:Ha; simplify_eq/=.
      destruct (price_series k m !! S t) as [b|] eqn:Hb; simplify_eq/=.
      rewrite <- Hd0, <- Hd1.
      apply (key_leb_date (pr_key a) (pr_key b)).
      eapply (StronglySorted_lookup_lt row_precedes); [|exact Ha|exact Hb|lia].
      apply StronglySorted_filter, sort_index_sorted.
    + pose proof (Hf _ price _ _ H0) as Hp0. pose proof (Hf _ price _ _ H1) as Hp1.
      pose proof (Hf _ monthly_past_return _ _ H1) as Hr1.
      rewrite Hp in Hp0, Hp1. rewrite Hr in Hr1.
      rewrite (pct_change_series_lookup_S _ _ _ _ _ Hp0 Hp1) in Hr1.
      destruct (price_in_range_Some (price r0)) as (p0 & Hp0' & Hlo & _).
      { eapply compute_returns_prices_in_range, list_elem_of_filter.
        eapply list_elem_of_lookup_2, H0. }
      destruct (price_in_range_Some (price r1)) as (p1 & Hp1' & _).
      { eapply compute_returns_prices_in_range, list_elem_of_filter.
        eapply list_elem_of_lookup_2, H1. }
      exists p0, p1. rewrite Hp0', Hp1' in *. by simplify_eq/=.
Qed.

(** The forward return of a row is the trailing return of the next row of
    the whole frame, whatever its ticker. *)
Lemma future_is_shifted_past t :
  monthly_future_return <$> with_returns t
  = shift_m1 (monthly_past_return <$> with_returns t).
Proof.
  unfold with_returns.
  assert (forall t past future, length past = length t -> length future = length t ->
    monthly_past_return <$> assign_returns t past future = past /\
    monthly_future_return <$> assign_returns t past future = future) as Hcols.
  { clear. induction t as [|r t IH]; intros [|p past] [|f future] ??;
      simplify_eq/=; [done|].
    destruct (IH past future) as [-> ->]; done. }
  destruct (Hcols t (groupby_pct_change t) (shift_m1 (groupby_pct_change t)))
    as [-> ->]; [..|done]; unfold groupby_pct_change;
    by rewrite ?shift_m1_length, pct_change_from_length.
Qed.

(** C1 (divergence). With two tickers in the frame the forward return is
    not taken from the ticker's own price pair: ticker A (10 -> 11) has no
    forward return at its first record, where the claim gives 11/10 - 1, and
    at its last record it carries 0.5, the trailing return of ticker B
    (100 -> 150), where the claim gives a missing value. *)
Theorem forward_return_crosses_tickers :
  let t := compute_returns scenario_two_tickers in
  (fun r => (ticker r, monthly_past_return r)) <$> t
    = [("A", None); ("B", None); ("A", Some (1 # 10)%Q); ("B", Some (50 # 100)%Q)] /\
  monthly_future_return <$> ticker_series "A" t = [None; Some (50 # 100)%Q] /\
  monthly_future_return <$> ticker_series "B" t = [Some (1 # 10)%Q; None].
Proof. vm_compute. done. Qed.

(** ** Outlier suppression (preprocessing.py, lines 38-61) *)

Lemma is_outlier_false v : is_outlier v = false <-> within_bounds v.
Proof.
  destruct v as [q|]; simpl; [|done].
  unfold is_outlier, cell_gt, cell_lt, Qltb.
  rewrite orb_false_iff, !negb_false_iff, !Qle_bool_iff. tauto.
Qed.

Lemma existsb_false_filter {A} (f : A -> bool) l :
  existsb f l = false -> filter (fun x => f x = true) l = [].
Proof.
  induction l as [|x l IH]; simpl; [done|].
  intros [Hx Hl]%orb_false_iff. rewrite filter_cons.
  case_decide; [congruence|auto].
Qed.

Lemma loc_set_nan_nil f t : loc_set_nan f [] t = t.
Proof.
  unfold loc_set_nan. rewrite <- (list_fmap_id t) at 2.
  apply list_fmap_ext. intros i r _. case_decide as H; [|done].
  by apply elem_of_nil in H.
Qed.

Lemma key_nan_past r : key (nan_past r) = key r.
Proof. done. Qed.
Lemma key_nan_future r : key (nan_future r) = key r.
Proof. done. Qed.

(** The loop body is a row-by-row map. *)
Lemma suppress_ticker_rows t tk :
  suppress_ticker t tk
  = suppress_row (outlier_labels monthly_past_return tk t)
      (outlier_labels monthly_future_return tk t) <$> t.
Proof.
  unfold suppress_ticker, outlier_labels.
  set (ncd := filter _ (filter _ t)).
  assert (forall (col : Row -> option Q) f u,
    (if (0 <? length ncd)%nat then
       if existsb (fun r => is_outlier (col r)) ncd
       then loc_set_nan f
              (key <$> filter (fun r => is_outlier (col r) = true) ncd) u
       else u
     else u)
    = loc_set_nan f (key <$> filter (fun r => is_outlier (col r) = true) ncd) u)
    as Hif.
  { intros col f u. destruct ncd as [|r0 ncd0] eqn:Hncd.
    - simpl. by rewrite ?filter_nil, loc_set_nan_nil.
    - change (0 <? length (r0 :: ncd0))%nat with true. cbv iota.
      destruct (existsb _ _) eqn:Hex; [done|].
      apply existsb_false_filter in Hex. rewrite Hex. simpl.
      by rewrite loc_set_nan_nil. }
  rewrite !Hif. unfold loc_set_nan. rewrite <- list_fmap_compose.
  apply list_fmap_ext. intros i r _. unfold suppress_row. simpl.
  case_decide; done.
Qed.

Lemma outlier_labels_spec col tk t k :
  k ∈ outlier_labels col tk t -> crisis_mask k.1 = false /\ k.2 = tk.
Proof.
  unfold outlier_labels. intros (r & -> & Hr)%list_elem_of_fmap.
  apply list_elem_of_filter in Hr as [_ Hr].
  apply list_elem_of_filter in Hr as [Hc Hr].
  apply list_elem_of_filter in Hr as [Ht _]. done.
Qed.

Lemma outlier_labels_complete col tk t r :
  r ∈ t -> ticker r = tk -> crisis_mask (date r) = false ->
  is_outlier (col r) = true -> key r ∈ outlier_labels col tk t.
Proof.
  intros. unfold outlier_labels. apply list_elem_of_fmap_2.
  rewrite !list_elem_of_filter. done.
Qed.

Lemma suppress_row_key lp lf r : key (suppress_row lp lf r) = key r.
Proof. unfold suppress_row. repeat case_decide; done. Qed.

Lemma suppress_row_price lp lf r : price (suppress_row lp lf r) = price r.
Proof. unfold suppress_row. repeat case_decide; done. Qed.

Lemma suppress_row_past lp lf r :
  monthly_past_return (suppress_row lp lf r)
  = if decide (key r ∈ lp) then None else monthly_past_return r.
Proof. unfold suppress_row. repeat case_decide; done. Qed.

Lemma suppress_row_future lp lf r :
  monthly_future_return (suppress_row lp lf r)
  = if decide (key r ∈ lf) then None else monthly_future_return r.
Proof. unfold suppress_row. repeat case_decide; try done; by destruct r. Qed.

Lemma suppress_row_id lp lf r :
  key r ∉ lp -> key r ∉ lf -> suppress_row lp lf r = r.
Proof. intros. unfold suppress_row. repeat case_decide; done. Qed.

Lemma suppress_ticker_keys t tk : key <$> suppress_ticker t tk = key <$> t.
Proof.
  rewrite suppress_ticker_rows, <- list_fmap_compose.
  apply list_fmap_ext. intros. apply suppress_row_key.
Qed.

Lemma suppress_outliers_fold_keys tks t :
  key <$> foldl suppress_ticker t tks = key <$> t.
Proof.
  revert t. induction tks as [|tk tks IH]; intros t; simpl; [done|].
  by rewrite IH, suppress_ticker_keys.
Qed.

Lemma suppress_outliers_keys t : key <$> suppress_outliers t = key <$> t.
Proof. apply suppress_outliers_fold_keys. Qed.

(** A row in the crisis window goes through the loop body unchanged. *)
Lemma suppress_ticker_crisis t tk i r :
  t !! i = Some r -> crisis_mask (date r) = true ->
  suppress_ticker t tk !! i = Some r.
Proof.
  intros Hi Hc. rewrite suppress_ticker_rows, list_lookup_fmap, Hi. simpl.
  f_equal. apply suppress_row_id; intros [Hk _]%outlier_labels_spec;
    simpl in Hk; congruence.
Qed.

(** C4. A record dated inside 2008-01-01 .. 2009-12-31 leaves the outlier
    loop exactly as the return computation produced it, whatever its
    returns are. *)
Theorem crisis_rows_untouched (t : list Row) (i : nat) (r : Row) :
  t !! i = Some r -> crisis_mask (date r) = true ->
  suppress_outliers t !! i = Some r.
Proof.
  unfold suppress_outliers. generalize (unique (ticker <$> t)) as tks.
  intros tks. revert t. induction tks as [|tk tks IH]; intros t Hi Hc; simpl.
  - done.
  - apply IH; [|done]. by apply suppress_ticker_crisis.
Qed.

Lemma suppress_row_date lp lf r : date (suppress_row lp lf r) = date r.
Proof. exact (f_equal fst (suppress_row_key lp lf r)). Qed.

Lemma suppress_row_ticker lp lf r : ticker (suppress_row lp lf r) = ticker r.
Proof. exact (f_equal snd (suppress_row_key lp lf r)). Qed.

Lemma suppress_row_preserves lp lf r :
  suppressed r -> suppressed (suppress_row lp lf r).
Proof.
  unfold suppressed.
  rewrite suppress_row_date, suppress_row_past, suppress_row_future.
  intros Hr Hc. destruct (Hr Hc). repeat case_decide; done.
Qed.

Lemma suppress_row_own t r :
  r ∈ t ->
  suppressed (suppress_row (outlier_labels monthly_past_return (ticker r) t)
                (outlier_labels monthly_future_return (ticker r) t) r).
Proof.
  intros Hr. unfold suppressed.
  rewrite suppress_row_date, suppress_row_past, suppress_row_future.
  intros Hc. split; case_decide as Hk; try done; apply is_outlier_false;
    apply not_true_is_false; intros Ho; apply Hk;
    by apply outlier_labels_complete.
Qed.

Lemma suppress_fold_suppressed tks seen t :
  (forall r, r ∈ t -> ticker r ∈ seen -> suppressed r) ->
  forall r, r ∈ foldl suppress_ticker t tks -> ticker r ∈ seen ++ tks ->
    suppressed r.
Proof.
  revert seen t. induction tks as [|tk tks IH]; intros seen t Ht r Hr Hin; simpl in *.
  - rewrite app_nil_r in Hin. auto.
  - apply (IH (seen ++ [tk]) (suppress_ticker t tk)); [|done|by rewrite <- app_assoc].
    clear r Hr Hin. intros r' Hr' Hin.
    rewrite suppress_ticker_rows in Hr'.
    apply list_elem_of_fmap in Hr' as (r & -> & Hr).
    rewrite suppress_row_ticker in Hin.
    apply elem_of_app in Hin as [Hin|Hin%list_elem_of_singleton].
    + by apply suppress_row_preserves, Ht.
    + subst tk. by apply suppress_row_own.
Qed.

(** Right after the loop every row outside the crisis window has both
    return cells within bounds or missing. *)
Lemma suppress_outliers_suppressed t r : r ∈ suppress_outliers t -> suppressed r.
Proof.
  intros Hr. eapply (suppress_fold_suppressed _ [] t); [|exact Hr|].
  - intros ? _ []%elem_of_nil.
  - simpl. apply elem_of_unique.
    apply (list_elem_of_fmap_2 key) in Hr. rewrite suppress_outliers_keys in Hr.
    apply list_elem_of_fmap in Hr as (r0 & Hk & Hr0).
    apply list_elem_of_fmap. exists r0. split; [|done].
    exact (f_equal snd Hk).
Qed.

(** ** Forward fill and row drops (preprocessing.py, lines 63-71) *)

Lemma ffill_from_length last col : length (ffill_from last col) = length col.
Proof.
  revert last. induction col as [|[tk [q|]] col IH]; intros; simpl; auto.
Qed.

Lemma groupby_ffill_length t c : length (groupby_ffill t c) = length t.
Proof. unfold groupby_ffill. by rewrite ffill_from_length, length_fmap. Qed.

(** Where a filled cell comes from: the row itself, the store, or an
    earlier row of the same ticker that has a value. *)
Lemma ffill_from_lookup last col i tk c v :
  col !! i = Some (tk, c) -> ffill_from last col !! i = Some v ->
  v = c \/ v = last !! tk \/
  exists j q, (j < i)%nat /\ col !! j = Some (tk, Some q) /\ v = Some q.
Proof.
  revert last i. induction col as [|[tk0 c0] col IH]; intros last i Hi Hv; [done|].
  destruct i as [|i].
  - destruct c0; simplify_eq/=; auto.
  - assert (forall last', ffill_from last' col !! i = Some v ->
        v = c \/ v = last' !! tk \/
        exists j q, (S j < S i)%nat /\ ((tk0, c0) :: col) !! S j = Some (tk, Some q)
                    /\ v = Some q) as IH'.
    { intros last' Hv'. destruct (IH last' i Hi Hv') as [?|[?|(j & q & ? & ? & ?)]];
        auto. right; right. exists j, q. split_and!; [lia|done..]. }
    destruct c0 as [q0|]; simpl in Hv.
    + destruct (IH' _ Hv) as [?|[Hl|(j & q & ? & ? & ?)]]; auto.
      * destruct (decide (tk0 = tk)) as [->|Hne].
        -- rewrite lookup_insert_eq in Hl. right; right.
           exists 0%nat, q0. split_and!; [lia|done..].
        -- rewrite lookup_insert_ne in Hl by done. auto.
      * right; right. exists (S j), q. done.
    + destruct (IH' _ Hv) as [?|[Hl|(j & q & ? & ? & ?)]]; auto.
      right; right. exists (S j), q. done.
Qed.

(** The grouped forward fill, read ticker by ticker, is the per-series
    forward fill. *)
Lemma ticker_series_ffill (g : Row -> option Q -> Row) (c proj : Row -> option Q)
    last t k :
  (forall r v, ticker (g r v) = ticker r) -> (forall r v, proj (g r v) = v) ->
  proj <$> ticker_series k
             (zip_with g t (ffill_from last ((fun r => (ticker r, c r)) <$> t)))
  = ffill_series (last !! k) (c <$> ticker_series k t).
Proof.
  intros Hg Hproj. revert last.
  induction t as [|r t IH]; intros last; [done|].
  unfold ticker_series in *. simpl. rewrite (filter_cons _ r).
  destruct (c r) as [q|] eqn:Hc; simpl; rewrite filter_cons, Hg;
    case_decide as Hk; simpl; rewrite ?Hc, ?Hproj, ?IH.
  - subst k. by rewrite lookup_insert_eq.
  - by rewrite lookup_insert_ne.
  - by subst k.
  - done.
Qed.

(** A column read ticker by ticker only depends on the tickers and on the
    column. *)
Lemma ticker_series_ext {B} (x : Row -> B) k t1 t2 :
  (fun r => (ticker r, x r)) <$> t1 = (fun r => (ticker r, x r)) <$> t2 ->
  x <$> ticker_series k t1 = x <$> ticker_series k t2.
Proof.
  revert t2. induction t1 as [|r1 t1 IH]; intros [|r2 t2] H; simplify_eq/=; [done|].
  unfold ticker_series in *. rewrite !filter_cons.
  repeat case_decide; try congruence; simpl; [f_equal|]; auto.
Qed.

Lemma assign_price_cols t col :
  length col = length t ->
  (fun r => (key r, monthly_past_return r, monthly_future_return r))
    <$> assign_price t col
  = (fun r => (key r, monthly_past_return r, monthly_future_return r)) <$> t.
Proof.
  revert col. induction t as [|r t IH]; intros [|v col] ?; simplify_eq/=; [done|].
  f_equal. by apply IH.
Qed.

Lemma assign_past_cols t col :
  length col = length t ->
  (fun r => (key r, price r, monthly_future_return r)) <$> assign_past t col
  = (fun r => (key r, price r, monthly_future_return r)) <$> t.
Proof.
  revert col. induction t as [|r t IH]; intros [|v col] ?; simplify_eq/=; [done|].
  f_equal. by apply IH.
Qed.

Lemma fmap_eq_project {A B C} (f : A -> B) (h : B -> C) (l1 l2 : list A) :
  f <$> l1 = f <$> l2 -> (h ∘ f) <$> l1 = (h ∘ f) <$> l2.
Proof. intros H. by rewrite !(list_fmap_compose f h), H. Qed.

(** The fill leaves labels and forward returns as they were. *)
Lemma fill_missing_cols t :
  (fun r => (key r, monthly_future_return r)) <$> fill_missing t
  = (fun r => (key r, monthly_future_return r)) <$> t.
Proof.
  unfold fill_missing.
  set (t1 := assign_price t _).
  pose proof (assign_past_cols t1 (groupby_ffill t1 monthly_past_return)
                (groupby_ffill_length _ _)) as H2.
  pose proof (assign_price_cols t (groupby_ffill t price)
                (groupby_ffill_length _ _)) as H1.
  fold t1 in H1.
  apply (fmap_eq_project _ (fun x => (x.1.1, x.2))) in H1, H2.
  exact (eq_trans H2 H1).
Qed.

Lemma fill_missing_price_series t k :
  price <$> ticker_series k (fill_missing t)
  = ffill_series None (price <$> ticker_series k t).
Proof.
  unfold fill_missing. set (t1 := assign_price t _).
  trans (price <$> ticker_series k t1).
  - apply ticker_series_ext.
    pose proof (assign_past_cols t1 (groupby_ffill t1 monthly_past_return)
                  (groupby_ffill_length _ _)) as H2.
    exact (fmap_eq_project _ (fun x => (x.1.1.2, x.1.2)) _ _ H2).
  - unfold t1, assign_price, groupby_ffill.
    by rewrite (ticker_series_ffill _ price price ∅ t k), lookup_empty.
Qed.

Lemma fill_missing_past_series t k :
  monthly_past_return <$> ticker_series k (fill_missing t)
  = ffill_series None (monthly_past_return <$> ticker_series k t).
Proof.
  unfold fill_missing. set (t1 := assign_price t _).
  unfold assign_past, groupby_ffill.
  rewrite (ticker_series_ffill _ monthly_past_return monthly_past_return ∅ t1 k),
    lookup_empty by done.
  f_equal. apply ticker_series_ext.
  pose proof (assign_price_cols t (groupby_ffill t price)
                (groupby_ffill_length _ _)) as H1.
  exact (fmap_eq_project _ (fun x => (x.1.1.2, x.1.2)) _ _ H1).
Qed.

Lemma complete_spec r :
  complete r = true <->
  is_Some (price r) /\ is_Some (monthly_past_return r) /\
  is_Some (monthly_future_return r).
Proof.
  unfold complete. rewrite !andb_true_iff, !bool_decide_eq_true. tauto.
Qed.

Lemma dropna_dropna_future t :
  dropna (dropna_future t) = filter (fun r => complete r = true) t.
Proof.
  unfold dropna, dropna_future. rewrite list_filter_filter.
  apply list_filter_iff. intros r. rewrite complete_spec. tauto.
Qed.

Lemma preprocess_prices_all_present prices_monthly r :
  r ∈ preprocess_prices prices_monthly ->
  is_Some (price r) /\ is_Some (monthly_past_return r) /\
  is_Some (monthly_future_return r).
Proof.
  unfold preprocess_prices. rewrite dropna_dropna_future, list_elem_of_filter.
  rewrite complete_spec. by intros [? _].
Qed.

(** C5. After the outlier loop, prices and trailing returns are forward
    filled ticker by ticker, labels and forward returns are left as they
    were, and the table returned is the filled table without every row that
    misses a cell: a row without forward return is never kept, and every
    row kept has a price, a trailing return and a forward return. *)
Theorem missing_values_filled_or_dropped (prices_monthly : list PriceRow) :
  let s := suppress_outliers (compute_returns prices_monthly) in
  let f := fill_missing s in
  (forall k,
     price <$> ticker_series k f
       = ffill_series None (price <$> ticker_series k s) /\
     monthly_past_return <$> ticker_series k f
       = ffill_series None (monthly_past_return <$> ticker_series k s)) /\
  key <$> f = key <$> s /\
  monthly_future_return <$> f = monthly_future_return <$> s /\
  preprocess_prices prices_monthly = filter (fun r => complete r = true) f /\
  (forall r, r ∈ f -> monthly_future_return r = None ->
     r ∉ preprocess_prices prices_monthly) /\
  (forall r, r ∈ preprocess_prices prices_monthly ->
     exists p q v, price r = Some p /\ monthly_past_return r = Some q /\
       monthly_future_return r = Some v).
Proof.
  intros s f.
  assert (preprocess_prices prices_monthly = filter (fun r => complete r = true) f)
    as Hout by apply dropna_dropna_future.
  split_and!.
  - intros k. split;
      [apply fill_missing_price_series | apply fill_missing_past_series].
  - exact (fmap_eq_project _ fst _ _ (fill_missing_cols s)).
  - exact (fmap_eq_project _ snd _ _ (fill_missing_cols s)).
  - exact Hout.
  - intros r _ Hnone. rewrite Hout, list_elem_of_filter, complete_spec.
    intros [(_ & _ & Hf) _]. rewrite Hnone in Hf. by destruct Hf.
  - intros r. rewrite Hout, list_elem_of_filter, complete_spec.
    intros [([p ?] & [q ?] & [v ?]) _]. eauto 7.
Qed.

Lemma missing_values_filled_or_dropped_witness :
  exists p q v,
    price (mkRow 14668 "A" (Some 11%Q) (Some (1 # 10)%Q) (Some (-2 # 11)%Q)) = Some p /\
    monthly_past_return (mkRow 14668 "A" (Some 11%Q) (Some (1 # 10)%Q) (Some (-2 # 11)%Q)) = Some q /\
    monthly_future_return (mkRow 14668 "A" (Some 11%Q) (Some (1 # 10)%Q) (Some (-2 # 11)%Q)) = Some v.
Proof.
  apply (missing_values_filled_or_dropped scenario_A).
  vm_compute. constructor.
Defined.

(** Where a row of the filled table comes from. *)
Lemma fill_missing_lookup t i r' :
  fill_missing t !! i = Some r' ->
  exists r, t !! i = Some r /\ key r' = key r /\
    monthly_future_return r' = monthly_future_return r /\
    (monthly_past_return r' = monthly_past_return r \/
     monthly_past_return r' = None \/
     exists j rj q, (j < i)%nat /\ t !! j = Some rj /\ ticker rj = ticker r /\
       monthly_past_return rj = Some q /\ monthly_past_return r' = Some q).
Proof.
  unfold fill_missing. set (t1 := assign_price t _).
  unfold assign_past, groupby_ffill.
  assert ((fun r => (ticker r, monthly_past_return r)) <$> t1
          = (fun r => (ticker r, monthly_past_return r)) <$> t) as ->.
  { pose proof (assign_price_cols t (groupby_ffill t price)
                  (groupby_ffill_length _ _)) as H1.
    exact (fmap_eq_project _ (fun x => (x.1.1.2, x.1.2)) _ _ H1). }
  intros (r1 & v & -> & Hr1 & Hv)%lookup_zip_with_Some.
  unfold t1, assign_price in Hr1.
  apply lookup_zip_with_Some in Hr1 as (r & p & -> & Hr & _).
  exists r. split_and!; try done. simpl.
  eapply ffill_from_lookup in Hv; [|by rewrite list_lookup_fmap, Hr].
  rewrite lookup_empty in Hv.
  destruct Hv as [?|[?|(j & q & Hj & Hcol & ->)]]; auto.
  right; right. rewrite list_lookup_fmap in Hcol.
  destruct (t !! j) as [rj|] eqn:Hrj; simplify_eq/=.
  exists j, rj, q. done.
Qed.

Lemma compute_returns_keys_sorted prices_monthly i j ri rj :
  let s := suppress_outliers (compute_returns prices_monthly) in
  s !! i = Some ri -> s !! j = Some rj -> (i < j)%nat -> (date ri <= date rj)%Z.
Proof.
  intros s Hi Hj Hij.
  assert (key <$> s = pr_key <$> sort_index (filter_prices prices_monthly)) as Hk.
  { unfold s. rewrite suppress_outliers_keys. unfold compute_returns, with_returns.
    apply assign_returns_keys; unfold groupby_pct_change;
      by rewrite ?shift_m1_length, pct_change_from_length. }
  assert (forall n r, s !! n = Some r ->
            exists a, sort_index (filter_prices prices_monthly) !! n = Some a
                      /\ pr_key a = key r) as Hrow.
  { intros n r Hn.
    assert ((key <$> s) !! n = Some (key r)) as Hkn
      by (by rewrite list_lookup_fmap, Hn).
    rewrite Hk, list_lookup_fmap in Hkn.
    destruct (sort_index _ !! n) as [a|]; simplify_eq/=. eauto. }
  destruct (Hrow _ _ Hi) as (a & Ha & Hka), (Hrow _ _ Hj) as (b & Hb & Hkb).
  change (date ri) with ((key ri).1). change (date rj) with ((key rj).1).
  rewrite <- Hka, <- Hkb. apply key_leb_date.
  exact (StronglySorted_lookup_lt row_precedes _ _ _ _ _
           (sort_index_sorted _) Ha Hb Hij).
Qed.

(** C3, as the code has it. Right after the outlier loop every record
    outside the crisis window has both returns in [-0.5, 1] or missing. In
    the table handed to the signal builder this still holds of the forward
    return; the trailing return is within bounds unless the forward fill
    carried it over from an earlier crisis-window record of the same
    ticker. *)
Theorem bounds_outside_crisis (prices_monthly : list PriceRow) :
  let s := suppress_outliers (compute_returns prices_monthly) in
  (forall r, r ∈ s -> crisis_mask (date r) = false ->
     within_bounds (monthly_past_return r) /\
     within_bounds (monthly_future_return r)) /\
  (forall r, r ∈ preprocess_prices prices_monthly ->
     crisis_mask (date r) = false ->
     within_bounds (monthly_future_return r) /\
     (within_bounds (monthly_past_return r) \/
      exists rc, rc ∈ s /\ crisis_mask (date rc) = true /\
        ticker rc = ticker r /\ (date rc < date r)%Z /\
        monthly_past_return rc = monthly_past_return r)).
Proof.
  intros s. split.
  - intros r Hr. exact (suppress_outliers_suppressed _ _ Hr).
  - intros r' Hr' Hc.
    unfold preprocess_prices in Hr'. rewrite dropna_dropna_future in Hr'.
    apply list_elem_of_filter in Hr' as [_ Hr'].
    apply list_elem_of_lookup in Hr' as [i Hi].
    apply fill_missing_lookup in Hi as (r & Hr & Hk & Hf & Hp).
    fold s in Hr.
    assert (date r' = date r) as Hd by exact (f_equal fst Hk).
    assert (ticker r' = ticker r) as Ht by exact (f_equal snd Hk).
    assert (suppressed r) as Hs
      by (eapply suppress_outliers_suppressed, list_elem_of_lookup_2, Hr).
    destruct Hs as [Hbp Hbf]; [congruence|].
    split; [by rewrite Hf|].
    destruct Hp as [->|[->|(j & rj & q & Hj & Hrj & Htj & Hpj & Hp')]];
      [by left|by left|].
    destruct (crisis_mask (date rj)) eqn:Hcj.
    + right. exists rj. split_and!; [by eapply list_elem_of_lookup_2|done|congruence| |congruence].
      pose proof (compute_returns_keys_sorted _ _ _ _ _ Hrj Hr Hj) as Hle.
      destruct (decide (date rj = date r')) as [He|Hne]; [|lia].
      rewrite He in Hcj. congruence.
    + left. rewrite Hp', <- Hpj.
      apply (suppress_outliers_suppressed (compute_returns prices_monthly) rj);
        [|done].
      by eapply list_elem_of_lookup_2.
Qed.

(** C3, as stated, fails on the table handed to the signal builder: the
    January 2010 record of [scenario_crisis_exit] has its trailing return of
    200% suppressed and then forward filled with the 200% of December 2009. *)
Lemma bounds_fail_after_forward_fill :
  ~ (forall r, r ∈ preprocess_prices scenario_crisis_exit ->
       crisis_mask (date r) = false ->
       within_bounds (monthly_past_return r) /\
       within_bounds (monthly_future_return r)).
Proof.
  intros H.
  destruct (H (mkRow (days_from_civil 2010 1 31) "A" (Some 90%Q)
                 (Some (20 # 10)%Q) (Some (9 # 90)%Q))) as [[_ Hhi] _].
  - vm_compute. do 2 constructor.
  - reflexivity.
  - vm_compute in Hhi. by apply Hhi.
Qed.

Lemma bounds_outside_crisis_witness :
  let r := mkRow (days_from_civil 2010 1 31) "A" (Some 90%Q)
             (Some (20 # 10)%Q) (Some (9 # 90)%Q) in
  within_bounds (monthly_future_return r) /\
  (within_bounds (monthly_past_return r) \/
   exists rc, rc ∈ suppress_outliers (compute_returns scenario_crisis_exit) /\
     crisis_mask (date rc) = true /\ ticker rc = ticker r /\
     (date rc < date r)%Z /\ monthly_past_return rc = monthly_past_return r).
Proof.
  apply (bounds_outside_crisis scenario_crisis_exit).
  - vm_compute. do 2 constructor.
  - reflexivity.
Defined.

Lemma crisis_rows_untouched_witness :
  suppress_outliers (compute_returns scenario_crisis_exit) !! 1%nat
  = Some (mkRow (days_from_civil 2009 12 31) "A" (Some 30%Q)
            (Some (20 # 10)%Q) (Some (60 # 30)%Q)).
Proof.
  apply crisis_rows_untouched.
  - vm_compute. reflexivity.
  - reflexivity.
Defined.

Lemma trailing_return_is_pct_change_witness :
  let r0 := mkRow (days_from_civil 2010 1 31) "A" (Some 10%Q) None
              (Some (1 # 10)%Q) in
  let r1 := mkRow (days_from_civil 2010 2 28) "A" (Some 11%Q)
              (Some (1 # 10)%Q) (Some (-2 # 11)%Q) in
  (date r0 <= date r1)%Z /\
  exists p0 p1, price r0 = Some p0 /\ price r1 = Some p1 /\
    (1 # 10 <= p0)%Q /\ monthly_past_return r1 = Some (p1 / p0 - 1)%Q.
Proof.
  apply (proj2 (trailing_return_is_pct_change scenario_A "A") 0%nat).
  - vm_compute. reflexivity.
  - vm_compute. reflexivity.
Defined.

(** One row per label in, one row per label out. *)
Lemma preprocess_prices_NoDup prices_monthly :
  NoDup (pr_key <$> prices_monthly) ->
  NoDup (key <$> preprocess_prices prices_monthly).
Proof.
  intros Hnd. unfold preprocess_prices. rewrite dropna_dropna_future.
  eapply sublist_NoDup; [|apply fmap_sublist, sublist_filter].
  rewrite (fmap_eq_project _ fst _ _ (fill_missing_cols _)).
  change (fst ∘ _) with key.
  rewrite suppress_outliers_keys. unfold compute_returns, with_returns.
  rewrite assign_returns_keys
    by (unfold groupby_pct_change;
        by rewrite ?shift_m1_length, pct_change_from_length).
  rewrite sort_index_Permutation.
  eapply sublist_NoDup; [exact Hnd|apply fmap_sublist, sublist_filter].
Qed.

Lemma preprocess_prices_complete prices_monthly r :
  r ∈ preprocess_prices prices_monthly -> is_Some (monthly_past_return r).
Proof.
  intros Hr.
  destruct (preprocess_prices_all_present prices_monthly r Hr)
    as (_ & ? & _). done.
Qed.

(** ** Signal construction (create_signal.py) *)

Lemma list_filter_fmap_comm {A B} (f : A -> B) (P : B -> Prop)
    `{forall y, Decision (P y)} (l : list A) :
  filter P (f <$> l) = f <$> filter (fun x => P (f x)) l.
Proof.
  induction l as [|x l IH]; [done|]. csimpl. rewrite !filter_cons.
  case_decide; csimpl; by rewrite IH.
Qed.

Lemma filter_all {A} (P : A -> Prop) `{forall x, Decision (P x)} (l : list A) :
  (forall x, x ∈ l -> P x) -> filter P l = l.
Proof.
  induction l as [|x l IH]; intros Hl; [done|].
  rewrite filter_cons_True by (apply Hl; left).
  f_equal. apply IH. intros y Hy. apply Hl. by right.
Qed.

Lemma filter_none {A} (P : A -> Prop) `{forall x, Decision (P x)} (l : list A) :
  (forall x, x ∈ l -> ~ P x) -> filter P l = [].
Proof.
  induction l as [|x l IH]; intros Hl; [done|].
  rewrite filter_cons_False by (apply Hl; left).
  apply IH. intros y Hy. apply Hl. by right.
Qed.

(** Reading one group back from the concatenation of all groups. *)
Lemma filter_bind_groups {B} (date_of : B -> Timestamp)
    (F : Timestamp -> list B) (ks : list Timestamp) (d : Timestamp) :
  NoDup ks -> (forall d' r, r ∈ F d' -> date_of r = d') ->
  filter (fun r => date_of r = d) (ks ≫= F) = if decide (d ∈ ks) then F d else [].
Proof.
  intros Hnd HF. induction Hnd as [|k ks Hk Hnd IH]; [done|].
  rewrite bind_cons, filter_app, IH.
  destruct (decide (k = d)) as [->|Hne].
  - rewrite (decide_False (P := d ∈ ks)) by done.
    rewrite (decide_True (P := d ∈ d :: ks)) by left.
    rewrite app_nil_r. apply filter_all. intros r. apply HF.
  - rewrite filter_none; [|intros r Hr%HF; congruence]. simpl.
    destruct (decide (d ∈ ks)) as [Hin|Hin].
    + rewrite decide_True; [done|by right].
    + rewrite decide_False; [done|].
      intros [?|?]%elem_of_cons; [congruence|done].
Qed.

Lemma rolling_from_length seen t : length (rolling_from seen t) = length t.
Proof. revert seen. induction t; intros; simpl; [done|]. by f_equal. Qed.

Lemma with_average_rows t : (with_average t).*1 = t.
Proof. apply fst_zip. by rewrite rolling_from_length. Qed.

Lemma window_mean_current q w :
  is_Some (window_mean (take 12 (Some q :: w))).
Proof. unfold window_mean. simpl. eauto. Qed.

Lemma rolling_from_Some seen t i r a :
  t !! i = Some r -> rolling_from seen t !! i = Some a ->
  is_Some (monthly_past_return r) -> is_Some a.
Proof.
  revert seen i. induction t as [|r0 t IH]; intros seen i Hi Ha Hr; [done|].
  destruct i as [|i]; simpl in *.
  - simplify_eq. destruct Hr as [q ->]. apply window_mean_current.
  - eauto.
Qed.

(** A row with a trailing return has a rolling average. *)
Lemma with_average_Some t g :
  g ∈ with_average t -> is_Some (monthly_past_return g.1) -> is_Some g.2.
Proof.
  intros [i Hi]%list_elem_of_lookup. unfold with_average in Hi.
  apply lookup_zip_with_Some in Hi as (r & a & -> & Hr & Ha). simpl.
  eauto using rolling_from_Some.
Qed.

(** The grouped rolling mean, read ticker by ticker: [hist] is the column
    of every ticker before the rows of [t]. *)
Lemma rolling_from_spec (hist : string -> list (option Q)) seen t j r :
  (forall k, default [] (seen !! k) = take 12 (reverse (hist k))) ->
  t !! j = Some r ->
  exists i, ticker_series (ticker r) t !! i = Some r /\
    rolling_from seen t !! j
    = Some (window_mean
              (take 12 (reverse (hist (ticker r)
                 ++ take (S i) (monthly_past_return <$> ticker_series (ticker r) t))))).
Proof.
  revert hist seen j. induction t as [|r0 t IH]; intros hist seen j Hinv Hj; [done|].
  destruct j as [|j]; simplify_eq/=.
  - exists 0%nat. unfold ticker_series. rewrite filter_cons_True by done.
    split; [done|]. simpl. rewrite Hinv, reverse_app. simpl.
    by rewrite take_take.
  - set (hist' := fun k => if decide (k = ticker r0)
                           then hist k ++ [monthly_past_return r0] else hist k).
    destruct (IH hist' (<[ticker r0 :=
                 take 12 (monthly_past_return r0 :: default [] (seen !! ticker r0))]> seen)
                j) as (i & Hi & Hroll); [|done|].
    { intros k. unfold hist'. case_decide as Hk.
      - subst k. rewrite lookup_insert_eq. simpl.
        rewrite Hinv, reverse_app. simpl. by rewrite take_take.
      - rewrite lookup_insert_ne by done. apply Hinv. }
    simpl in Hroll. rewrite Hroll. unfold hist', ticker_series in *.
    destruct (decide (ticker r0 = ticker r)) as [Hk|Hk].
    + exists (S i). rewrite filter_cons_True by done.
      split; [exact Hi|]. rewrite decide_True by done.
      simpl. by rewrite <- app_assoc.
    + exists i. rewrite filter_cons_False by done.
      split; [exact Hi|]. by rewrite decide_False by done.
Qed.

(** The rolling average of a row is the mean of the window that ends at
    that row in the series of its ticker. *)
Lemma with_average_window t r a :
  (r, a) ∈ with_average t ->
  exists i, ticker_series (ticker r) t !! i = Some r /\
    a = window_mean
          (trailing_window (monthly_past_return <$> ticker_series (ticker r) t) i).
Proof.
  intros [j Hj]%list_elem_of_lookup. unfold with_average in Hj.
  apply lookup_zip_with_Some in Hj as (r' & a' & ? & Hr & Ha); simplify_eq.
  destruct (rolling_from_spec (fun _ => []) ∅ t j r') as (i & Hi & Hroll);
    [by intros; rewrite lookup_empty|done|].
  exists i. split; [done|]. rewrite Hroll in Ha. by simplify_eq/=.
Qed.

Lemma get_top_20_signal_rows g :
  (fun r => (row r, average_return_1y r)) <$> get_top_20_signal g = g.
Proof.
  unfold get_top_20_signal. destruct (_ <? _)%nat;
    rewrite <- list_fmap_compose; rewrite <- (list_fmap_id g) at 2;
    apply list_fmap_ext; by intros ? [??] _.
Qed.

Lemma get_top_20_signal_date g d r :
  (forall x, x ∈ g -> date x.1 = d) -> r ∈ get_top_20_signal g -> date (row r) = d.
Proof.
  intros Hg Hr.
  apply (list_elem_of_fmap_2 (fun r => (row r, average_return_1y r))) in Hr.
  rewrite get_top_20_signal_rows in Hr. exact (Hg _ Hr).
Qed.

(** The rows of month [d] in the signalled table are the result of the one
    call of [get_top_20_signal] on the cross-section of that month. *)
Lemma month_create_signal prices_df d :
  month d (create_signal prices_df)
  = get_top_20_signal (filter (fun g => date g.1 = d) (with_average prices_df)).
Proof.
  unfold month, create_signal, groupby_date_apply.
  rewrite (filter_bind_groups (fun r => date (row r))).
  - case_decide as Hd; [done|].
    rewrite elem_of_group_keys in Hd.
    rewrite (filter_none (fun g => date g.1 = d)); [done|].
    intros g Hg Hgd. apply Hd. rewrite <- Hgd.
    by apply (list_elem_of_fmap_2 (fun g => date g.1)).
  - apply NoDup_group_keys.
  - intros d' r. apply get_top_20_signal_date.
    by intros x [? _]%list_elem_of_filter.
Qed.

Lemma cross_section_rows prices_df d :
  (filter (fun g => date g.1 = d) (with_average prices_df)).*1
  = filter (fun r => date r = d) prices_df.
Proof.
  rewrite <- (with_average_rows prices_df) at 2.
  by rewrite (list_filter_fmap_comm fst (fun r => date r = d)).
Qed.

(** Labels picked out of a table without duplicate labels select as many
    rows as there are labels. *)
Lemma selected_count {A K} `{EqDecision K} (kf : A -> K) (g : list A)
    (idx : list K) :
  NoDup (kf <$> g) -> NoDup idx -> idx ⊆ kf <$> g ->
  length (filter (fun x => kf x ∈ idx) g) = length idx.
Proof.
  intros Hg Hidx Hsub.
  rewrite <- (length_fmap kf). apply Permutation_length, NoDup_Permutation.
  - eapply sublist_NoDup; [exact Hg|]. apply fmap_sublist, sublist_filter.
  - done.
  - intros k. rewrite list_elem_of_fmap. split.
    + intros (x & -> & [Hx _]%list_elem_of_filter). done.
    + intros Hk. destruct (proj1 (list_elem_of_fmap _ _ _) (Hsub _ Hk))
        as (x & -> & Hx).
      exists x. by rewrite list_elem_of_filter.
Qed.

Lemma elem_of_series_dropna s k a :
  (k, a) ∈ series_dropna s <-> (k, Some a) ∈ s.
Proof.
  unfold series_dropna. rewrite list_elem_of_omap. split.
  - intros ([k' [a'|]] & Hin & Heq); simplify_eq/=. done.
  - intros Hin. exists (k, Some a). done.
Qed.

Lemma series_dropna_full s :
  Forall (fun kv => is_Some kv.2) s -> (series_dropna s).*1 = s.*1.
Proof.
  induction 1 as [|[k v] s [a Ha] Hs IH]; [done|].
  simpl in Ha. subst v. unfold series_dropna in *. csimpl. by rewrite IH.
Qed.

Lemma nlargest_sorted s :
  StronglySorted (fun a b => (b.2 <= a.2)%Q)
    (stable_sort by_value_desc (series_dropna s)).
Proof.
  eapply StronglySorted_weaken; [|apply stable_sort_sorted].
  - intros x y. unfold may_precede, by_value_desc, Qltb.
    rewrite negb_false_iff. apply Qle_bool_iff.
  - intros x y. unfold by_value_desc, Qltb.
    rewrite negb_true_iff, negb_false_iff, Qle_bool_iff.
    intros Hxy. apply Qlt_le_weak, Qnot_le_lt. intros Hle.
    apply Qle_bool_iff in Hle. congruence.
  - intros x y z. unfold may_precede, by_value_desc, Qltb.
    rewrite !negb_false_iff, !Qle_bool_iff. intros. by eapply Qle_trans.
Qed.

Lemma NoDup_fst_unique {K V} (l : list (K * V)) k v1 v2 :
  NoDup l.*1 -> (k, v1) ∈ l -> (k, v2) ∈ l -> v1 = v2.
Proof.
  induction l as [|[k0 v0] l IH]; csimpl; intros Hnd H1 H2.
  - by apply elem_of_nil in H1.
  - apply NoDup_cons in Hnd as [Hk0 Hnd].
    apply elem_of_cons in H1 as [?|H1], H2 as [?|H2]; simplify_eq; auto.
    + destruct Hk0. by apply (list_elem_of_fmap_2 fst) in H2.
    + destruct Hk0. by apply (list_elem_of_fmap_2 fst) in H1.
Qed.

Lemma get_top_20_signal_small g :
  (length g < 20)%nat ->
  filter (fun r => signal r = true) (get_top_20_signal g) = get_top_20_signal g.
Proof.
  intros Hlt. unfold get_top_20_signal.
  destruct (Nat.ltb_spec (length g) 20) as [_|?]; [|lia].
  apply filter_all. by intros r (x & -> & _)%list_elem_of_fmap.
Qed.

Lemma get_top_20_signal_length g : length (get_top_20_signal g) = length g.
Proof.
  rewrite <- (get_top_20_signal_rows g) at 2. by rewrite length_fmap.
Qed.

Section TopTwenty.
Variable g : list (Row * option Q).
Hypothesis g_large : (20 <= length g)%nat.
Hypothesis g_labels : NoDup ((fun x => key x.1) <$> g).
Hypothesis g_values : Forall (fun x => is_Some x.2) g.

Lemma nlargest_labels : (nlargest 20 (group_series g)).*1 = top_20_idx g.
Proof.
  unfold nlargest, series_nan.
  rewrite (filter_none (fun kv => kv.2 = None)), app_nil_r.
  - unfold top_20_idx, ranked. rewrite !fmap_take, <- list_fmap_compose.
    f_equal.
  - intros kv (x & -> & Hx)%list_elem_of_fmap. simpl.
    pose proof (proj1 (Forall_forall _ _) g_values _ Hx) as [a ->]. done.
Qed.

Lemma top_20_result :
  get_top_20_signal g
  = (fun x => mkSignalRow x.1 x.2 (bool_decide (key x.1 ∈ top_20_idx g))) <$> g.
Proof.
  unfold get_top_20_signal.
  destruct (Nat.ltb_spec (length g) 20) as [?|_]; [lia|].
  fold (group_series g). by rewrite nlargest_labels.
Qed.

Lemma series_dropna_labels :
  (series_dropna (group_series g)).*1 = (fun x => key x.1) <$> g.
Proof.
  rewrite series_dropna_full.
  - unfold group_series. by rewrite <- list_fmap_compose.
  - unfold group_series. apply Forall_fmap. exact g_values.
Qed.

Lemma ranked_Permutation : (ranked g) ≡ₚ series_dropna (group_series g).
Proof. apply stable_sort_Permutation. Qed.

Lemma ranked_labels_NoDup : NoDup (ranked g).*1.
Proof. by rewrite ranked_Permutation, series_dropna_labels. Qed.

Lemma top_20_idx_NoDup : NoDup (top_20_idx g).
Proof.
  eapply sublist_NoDup; [exact ranked_labels_NoDup|].
  apply fmap_sublist, sublist_take.
Qed.

Lemma top_20_idx_subseteq : (top_20_idx g) ⊆ (fun x => key x.1) <$> g.
Proof.
  intros k Hk. rewrite <- series_dropna_labels, <- ranked_Permutation.
  unfold top_20_idx in Hk. rewrite fmap_take in Hk.
  by eapply subseteq_take.
Qed.

Lemma top_20_idx_length : length (top_20_idx g) = 20%nat.
Proof.
  unfold top_20_idx. rewrite length_fmap, length_take_le; [done|].
  rewrite ranked_Permutation, <- (length_fmap fst), series_dropna_labels.
  by rewrite length_fmap.
Qed.

Lemma top_20_count :
  length (filter (fun r => signal r = true) (get_top_20_signal g)) = 20%nat.
Proof.
  rewrite top_20_result, list_filter_fmap_comm, length_fmap. simpl.
  rewrite <- top_20_idx_length.
  rewrite <- (selected_count (fun x => key x.1) g (top_20_idx g)
                g_labels top_20_idx_NoDup top_20_idx_subseteq).
  f_equal. apply list_filter_iff. intros x. apply bool_decide_eq_true.
Qed.

Lemma top_20_dominates r1 r2 :
  r1 ∈ get_top_20_signal g -> r2 ∈ get_top_20_signal g ->
  signal r1 = true -> signal r2 = false ->
  exists a1 a2, average_return_1y r1 = Some a1 /\
    average_return_1y r2 = Some a2 /\ (a2 <= a1)%Q.
Proof.
  rewrite top_20_result.
  intros (x1 & -> & Hx1)%list_elem_of_fmap (x2 & -> & Hx2)%list_elem_of_fmap.
  simpl. intros Hs1%bool_decide_eq_true Hs2%bool_decide_eq_false.
  pose proof (proj1 (Forall_forall _ _) g_values) as Hv.
  destruct (Hv _ Hx1) as [a1 Ha1], (Hv _ Hx2) as [a2 Ha2].
  exists a1, a2. split_and!; [done..|].
  assert (forall x a, x ∈ g -> x.2 = Some a ->
            (key x.1, a) ∈ series_dropna (group_series g)) as Hin.
  { intros x a Hx Ha. apply elem_of_series_dropna. unfold group_series.
    apply list_elem_of_fmap. exists x. by rewrite Ha. }
  pose proof (nlargest_sorted (group_series g)) as Hsorted. fold (ranked g) in Hsorted.
  rewrite <- (take_drop 20 (ranked g)) in Hsorted.
  apply (StronglySorted_app_1_elem_of _ _ _ (key x1.1, a1) (key x2.1, a2))
    in Hsorted; [done| |].
  - apply list_elem_of_fmap in Hs1 as ([k a] & Hk & Hka). simpl in Hk. subst k.
    assert (a = a1) as ->; [|done].
    eapply (NoDup_fst_unique (series_dropna (group_series g))).
    + rewrite series_dropna_labels. exact g_labels.
    + rewrite <- ranked_Permutation. by eapply subseteq_take.
    + by apply Hin.
  - pose proof (Hin _ _ Hx2 Ha2) as Hr.
    rewrite <- ranked_Permutation, <- (take_drop 20 (ranked g)) in Hr.
    apply elem_of_app in Hr as [Hr|Hr]; [|done].
    destruct Hs2. by apply (list_elem_of_fmap_2 fst) in Hr.
Qed.

Lemma series_dropna_app s1 s2 :
  series_dropna (s1 ++ s2) = series_dropna s1 ++ series_dropna s2.
Proof. apply omap_app. Qed.

(** Frame order decides between equal values: a row that stands before a
    selected row, with an average at least as large, is selected. *)
Lemma top_20_stable x1 x2 a1 a2 :
  before x1 x2 g -> x1.2 = Some a1 -> x2.2 = Some a2 -> (a2 <= a1)%Q ->
  key x2.1 ∈ top_20_idx g -> key x1.1 ∈ top_20_idx g.
Proof.
  intros (g1 & g2 & g3 & Hg) Ha1 Ha2 Hle Hsel.
  set (e1 := (key x1.1, a1)). set (e2 := (key x2.1, a2)).
  assert (before e1 e2 (ranked g)) as (r1 & r2 & r3 & Hr).
  { apply stable_sort_stable.
    - exists (series_dropna (group_series g1)), (series_dropna (group_series g2)),
        (series_dropna (group_series g3)).
      unfold group_series. rewrite Hg, fmap_app, series_dropna_app. csimpl.
      rewrite fmap_app, series_dropna_app. csimpl.
      unfold series_dropna at 1 3. csimpl. by rewrite Ha1, Ha2.
    - unfold by_value_desc, Qltb. simpl.
      by apply negb_false_iff, Qle_bool_iff. }
  assert (NoDup (ranked g)) as Hnd
    by (eapply NoDup_fmap_1, ranked_labels_NoDup).
  assert (e2 ∈ take 20 (ranked g)) as (p & Hp & Hlt)%elem_of_take.
  { apply list_elem_of_fmap in Hsel as ([k a] & Hk & Hka). simpl in Hk. subst k.
    assert (a = a2) as ->; [|done].
    eapply (NoDup_fst_unique (ranked g)); [apply ranked_labels_NoDup| |].
    - by eapply subseteq_take.
    - rewrite Hr. set_solver. }
  assert (ranked g !! (length r1 + S (length r2))%nat = Some e2) as Hp'.
  { rewrite Hr. rewrite lookup_app_r by lia.
    replace (length r1 + S (length r2) - length r1)%nat with (S (length r2)) by lia.
    simpl. rewrite lookup_app_r by lia. by rewrite Nat.sub_diag. }
  assert (p = (length r1 + S (length r2))%nat)
    by (eapply NoDup_lookup; eauto).
  apply (list_elem_of_fmap_2 fst (take 20 (ranked g)) e1).
  apply elem_of_take. exists (length r1). split; [|lia].
  rewrite Hr. by rewrite list_lookup_middle.
Qed.

Lemma before_fmap_inv {A B} (f : A -> B) (l : list A) b1 b2 :
  before b1 b2 (f <$> l) ->
  exists a1 a2, b1 = f a1 /\ b2 = f a2 /\ before a1 a2 l.
Proof.
  intros (l1 & l2 & l3 & Heq).
  apply fmap_app_inv in Heq as (k1 & m1 & -> & Heq & ->). symmetry in Heq.
  apply fmap_cons_inv in Heq as (a1 & m2 & -> & Heq & ->). symmetry in Heq.
  apply fmap_app_inv in Heq as (k2 & m3 & -> & Heq & ->). symmetry in Heq.
  apply fmap_cons_inv in Heq as (a2 & k3 & -> & -> & ->).
  exists a1, a2. split_and!; [done..|]. by exists k1, k2, k3.
Qed.

Lemma top_20_first_kept r1 r2 a1 a2 :
  before r1 r2 (get_top_20_signal g) ->
  average_return_1y r1 = Some a1 -> average_return_1y r2 = Some a2 ->
  (a2 <= a1)%Q -> signal r2 = true -> signal r1 = true.
Proof.
  rewrite top_20_result.
  intros (x1 & x2 & -> & -> & Hb)%before_fmap_inv. simpl.
  intros Ha1 Ha2 Hle Hs2%bool_decide_eq_true. apply bool_decide_eq_true.
  eauto using top_20_stable.
Qed.

End TopTwenty.

(** A window without NaN cell and with at least one cell: its mean is the
    sum of the cells over their number. *)
Lemma window_mean_explicit (l : list (option Q)) :
  l <> [] -> Forall is_Some l ->
  exists w : list Q, Some <$> w = l /\
    window_mean l
    = Some (foldl Qplus 0 w / inject_Z (Z.of_nat (length w)))%Q.
Proof.
  intros Hne Hl. exists (omap id l).
  assert (Some <$> omap id l = l) as Heq.
  { clear Hne. induction Hl as [|x l [q ->] _ IH]; [done|].
    csimpl. by rewrite IH. }
  split; [done|]. unfold window_mean, Qsum.
  assert (length (omap id l) = length l) as Hlen
    by (by rewrite <- Heq at 2; rewrite length_fmap).
  assert (0 < length l)%nat by (destruct l; [done|simpl; lia]).
  destruct (Nat.leb_spec 1 (length (omap id l))) as [_|?]; [done|lia].
Qed.

Lemma trailing_window_length (l : list (option Q)) i :
  (i < length l)%nat -> length (trailing_window l i) = Nat.min (S i) 12.
Proof.
  intros Hi. unfold trailing_window.
  rewrite length_take, length_reverse, length_take. lia.
Qed.

(** C2. In every month of the signalled table the rows are the
    cross-section of that month, each with the mean of the last 12 trailing
    returns of its ticker (fewer at the start of the series): their sum
    over their number. With fewer than 20 tickers all of them are selected;
    otherwise exactly 20 are, the rolling average of a selected ticker is at
    least the rolling average of any ticker that is not selected, and
    between equal averages the row that comes first in the frame is
    selected first. *)
Theorem top_20_selected (prices_df : list Row) (d : Timestamp) :
  NoDup (key <$> prices_df) ->
  Forall (fun r => is_Some (monthly_past_return r)) prices_df ->
  let cross_section := filter (fun r => date r = d) prices_df in
  let grp := month d (create_signal prices_df) in
  let selected := filter (fun r => signal r = true) grp in
  row <$> grp = cross_section /\
  (forall r, r ∈ grp ->
     let s := ticker_series (ticker (row r)) prices_df in
     exists (i : nat) (w : list Q), s !! i = Some (row r) /\
       Some <$> w = take 12 (reverse (take (S i) (monthly_past_return <$> s))) /\
       length w = Nat.min (S i) 12 /\
       average_return_1y r
       = Some (foldl Qplus 0 w / inject_Z (Z.of_nat (length w)))%Q) /\
  ((length cross_section < 20)%nat -> length selected = length cross_section) /\
  ((20 <= length cross_section)%nat ->
     length selected = 20%nat /\
     (forall r1 r2, r1 ∈ grp -> r2 ∈ grp ->
        signal r1 = true -> signal r2 = false ->
        exists a1 a2, average_return_1y r1 = Some a1 /\
          average_return_1y r2 = Some a2 /\ (a2 <= a1)%Q) /\
     (forall r1 r2 a1 a2, before r1 r2 grp ->
        average_return_1y r1 = Some a1 -> average_return_1y r2 = Some a2 ->
        (a2 <= a1)%Q -> signal r2 = true -> signal r1 = true)).
Proof.
  intros Hnd Hpast cross_section grp selected.
  unfold selected, grp. rewrite month_create_signal.
  set (g := filter (fun g => date g.1 = d) (with_average prices_df)).
  assert (g.*1 = cross_section) as Hrows by apply cross_section_rows.
  assert (length g = length cross_section) as Hlen
    by (by rewrite <- Hrows, length_fmap).
  split_and!.
  - rewrite <- Hrows. rewrite <- (get_top_20_signal_rows g) at 2.
    by rewrite <- list_fmap_compose.
  - intros r Hr. cbv zeta.
    set (s := ticker_series (ticker (row r)) prices_df).
    destruct (with_average_window prices_df (row r) (average_return_1y r))
      as (i & Hi & Havg).
    { apply (list_elem_of_fmap_2 (fun r => (row r, average_return_1y r))) in Hr.
      rewrite get_top_20_signal_rows in Hr.
      by apply list_elem_of_filter in Hr as [_ Hr]. }
    fold s in Hi, Havg.
    assert (i < length (monthly_past_return <$> s))%nat as Hlt
      by (rewrite length_fmap; by eapply lookup_lt_Some).
    pose proof (trailing_window_length _ _ Hlt) as Hwlen.
    destruct (window_mean_explicit
                (trailing_window (monthly_past_return <$> s) i))
      as (w & Hw & Hmean).
    { intros Hnil. rewrite Hnil in Hwlen. simpl in Hwlen. lia. }
    { unfold trailing_window.
      apply Forall_take, Forall_reverse, Forall_take, Forall_fmap.
      apply Forall_forall. intros r' [_ Hr']%list_elem_of_filter. simpl.
      rewrite Forall_forall in Hpast. by apply Hpast. }
    exists i, w. split_and!; [done|done| |congruence].
    by rewrite <- Hwlen, <- Hw, length_fmap.
  - intros Hlt. rewrite get_top_20_signal_small by lia.
    by rewrite get_top_20_signal_length.
  - intros Hge.
    assert (NoDup ((fun x => key x.1) <$> g)) as Hg_labels.
    { assert ((fun x => key x.1) <$> g = key <$> cross_section) as ->
        by (by rewrite <- Hrows, <- list_fmap_compose).
      eapply sublist_NoDup; [exact Hnd|]. apply fmap_sublist, sublist_filter. }
    assert (Forall (fun x => is_Some x.2) g) as Hg_values.
    { apply Forall_forall. intros x [_ Hx]%list_elem_of_filter.
      apply (with_average_Some prices_df); [done|].
      rewrite Forall_forall in Hpast. apply Hpast.
      rewrite <- (with_average_rows prices_df). by apply list_elem_of_fmap_2. }
    split_and!.
    + apply top_20_count; [lia|done..].
    + apply top_20_dominates; [lia|done..].
    + apply top_20_first_kept; [lia|done..].
Qed.


(** ** The backtest (backtester.py) *)

Lemma zip_with_fmap_same {A B C D} (f : B -> C -> D) (g : A -> B) (h : A -> C)
    (l : list A) :
  zip_with f (g <$> l) (h <$> l) = (fun x => f (g x) (h x)) <$> l.
Proof. induction l; csimpl; [done|]. by f_equal. Qed.

Lemma elem_of_fmap_index {V} (f : Timestamp -> V) (ks : list Timestamp) d x :
  (d, x) ∈ (fun k => (k, f k)) <$> ks <-> d ∈ ks /\ x = f d.
Proof.
  rewrite list_elem_of_fmap. split.
  - intros (k & ? & ?); by simplify_eq.
  - intros [? ->]. eauto.
Qed.

Lemma strategy_returns_eq prices_df :
  strategy_returns prices_df
  = (fun d => (d, div_count (sum_skipna (pnl <$> month d prices_df))
                    (selected_count_of d prices_df)))
      <$> group_keys (months prices_df).
Proof.
  unfold strategy_returns, strategy_pnl_series, signal_sum.
  by rewrite zip_with_fmap_same.
Qed.

Lemma strategy_returns_index prices_df :
  (strategy_returns prices_df).*1 = group_keys (months prices_df).
Proof.
  rewrite strategy_returns_eq, <- list_fmap_compose. apply list_fmap_id.
Qed.

Lemma strategy_pnl_series_index prices_df :
  (strategy_pnl_series prices_df).*1 = group_keys (months prices_df).
Proof.
  unfold strategy_pnl_series. rewrite <- list_fmap_compose. apply list_fmap_id.
Qed.

Lemma elem_of_strategy_pnl_series prices_df d x :
  (d, x) ∈ strategy_pnl_series prices_df <->
  d ∈ months prices_df /\ x = sum_skipna (pnl <$> month d prices_df).
Proof.
  unfold strategy_pnl_series.
  by rewrite (elem_of_fmap_index
    (fun d => sum_skipna (pnl <$> month d prices_df))), elem_of_group_keys.
Qed.

Lemma elem_of_signal_sum prices_df d n :
  (d, n) ∈ signal_sum prices_df <->
  d ∈ months prices_df /\ n = selected_count_of d prices_df.
Proof.
  unfold signal_sum.
  by rewrite (elem_of_fmap_index (fun d => selected_count_of d prices_df)),
    elem_of_group_keys.
Qed.

Lemma elem_of_strategy_returns prices_df d x :
  (d, x) ∈ strategy_returns prices_df <->
  d ∈ months prices_df /\
  x = div_count (sum_skipna (pnl <$> month d prices_df))
        (selected_count_of d prices_df).
Proof.
  rewrite strategy_returns_eq.
  by rewrite (elem_of_fmap_index
    (fun d => div_count (sum_skipna (pnl <$> month d prices_df))
                (selected_count_of d prices_df))), elem_of_group_keys.
Qed.

Lemma foldl_Qplus_proper (a b : Q) l :
  (a == b)%Q -> (foldl Qplus a l == foldl Qplus b l)%Q.
Proof.
  revert a b. induction l as [|x l IH]; intros a b Hab; simpl; [done|].
  apply IH. by rewrite Hab.
Qed.

Lemma Qsum_zero l : Forall (fun x => (x == 0)%Q) l -> (Qsum l == 0)%Q.
Proof.
  intros Hl. unfold Qsum.
  assert (forall acc, (foldl Qplus acc l == acc)%Q) as H; [|apply H].
  induction Hl as [|x l Hx Hl IH]; intros acc; simpl.
  - reflexivity.
  - rewrite IH. rewrite Hx. apply Qplus_0_r.
Qed.

(** With no ticker selected the PnL of the month is 0: the division of
    line 22 is then 0/0. *)
Lemma pnl_zero_without_selection prices_df d :
  selected_count_of d prices_df = 0%nat ->
  (sum_skipna (pnl <$> month d prices_df) == 0)%Q.
Proof.
  unfold selected_count_of. intros Hn%length_zero_iff_nil.
  unfold sum_skipna. apply Qsum_zero, Forall_forall. intros x Hx.
  apply list_elem_of_omap in Hx as (c & Hc & Hx). simpl in Hx. subst c.
  apply list_elem_of_fmap in Hc as (r & Hp & Hr).
  assert (signal r = false) as Hs.
  { destruct (signal r) eqn:Hs; [|done].
    assert (r ∈ filter (fun r => signal r = true) (month d prices_df)) as Hin
      by (by apply list_elem_of_filter).
    rewrite Hn in Hin. by apply elem_of_nil in Hin. }
  unfold pnl in Hp. rewrite Hs in Hp.
  destruct (monthly_future_return (row r)); simplify_eq/=. apply Qmult_0_l.
Qed.

(** C6. The PnL of a record is its signal, as 1 or 0, times its forward
    return; the strategy PnL of a month is the sum of the PnL of the records
    of that month, and the strategy return of the month is that sum divided
    by the number of records selected in the month. Every month of the table
    has exactly one entry in either series. *)
Theorem strategy_pnl_and_return (prices_df : list SignalRow) :
  (forall r f, monthly_future_return (row r) = Some f ->
     pnl r = Some ((if signal r then 1 else 0) * f)%Q) /\
  (forall d x, (d, x) ∈ strategy_pnl_series prices_df <->
     d ∈ months prices_df /\ x = Qsum (omap pnl (month d prices_df))) /\
  (forall d x, (d, x) ∈ strategy_returns prices_df <->
     d ∈ months prices_df /\
     let n := length (filter (fun r => signal r = true) (month d prices_df)) in
     x = match n with
         | O => None
         | S _ => Some (Qsum (omap pnl (month d prices_df))
                        / inject_Z (Z.of_nat n))%Q
         end) /\
  NoDup (strategy_pnl_series prices_df).*1 /\
  NoDup (strategy_returns prices_df).*1.
Proof.
  assert (forall l : list SignalRow, sum_skipna (pnl <$> l) = Qsum (omap pnl l))
    as Hsum.
  { intros l. unfold sum_skipna. f_equal.
    induction l as [|r l IH]; [done|]. csimpl. rewrite IH.
    by destruct (pnl r). }
  split_and!.
  - intros r f Hf. unfold pnl, b2q. by rewrite Hf.
  - intros d x. by rewrite elem_of_strategy_pnl_series, Hsum.
  - intros d x. by rewrite elem_of_strategy_returns, Hsum.
  - rewrite strategy_pnl_series_index. apply NoDup_group_keys.
  - rewrite strategy_returns_index. apply NoDup_group_keys.
Qed.

Lemma benchmark_pnl_series_eq (b : list (Timestamp * Q)) :
  benchmark_pnl_series b = (fun e => (e.1, (20 * e.2)%Q)) <$> b.
Proof.
  unfold benchmark_pnl_series, sp500_signal.
  induction b as [|e b IH]; [done|].
  cbn [length replicate fmap list_fmap zip zip_with]. by rewrite IH.
Qed.

Lemma benchmark_pnl_series_index (b : list (Timestamp * Q)) :
  (benchmark_pnl_series b).*1 = b.*1.
Proof. rewrite benchmark_pnl_series_eq. by rewrite <- list_fmap_compose. Qed.

Lemma elem_of_intersection (l r : list Timestamp) d :
  d ∈ intersection l r <-> d ∈ l /\ d ∈ r.
Proof.
  unfold intersection. rewrite list_elem_of_filter, elem_of_unique. tauto.
Qed.

Lemma NoDup_intersection (l r : list Timestamp) : NoDup (intersection l r).
Proof. apply NoDup_filter, NoDup_unique. Qed.

Lemma elem_of_loc {V} (s : list (Timestamp * V)) labels e :
  e ∈ loc s labels <-> e.1 ∈ labels /\ e ∈ s.
Proof.
  unfold loc. rewrite list_elem_of_bind. split.
  - intros (d & [<- ?]%list_elem_of_filter & ?). done.
  - intros [? ?]. exists e.1. by rewrite list_elem_of_filter.
Qed.

Lemma loc_nil {V} (s : list (Timestamp * V)) : loc s [] = [].
Proof. done. Qed.

Lemma loc_nonempty {V} (s : list (Timestamp * V)) labels :
  labels <> [] -> labels ⊆ s.*1 -> loc s labels <> [].
Proof.
  destruct labels as [|d labels]; [done|]. intros _ Hsub Hnil.
  assert (d ∈ s.*1) as (e & -> & He)%list_elem_of_fmap by (apply Hsub; left).
  assert (e ∈ loc s (e.1 :: labels)) as Hin
    by (apply elem_of_loc; split; [left|done]).
  rewrite Hnil in Hin. by apply elem_of_nil in Hin.
Qed.

Lemma last_cumsum_from acc l :
  last (acc :: cumsum_from acc l) = Some (foldl Qplus acc l).
Proof.
  revert acc. induction l as [|x l IH]; intros acc; [done|].
  simpl cumsum_from. rewrite last_cons_cons. apply IH.
Qed.

(** The last running sum is the sum. *)
Lemma last_cumsum l :
  l <> [] -> exists x, last (cumsum l) = Some x /\ (x == Qsum l)%Q.
Proof.
  destruct l as [|y l]; [done|]. intros _. simpl.
  exists (foldl Qplus y l). split; [apply last_cumsum_from|].
  unfold Qsum. simpl. apply foldl_Qplus_proper. by rewrite Qplus_0_l.
Qed.

(** C9. The benchmark PnL of a month is 20 times the benchmark return of
    that month, and nothing else: after alignment with any strategy table
    every benchmark PnL entry is still 20 times a benchmark return of the
    same month. A monthly return of 0.02 gives a PnL of 0.4. *)
Theorem benchmark_pnl_is_20_units (prices_df : list SignalRow)
    (sp500_df : list BenchRow) (d : Timestamp) :
  benchmark_pnl_series (benchmark_returns sp500_df)
    = (fun e => (e.1, (20 * e.2)%Q)) <$> benchmark_returns sp500_df /\
  (forall x, (d, x) ∈ a_benchmark_pnl (align prices_df sp500_df) <->
     d ∈ common_dates (align prices_df sp500_df) /\
     exists r, (d, r) ∈ benchmark_returns sp500_df /\ x = (20 * r)%Q) /\
  exists x, benchmark_pnl_series (benchmark_returns [mkBenchRow d (Some (2 # 100)%Q)])
              = [(d, x)] /\ (x == 4 # 10)%Q.
Proof.
  split_and!.
  - apply benchmark_pnl_series_eq.
  - intros x. unfold align; simpl. rewrite elem_of_loc. simpl.
    rewrite benchmark_pnl_series_eq, list_elem_of_fmap. split.
    + intros [Hd ([d' r] & ? & ?)]; simplify_eq/=. eauto.
    + intros [Hd (r & Hr & ->)]. split; [done|]. by exists (d, r).
  - eexists. split; [reflexivity|]. reflexivity.
Qed.

(** C7. The months compared are exactly the months present in both the
    strategy and the benchmark series, each once, and every aligned series
    holds the entries of its source for those months. With no common month
    [iloc[-1]] fails. Otherwise the total returns are the sums of the
    aligned monthly returns, each total PnL is the last value of the
    running sum of the aligned PnL, which is their sum, and the
    outperformance written is the difference of the total returns, in
    percent. *)
Theorem aligned_totals (prices_df : list SignalRow) (sp500_df : list BenchRow) :
  let a := align prices_df sp500_df in
  (forall d, d ∈ common_dates a <->
     d ∈ (strategy_returns prices_df).*1 /\ d ∈ (benchmark_returns sp500_df).*1) /\
  NoDup (common_dates a) /\
  (forall e, e ∈ a_strategy_returns a <->
     e.1 ∈ common_dates a /\ e ∈ strategy_returns prices_df) /\
  (forall e, e ∈ a_strategy_pnl a <->
     e.1 ∈ common_dates a /\ e ∈ strategy_pnl_series prices_df) /\
  (forall e, e ∈ a_benchmark_returns a <->
     e.1 ∈ common_dates a /\ e ∈ benchmark_returns sp500_df) /\
  (forall e, e ∈ a_benchmark_pnl a <->
     e.1 ∈ common_dates a /\
     e ∈ benchmark_pnl_series (benchmark_returns sp500_df)) /\
  (common_dates a = [] -> backtest prices_df sp500_df = None) /\
  (common_dates a <> [] ->
   exists res, backtest prices_df sp500_df = Some res /\
     strategy_cumulative_pnl res = cumsum (a_strategy_pnl a).*2 /\
     benchmark_cumulative_pnl res = cumsum (a_benchmark_pnl a).*2 /\
     strategy_total_return res = sum_skipna (a_strategy_returns a).*2 /\
     benchmark_total_return res = Qsum (a_benchmark_returns a).*2 /\
     last (strategy_cumulative_pnl res) = Some (strategy_total_pnl res) /\
     (strategy_total_pnl res == Qsum (a_strategy_pnl a).*2)%Q /\
     last (benchmark_cumulative_pnl res) = Some (benchmark_total_pnl res) /\
     (benchmark_total_pnl res == Qsum (a_benchmark_pnl a).*2)%Q /\
     outperformance_pct res
       = ((strategy_total_return res - benchmark_total_return res) * 100)%Q).
Proof.
  intros a. split_and!.
  - intros d. apply elem_of_intersection.
  - apply NoDup_intersection.
  - intros e. apply elem_of_loc.
  - intros e. apply elem_of_loc.
  - intros e. apply elem_of_loc.
  - intros e. apply elem_of_loc.
  - intros Hnil. unfold backtest. fold a.
    unfold a, align in *. simpl in *. rewrite Hnil. done.
  - intros Hne.
    assert (common_dates a ⊆ (strategy_pnl_series prices_df).*1) as Hs.
    { intros d [Hd _]%elem_of_intersection.
      by rewrite strategy_pnl_series_index, <- strategy_returns_index. }
    assert (common_dates a
              ⊆ (benchmark_pnl_series (benchmark_returns sp500_df)).*1) as Hb.
    { intros d [_ Hd]%elem_of_intersection.
      by rewrite benchmark_pnl_series_index. }
    assert ((a_strategy_pnl a).*2 <> []) as Hs'.
    { intros Hnil%fmap_nil_inv. by eapply (loc_nonempty _ _ Hne Hs). }
    assert ((a_benchmark_pnl a).*2 <> []) as Hb'.
    { intros Hnil%fmap_nil_inv. by eapply (loc_nonempty _ _ Hne Hb). }
    destruct (last_cumsum _ Hs') as (sp & Hsp & Hsp').
    destruct (last_cumsum _ Hb') as (bp & Hbp & Hbp').
    eexists. split.
    + unfold backtest. fold a. rewrite Hsp, Hbp. reflexivity.
    + simpl. split_and!; done.
Qed.

(** ** The pipeline: preprocessing, signal, backtest *)

Lemma month_length_create_signal prices_df d :
  length (month d (create_signal prices_df))
  = length (filter (fun r => date r = d) prices_df).
Proof.
  rewrite month_create_signal, get_top_20_signal_length.
  by rewrite <- cross_section_rows, length_fmap.
Qed.

(** The number of rows selected in a month is [min N 20]. *)
Lemma selected_count_min prices_df d :
  NoDup (key <$> prices_df) ->
  Forall (fun r => is_Some (monthly_past_return r)) prices_df ->
  selected_count_of d (create_signal prices_df)
  = Nat.min (length (month d (create_signal prices_df))) 20.
Proof.
  intros Hnd Hpast. unfold selected_count_of.
  rewrite month_create_signal.
  set (g := filter (fun g => date g.1 = d) (with_average prices_df)).
  rewrite (get_top_20_signal_length g).
  destruct (Nat.lt_ge_cases (length g) 20) as [Hlt|Hge].
  - rewrite get_top_20_signal_small, get_top_20_signal_length by done. lia.
  - rewrite top_20_count; [lia|done| |].
    + assert ((fun x => key x.1) <$> g
              = key <$> filter (fun r => date r = d) prices_df) as ->.
      { unfold g. by rewrite <- cross_section_rows, <- list_fmap_compose. }
      eapply sublist_NoDup; [exact Hnd|]. apply fmap_sublist, sublist_filter.
    + apply Forall_forall. intros x [_ Hx]%list_elem_of_filter.
      apply (with_average_Some prices_df); [done|].
      rewrite Forall_forall in Hpast. apply Hpast.
      rewrite <- (with_average_rows prices_df). by apply list_elem_of_fmap_2.
Qed.

(** C10. In the table the pipeline builds, every month that occurs has
    [min N 20] selected tickers, which is at least one, so that the divisor
    of the monthly strategy return is never 0 and every monthly strategy
    return is a number. *)
Theorem selection_never_empty (prices_monthly : list PriceRow) :
  NoDup (pr_key <$> prices_monthly) ->
  let prices_df := create_signal (preprocess_prices prices_monthly) in
  (forall d n, (d, n) ∈ signal_sum prices_df ->
     n = Nat.min (length (month d prices_df)) 20 /\ (1 <= n)%nat) /\
  (forall d x, (d, x) ∈ strategy_returns prices_df ->
     x = Some (sum_skipna (pnl <$> month d prices_df)
               / inject_Z (Z.of_nat (selected_count_of d prices_df)))%Q).
Proof.
  intros Hnd prices_df.
  assert (forall d, d ∈ months prices_df ->
            selected_count_of d prices_df
              = Nat.min (length (month d prices_df)) 20 /\
            (1 <= selected_count_of d prices_df)%nat) as Hcount.
  { intros d (r & Hd & Hr)%list_elem_of_fmap.
    assert (selected_count_of d prices_df
              = Nat.min (length (month d prices_df)) 20) as Hmin.
    { apply selected_count_min; [by apply preprocess_prices_NoDup|].
      apply Forall_forall. intros r'. apply preprocess_prices_complete. }
    split; [done|]. rewrite Hmin.
    assert (r ∈ month d prices_df) as Hin by (by apply list_elem_of_filter).
    destruct (month d prices_df); [by apply elem_of_nil in Hin|simpl; lia]. }
  split.
  - intros d n [Hd ->]%elem_of_signal_sum. by apply Hcount.
  - intros d x [Hd ->]%elem_of_strategy_returns.
    destruct (Hcount d Hd) as [_ Hpos].
    destruct (selected_count_of d prices_df); [lia|done].
Qed.

Lemma selection_never_empty_witness :
  20%nat = Nat.min (length (month (days_from_civil 2010 3 31)
                      (create_signal (preprocess_prices scenario_21)))) 20
  /\ (1 <= 20)%nat.
Proof.
  apply (proj1 (selection_never_empty scenario_21 ltac:(compute_done))
           (days_from_civil 2010 3 31) 20%nat).
  vm_compute. do 2 constructor.
Defined.

Lemma top_20_selected_witness :
  let grp :=
    month (days_from_civil 2010 3 31)
      (create_signal (preprocess_prices scenario_21)) in
  (fun r => (ticker (row r), average_return_1y r))
    <$> filter (fun r => signal r = false) grp
  = [("T01", Some (201 # 20200)%Q)] /\
  length (filter (fun r => signal r = true) grp) = 20%nat /\
  (forall r1 r2, r1 ∈ grp -> r2 ∈ grp ->
     signal r1 = true -> signal r2 = false ->
     exists a1 a2, average_return_1y r1 = Some a1 /\
       average_return_1y r2 = Some a2 /\ (a2 <= a1)%Q) /\
  (forall r, r ∈ grp ->
     exists (i : nat) (w : list Q),
       ticker_series (ticker (row r)) (preprocess_prices scenario_21) !! i
       = Some (row r) /\
       Some <$> w
       = take 12 (reverse (take (S i)
                   (monthly_past_return
                      <$> ticker_series (ticker (row r))
                            (preprocess_prices scenario_21)))) /\
       length w = Nat.min (S i) 12 /\
       average_return_1y r
       = Some (foldl Qplus 0 w / inject_Z (Z.of_nat (length w)))%Q).
Proof.
  intros grp.
  destruct (top_20_selected (preprocess_prices scenario_21)
              (days_from_civil 2010 3 31)
              ltac:(compute_done) ltac:(compute_done))
    as (_ & Hmean & _ & Htop).
  destruct Htop as (Hcount & Hdom & _); [vm_compute; lia|].
  split_and!; [by vm_compute|exact Hcount|exact Hdom|exact Hmean].
Defined.

Lemma strategy_pnl_and_return_witness :
  pnl (mkSignalRow
         (mkRow (days_from_civil 2010 1 31) "A" (Some 90%Q) (Some (20 # 10)%Q)
            (Some (9 # 90)%Q))
         (Some (400 # 200)%Q) true)
  = Some (1 * (9 # 90))%Q.
Proof.
  apply (proj1 (strategy_pnl_and_return
                  (create_signal (preprocess_prices scenario_crisis_exit)))).
  reflexivity.
Defined.

Lemma benchmark_pnl_is_20_units_witness :
  days_from_civil 2009 12 31
    ∈ common_dates (align (create_signal (preprocess_prices scenario_crisis_exit))
                      scenario_benchmark) /\
  exists r, (days_from_civil 2009 12 31, r) ∈ benchmark_returns scenario_benchmark
            /\ (40 # 100)%Q = (20 * r)%Q.
Proof.
  apply (proj1 (proj2 (benchmark_pnl_is_20_units
                         (create_signal (preprocess_prices scenario_crisis_exit))
                         scenario_benchmark (days_from_civil 2009 12 31)))).
  vm_compute. constructor.
Defined.

Lemma aligned_totals_witness :
  exists res,
    backtest (create_signal (preprocess_prices scenario_crisis_exit))
      scenario_benchmark = Some res /\
    strategy_total_pnl res = (5670 # 2700)%Q /\
    benchmark_total_pnl res = (10000 # 10000)%Q /\
    benchmark_total_return res = (500 # 10000)%Q.
Proof.
  destruct (aligned_totals (create_signal (preprocess_prices scenario_crisis_exit))
              scenario_benchmark) as (_ & _ & _ & _ & _ & _ & _ & H).
  destruct H as (res & Hres & _); [by vm_compute|].
  exists res. vm_compute in Hres. by simplify_eq.
Defined.

(** ** Monthly resampling (preprocessing.py, lines 17-23) *)

Lemma ticker_group_Permutation tk prices_df :
  ticker_group tk prices_df ≡ₚ filter (fun o => o_ticker o = tk) prices_df.
Proof. apply stable_sort_Permutation. Qed.

Lemma elem_of_ticker_group tk prices_df o :
  o ∈ ticker_group tk prices_df <-> o ∈ prices_df /\ o_ticker o = tk.
Proof. rewrite ticker_group_Permutation, list_elem_of_filter. tauto. Qed.

Lemma ticker_group_sorted tk prices_df :
  StronglySorted (fun a b => (o_date a <= o_date b)%Z) (ticker_group tk prices_df).
Proof.
  eapply StronglySorted_weaken; [|apply stable_sort_sorted].
  - intros x y. unfold may_precede. rewrite Z.ltb_ge. done.
  - intros x y. rewrite Z.ltb_lt, Z.ltb_ge. lia.
  - intros x y z. unfold may_precede. rewrite !Z.ltb_ge. lia.
Qed.

Lemma sorted_head_least {A} (R : relation A) l x y :
  (forall a, R a a) -> StronglySorted R l -> head l = Some x -> y ∈ l -> R x y.
Proof.
  intros Hrefl Hl Hx Hy. destruct l as [|x' l]; simplify_eq/=.
  apply StronglySorted_inv in Hl as [_ Hall].
  apply elem_of_cons in Hy as [->|Hy]; [done|].
  rewrite Forall_forall in Hall. auto.
Qed.

Lemma sorted_last_greatest {A} (R : relation A) l z y :
  (forall a, R a a) -> StronglySorted R l -> last l = Some z -> y ∈ l -> R y z.
Proof.
  intros Hrefl Hl [l' ->]%last_Some Hy.
  apply elem_of_app in Hy as [Hy|Hy%list_elem_of_singleton]; [|by subst].
  eapply StronglySorted_app_1_elem_of; [done..|]. by left.
Qed.

(** The rows of one ticker: one for every month between its first and its
    last observation. *)
Lemma elem_of_resample_ticker tk prices_df r :
  r ∈ resample_ticker tk prices_df <->
  exists first final mi,
    head (ticker_group tk prices_df) = Some first /\
    last (ticker_group tk prices_df) = Some final /\
    (month_of (o_date first) <= mi <= month_of (o_date final))%Z /\
    r = mkPriceRow (month_end mi) tk
          (last_valid (o_price <$> month_bin mi (ticker_group tk prices_df))).
Proof.
  unfold resample_ticker. fold (ticker_group tk prices_df).
  destruct (head (ticker_group tk prices_df)) as [first|] eqn:Hh,
    (last (ticker_group tk prices_df)) as [final|] eqn:Hl.
  - rewrite list_elem_of_fmap. split.
    + intros (mi & -> & Hmi%elem_of_seqZ). exists first, final, mi.
      split_and!; [done..|lia|lia|done].
    + intros (? & ? & mi & ? & ? & Hmi & ->); simplify_eq.
      exists mi. split; [done|]. apply elem_of_seqZ. lia.
  - split; [by intros ?%elem_of_nil|]. by intros (? & ? & ? & ? & ? & _).
  - split; [by intros ?%elem_of_nil|]. by intros (? & ? & ? & ? & ? & _).
  - split; [by intros ?%elem_of_nil|]. by intros (? & ? & ? & ? & ? & _).
Qed.

Lemma resample_ticker_ticker tk prices_df r :
  r ∈ resample_ticker tk prices_df -> pr_ticker r = tk.
Proof. by intros (? & ? & ? & _ & _ & _ & ->)%elem_of_resample_ticker. Qed.

Lemma resample_ticker_NoDup tk prices_df :
  NoDup (pr_key <$> resample_ticker tk prices_df).
Proof.
  unfold resample_ticker. fold (ticker_group tk prices_df).
  destruct (head (ticker_group tk prices_df)),
    (last (ticker_group tk prices_df)); try constructor.
  rewrite <- list_fmap_compose. apply NoDup_fmap_2_strong; [|apply NoDup_seqZ].
  intros mi1 mi2 _ _ Heq. simpl in Heq. unfold pr_key in Heq. simpl in Heq.
  apply month_end_inj. congruence.
Qed.

Lemma group_tickers prices_df tk :
  tk ∈ stable_sort ticker_ltb (unique (o_ticker <$> prices_df))
  <-> tk ∈ o_ticker <$> prices_df.
Proof. by rewrite stable_sort_Permutation, elem_of_unique. Qed.

Lemma elem_of_resample_monthly prices_df r :
  r ∈ resample_monthly prices_df <-> r ∈ resample_ticker (pr_ticker r) prices_df.
Proof.
  unfold resample_monthly. rewrite list_elem_of_bind. split.
  - intros (tk & Hr & _). by rewrite (resample_ticker_ticker _ _ _ Hr).
  - intros Hr. exists (pr_ticker r). split; [done|]. apply group_tickers.
    apply elem_of_resample_ticker in Hr as (first & _ & _ & Hh & _).
    apply head_Some_elem_of, elem_of_ticker_group in Hh as [? <-].
    by apply list_elem_of_fmap_2.
Qed.

Lemma fmap_bind_comm {A B C} (f : B -> C) (g : A -> list B) (l : list A) :
  f <$> (l ≫= g) = l ≫= (fun x => f <$> g x).
Proof.
  induction l as [|x l IH]; [done|]. by rewrite !bind_cons, fmap_app, IH.
Qed.

(** X1. Resampling gives one row per ticker and month: no label occurs
    twice, and every label is the last day of its month. *)
Theorem resample_monthly_labels (prices_df : list Obs) :
  NoDup (pr_key <$> resample_monthly prices_df) /\
  (forall r, r ∈ resample_monthly prices_df ->
     pr_date r = month_end (month_of (pr_date r))).
Proof.
  split.
  - unfold resample_monthly. rewrite fmap_bind_comm.
    apply NoDup_bind.
    + intros tk1 tk2 k _ _ (r1 & -> & Hr1)%list_elem_of_fmap
        (r2 & Hk & Hr2)%list_elem_of_fmap.
      apply resample_ticker_ticker in Hr1, Hr2. subst.
      exact (f_equal snd Hk).
    + intros tk _. apply resample_ticker_NoDup.
    + rewrite stable_sort_Permutation. apply NoDup_unique.
  - intros r (_ & _ & mi & _ & _ & _ & ->)%elem_of_resample_monthly%elem_of_resample_ticker.
    simpl. by rewrite month_of_month_end.
Qed.

Lemma omap_id_fmap {A B} (f : A -> option B) (l : list A) :
  omap id (f <$> l) = omap f l.
Proof. induction l as [|x l IH]; [done|]. csimpl. rewrite IH. by destruct (f x). Qed.

(** The last value of [omap f l] comes from the last element of [l] that
    has a value. *)
Lemma last_omap_Some {A B} (f : A -> option B) (l : list A) y :
  last (omap f l) = Some y ->
  exists x, last (filter (fun x => is_Some (f x)) l) = Some x /\ f x = Some y.
Proof.
  induction l as [|x l IH] using rev_ind; [done|].
  rewrite omap_app, filter_app, filter_cons, filter_nil. csimpl.
  case_decide as Hx.
  - destruct Hx as [y' Hfx]. rewrite Hfx. simpl. rewrite !last_snoc.
    intros ?; simplify_eq. eauto.
  - destruct (f x) eqn:Hfx; [by destruct Hx|]. simpl.
    rewrite !app_nil_r. exact IH.
Qed.

Lemma last_omap_None {A B} (f : A -> option B) (l : list A) x :
  last (omap f l) = None -> x ∈ l -> f x = None.
Proof.
  intros Hnil%last_None Hx. destruct (f x) as [y|] eqn:Hfx; [|done].
  assert (y ∈ omap f l) as Hy by (apply list_elem_of_omap; eauto).
  rewrite Hnil in Hy. by apply elem_of_nil in Hy.
Qed.

(** X2. Every month in which a ticker is observed has its row. The price
    of a row is the last price that is not missing among the observations
    of the ticker in that month, in date order; it is missing exactly when
    the month has no such observation. *)
Theorem resample_monthly_last_price (prices_df : list Obs) :
  (forall o, o ∈ prices_df ->
     exists r, r ∈ resample_monthly prices_df /\
       pr_key r = (month_end (month_of (o_date o)), o_ticker o)) /\
  (forall r p, r ∈ resample_monthly prices_df -> pr_price r = Some p ->
     exists o, o ∈ prices_df /\ o_ticker o = pr_ticker r /\
       month_of (o_date o) = month_of (pr_date r) /\ o_price o = Some p /\
       forall o', o' ∈ prices_df -> o_ticker o' = pr_ticker r ->
         month_of (o_date o') = month_of (pr_date r) -> is_Some (o_price o') ->
         (o_date o' <= o_date o)%Z) /\
  (forall r o, r ∈ resample_monthly prices_df -> pr_price r = None ->
     o ∈ prices_df -> o_ticker o = pr_ticker r ->
     month_of (o_date o) = month_of (pr_date r) -> o_price o = None).
Proof.
  split_and!.
  - intros o Ho.
    assert (o ∈ ticker_group (o_ticker o) prices_df) as Hg
      by (by apply elem_of_ticker_group).
    destruct (head (ticker_group (o_ticker o) prices_df)) as [first|] eqn:Hh;
      [|apply head_None in Hh; rewrite Hh in Hg; by apply elem_of_nil in Hg].
    destruct (last (ticker_group (o_ticker o) prices_df)) as [final|] eqn:Hl;
      [|apply last_None in Hl; rewrite Hl in Hg; by apply elem_of_nil in Hg].
    pose proof (ticker_group_sorted (o_ticker o) prices_df) as Hs.
    exists (mkPriceRow (month_end (month_of (o_date o))) (o_ticker o)
              (last_valid (o_price <$> month_bin (month_of (o_date o))
                             (ticker_group (o_ticker o) prices_df)))).
    split; [|reflexivity].
    apply elem_of_resample_monthly, elem_of_resample_ticker. simpl.
    exists first, final, (month_of (o_date o)).
    split_and!; [done..| | |done]; apply month_of_mono.
    + exact (sorted_head_least (fun a b => (o_date a <= o_date b)%Z) _ _ _
               (fun a => Z.le_refl _) Hs Hh Hg).
    + exact (sorted_last_greatest (fun a b => (o_date a <= o_date b)%Z) _ _ _
               (fun a => Z.le_refl _) Hs Hl Hg).
  - intros r p (_ & _ & mi & _ & _ & _ & ->)%elem_of_resample_monthly%elem_of_resample_ticker.
    simpl. rewrite month_of_month_end. unfold last_valid.
    rewrite omap_id_fmap. intros (o & Hlast & Hp)%last_omap_Some.
    set (tk := pr_ticker r) in *.
    pose proof (last_Some_elem_of _ _ Hlast) as Ho.
    apply list_elem_of_filter in Ho as [_ Ho].
    apply list_elem_of_filter in Ho as [Hmi Ho].
    apply elem_of_ticker_group in Ho as [Ho Htk].
    exists o. split_and!; [done..|].
    intros o' Ho' Htk' Hmi' Hv'.
    refine (sorted_last_greatest (fun a b => (o_date a <= o_date b)%Z) _ _ _
              (fun a => Z.le_refl _) _ Hlast _).
    + do 2 apply StronglySorted_filter. apply ticker_group_sorted.
    + unfold month_bin. rewrite !list_elem_of_filter, elem_of_ticker_group. done.
  - intros r o (_ & _ & mi & _ & _ & _ & ->)%elem_of_resample_monthly%elem_of_resample_ticker.
    simpl. rewrite month_of_month_end. unfold last_valid.
    rewrite omap_id_fmap. intros Hnone Ho Htk Hmi.
    apply (last_omap_None _ _ _ Hnone).
    unfold month_bin. apply list_elem_of_filter. split; [done|]. by apply elem_of_ticker_group.
Qed.

(** ** More of [preprocess_prices] *)

Lemma assign_returns_key_price t past future :
  length past = length t -> length future = length t ->
  (fun r => (key r, price r)) <$> assign_returns t past future
  = (fun r => (pr_key r, pr_price r)) <$> t.
Proof.
  revert past future. induction t as [|r t IH]; intros [|p past] [|f future];
    simpl; try done. intros. f_equal. apply IH; lia.
Qed.

Lemma compute_returns_key_price prices_monthly :
  (fun r => (key r, price r)) <$> compute_returns prices_monthly
  = (fun r => (pr_key r, pr_price r)) <$> sort_index (filter_prices prices_monthly).
Proof.
  unfold compute_returns, with_returns. apply assign_returns_key_price;
    unfold groupby_pct_change; by rewrite ?shift_m1_length, pct_change_from_length.
Qed.

Lemma suppress_outliers_key_price t :
  (fun r => (key r, price r)) <$> suppress_outliers t
  = (fun r => (key r, price r)) <$> t.
Proof.
  unfold suppress_outliers. generalize (unique (ticker <$> t)) as tks.
  intros tks. revert t. induction tks as [|tk tks IH]; intros t; simpl; [done|].
  rewrite IH, suppress_ticker_rows, <- list_fmap_compose.
  apply list_fmap_ext. intros i r _. simpl.
  by rewrite suppress_row_key, suppress_row_price.
Qed.

Lemma ffill_from_id last (col : list (string * option Q)) :
  Forall (fun c => is_Some c.2) col -> ffill_from last col = col.*2.
Proof.
  intros Hcol. revert last.
  induction Hcol as [|[tk c] col [q Hq] Hcol IH]; intros last; [done|].
  simpl in Hq. subst c. csimpl. by rewrite IH.
Qed.

(** With no missing price the forward fill of the price column changes
    nothing. *)
Lemma fill_missing_key_price t :
  Forall (fun r => is_Some (price r)) t ->
  (fun r => (key r, price r)) <$> fill_missing t
  = (fun r => (key r, price r)) <$> t.
Proof.
  intros Ht. unfold fill_missing. set (t1 := assign_price t _).
  pose proof (assign_past_cols t1 (groupby_ffill t1 monthly_past_return)
                (groupby_ffill_length _ _)) as H2.
  apply (fmap_eq_project _ (fun x => (x.1.1, x.1.2))) in H2.
  etrans; [exact H2|]. unfold t1, assign_price, groupby_ffill.
  rewrite ffill_from_id by (by apply Forall_fmap).
  rewrite <- list_fmap_compose. clear.
  induction t as [|r t IH]; [done|]. csimpl. by rewrite IH.
Qed.

Lemma suppressed_prices_present prices_monthly :
  Forall (fun r => is_Some (price r))
    (suppress_outliers (compute_returns prices_monthly)).
Proof.
  apply Forall_forall. intros r Hr.
  apply (list_elem_of_fmap_2 (fun r => (key r, price r))) in Hr.
  rewrite suppress_outliers_key_price in Hr.
  apply list_elem_of_fmap in Hr as (r0 & Heq & Hr0).
  apply compute_returns_prices_in_range, price_in_range_Some in Hr0
    as (q & Hq & _). simplify_eq. rewrite H0, Hq. eauto.
Qed.

Lemma preprocess_prices_filled prices_monthly :
  preprocess_prices prices_monthly
  = filter (fun r => complete r = true)
      (fill_missing (suppress_outliers (compute_returns prices_monthly))).
Proof. apply dropna_dropna_future. Qed.

Lemma filled_key_price prices_monthly :
  (fun r => (key r, price r))
    <$> fill_missing (suppress_outliers (compute_returns prices_monthly))
  = (fun r => (pr_key r, pr_price r)) <$> sort_index (filter_prices prices_monthly).
Proof.
  rewrite fill_missing_key_price by apply suppressed_prices_present.
  by rewrite suppress_outliers_key_price, compute_returns_key_price.
Qed.

(** X3. Preprocessing never changes a price and never invents a row: every
    row of the output carries the label and the price of a row of the
    monthly table, and that price lies in [0.1, 10000]. *)
Theorem preprocess_prices_keeps_prices (prices_monthly : list PriceRow) (r : Row) :
  r ∈ preprocess_prices prices_monthly ->
  exists r0 p, r0 ∈ prices_monthly /\ pr_key r0 = key r /\
    pr_price r0 = Some p /\ price r = Some p /\
    (1 # 10 <= p)%Q /\ (p <= 10000)%Q.
Proof.
  rewrite preprocess_prices_filled. intros [_ Hr]%list_elem_of_filter.
  apply (list_elem_of_fmap_2 (fun r => (key r, price r))) in Hr.
  rewrite filled_key_price in Hr.
  apply list_elem_of_fmap in Hr as (r0 & Heq & Hr0).
  rewrite sort_index_Permutation in Hr0.
  apply list_elem_of_filter in Hr0 as [Hrange Hr0].
  apply price_in_range_Some in Hrange as (p & Hp & ? & ?).
  exists r0, p. simplify_eq. rewrite <- Hp. done.
Qed.

Lemma StronglySorted_fmap_inv {A B} (f : A -> B) (R : relation B) l :
  StronglySorted R (f <$> l) -> StronglySorted (fun x y => R (f x) (f y)) l.
Proof.
  induction l as [|x l IH]; csimpl; intros Hl; [constructor|].
  apply StronglySorted_inv in Hl as [Hl Hx]. constructor; [auto|].
  by rewrite Forall_fmap in Hx.
Qed.

(** X4. The table returned is in index order, by date and then by ticker,
    and has one row per label when the monthly table has. *)
Theorem preprocess_prices_sorted (prices_monthly : list PriceRow) :
  StronglySorted (fun r1 r2 => key_leb (key r1) (key r2) = true)
    (preprocess_prices prices_monthly) /\
  (NoDup (pr_key <$> prices_monthly) ->
   NoDup (key <$> preprocess_prices prices_monthly)).
Proof.
  split; [|apply preprocess_prices_NoDup].
  rewrite preprocess_prices_filled. apply StronglySorted_filter.
  apply (StronglySorted_fmap_inv key (fun k1 k2 => key_leb k1 k2 = true)).
  assert (key <$> fill_missing (suppress_outliers (compute_returns prices_monthly))
          = pr_key <$> sort_index (filter_prices prices_monthly)) as ->.
  { pose proof (f_equal (fmap fst) (filled_key_price prices_monthly)) as Hk.
    rewrite <- !list_fmap_compose in Hk. exact Hk. }
  apply (StronglySorted_fmap pr_key row_precedes); [done|].
  apply sort_index_sorted.
Qed.
Lemma first_record_no_past prices_monthly k r :
  ticker_series k (compute_returns prices_monthly) !! 0%nat = Some r ->
  monthly_past_return r = None.
Proof.
  intros H0.
  set (m := sort_index (filter_prices prices_monthly)).
  destruct (ticker_series_assign_returns k ∅ m (shift_m1 (groupby_pct_change m)))
    as (_ & Hp & Hr).
  { unfold groupby_pct_change. by rewrite shift_m1_length, pct_change_from_length. }
  fold (groupby_pct_change m) in Hp, Hr.
  change (assign_returns m _ _) with (compute_returns prices_monthly) in Hp, Hr.
  rewrite lookup_empty in Hr.
  assert ((monthly_past_return <$> ticker_series k (compute_returns prices_monthly))
            !! 0%nat = Some (monthly_past_return r)) as Hr0
    by (by rewrite list_lookup_fmap, H0).
  assert ((price <$> ticker_series k (compute_returns prices_monthly))
            !! 0%nat = Some (price r)) as Hp0
    by (by rewrite list_lookup_fmap, H0).
  rewrite Hp in Hp0. rewrite Hr in Hr0.
  rewrite (pct_change_series_lookup_0 _ _ _ Hp0) in Hr0. by simplify_eq/=.
Qed.

Lemma suppress_outliers_weakened t : Forall2 weakened t (suppress_outliers t).
Proof.
  unfold suppress_outliers. generalize (unique (ticker <$> t)) as tks.
  intros tks. revert t. induction tks as [|tk tks IH]; intros t; simpl.
  - apply Forall_Forall2_diag, Forall_forall. intros r _. split; auto.
  - eapply (Forall2_trans weakened weakened weakened); [| |apply IH].
    + intros r1 r2 r3 [Hk1 Hp1] [Hk2 Hp2]. split; [congruence|].
      destruct Hp1 as [<-|Hp1], Hp2 as [Hp2|Hp2]; auto. right. congruence.
    + rewrite suppress_ticker_rows. apply Forall2_fmap_r, Forall_Forall2_diag.
      apply Forall_forall. intros r _. split; [apply suppress_row_key|].
      rewrite suppress_row_past. case_decide; auto.
Qed.

Lemma NoDup_fmap_elem_inj {A B} (f : A -> B) (l : list A) x y :
  NoDup (f <$> l) -> x ∈ l -> y ∈ l -> f x = f y -> x = y.
Proof.
  induction l as [|z l IH]; csimpl; intros Hnd Hx Hy Heq.
  - by apply elem_of_nil in Hx.
  - apply NoDup_cons in Hnd as [Hz Hnd].
    apply elem_of_cons in Hx as [->|Hx], Hy as [->|Hy]; auto.
    + destruct Hz. rewrite Heq. by apply list_elem_of_fmap_2.
    + destruct Hz. rewrite <- Heq. by apply list_elem_of_fmap_2.
Qed.

(** The first row of a ticker in the filled table still has no trailing
    return. *)
Lemma filled_first_record prices_monthly k r0 :
  ticker_series k (compute_returns prices_monthly) !! 0%nat = Some r0 ->
  exists x, ticker_series k
              (fill_missing (suppress_outliers (compute_returns prices_monthly)))
              !! 0%nat = Some x /\
    key x = key r0 /\ monthly_past_return x = None.
Proof.
  intros H0. set (c := compute_returns prices_monthly) in *.
  set (s := suppress_outliers c). set (f := fill_missing s).
  assert (Forall2 weakened (ticker_series k c) (ticker_series k s)) as Hcs.
  { apply Forall2_filter; [|apply suppress_outliers_weakened].
    intros r r' [Hk _]. by rewrite <- (f_equal snd Hk : ticker r' = ticker r). }
  destruct (Forall2_lookup_l _ _ _ _ _ Hcs H0) as (r1 & H1 & Hk1 & Hp1).
  assert (monthly_past_return r1 = None) as Hn1.
  { rewrite (first_record_no_past _ _ _ H0) in Hp1. by destruct Hp1. }
  pose proof (fill_missing_past_series s k) as Hpast. fold f in Hpast.
  assert (key <$> ticker_series k f = key <$> ticker_series k s) as Hkeys.
  { apply ticker_series_ext.
    exact (fmap_eq_project _ (fun x => (x.1.2, x.1)) _ _ (fill_missing_cols s)). }
  destruct (ticker_series k s) as [|r1' ls] eqn:Hs; simplify_eq/=.
  destruct (ticker_series k f) as [|x lf] eqn:Hf; simplify_eq/=.
  exists x. rewrite Hn1 in Hpast. simplify_eq/=.
  split_and!; [done| |done]. unfold key. congruence.
Qed.

(** X5. The first monthly record of a ticker never survives preprocessing:
    it has no trailing return and nothing to fill it with. Every ticker
    therefore comes out with fewer rows than it has monthly records. *)
Theorem first_record_dropped (prices_monthly : list PriceRow) (k : string) (r0 : Row) :
  ticker_series k (compute_returns prices_monthly) !! 0%nat = Some r0 ->
  (length (ticker_series k (preprocess_prices prices_monthly))
   < length (ticker_series k (compute_returns prices_monthly)))%nat /\
  (NoDup (pr_key <$> prices_monthly) ->
   key r0 ∉ key <$> preprocess_prices prices_monthly).
Proof.
  intros H0. destruct (filled_first_record _ _ _ H0) as (x & Hx & Hkx & Hpx).
  set (c := compute_returns prices_monthly) in *.
  set (f := fill_missing (suppress_outliers c)) in *.
  assert (complete x = false) as Hcx.
  { apply not_true_is_false. intros (_ & [? Hp] & _)%complete_spec. congruence. }
  assert (x ∈ ticker_series k f) as Hxin by (by eapply list_elem_of_lookup_2).
  split.
  - rewrite preprocess_prices_filled. fold c f.
    assert (ticker_series k (filter (fun r => complete r = true) f)
            = filter (fun r => complete r = true) (ticker_series k f)) as ->.
    { unfold ticker_series. rewrite !list_filter_filter.
      apply list_filter_iff. intros; tauto. }
    assert (length (ticker_series k f) = length (ticker_series k c)) as <-.
    { rewrite <- !(length_fmap key). f_equal. apply ticker_series_ext.
      assert (key <$> f = key <$> c) as Hk.
      { unfold f. rewrite <- (suppress_outliers_keys c).
        exact (fmap_eq_project _ fst _ _ (fill_missing_cols _)). }
      exact (fmap_eq_project key (fun k => (k.2, k)) _ _ Hk). }
    apply (length_filter_lt _ _ x); [done|congruence].
  - intros Hnd (r & Hk & Hr)%list_elem_of_fmap.
    rewrite preprocess_prices_filled in Hr. fold c f in Hr.
    apply list_elem_of_filter in Hr as [Hcr Hr].
    assert (NoDup (key <$> f)) as Hndf.
    { unfold f. rewrite (fmap_eq_project _ fst _ _ (fill_missing_cols _)).
      change (fst ∘ _) with key. rewrite suppress_outliers_keys.
      unfold c, compute_returns, with_returns.
      rewrite assign_returns_keys
        by (unfold groupby_pct_change;
            by rewrite ?shift_m1_length, pct_change_from_length).
      rewrite sort_index_Permutation.
      eapply sublist_NoDup; [exact Hnd|apply fmap_sublist, sublist_filter]. }
    apply list_elem_of_filter in Hxin as [_ Hxin].
    assert (r = x) by (eapply NoDup_fmap_elem_inj; eauto; congruence).
    congruence.
Qed.

Lemma first_record_dropped_witness :
  (length (ticker_series "A" (preprocess_prices scenario_A))
   < length (ticker_series "A" (compute_returns scenario_A)))%nat /\
  (NoDup (pr_key <$> scenario_A) ->
   key (mkRow (days_from_civil 2010 1 31) "A" (Some 10%Q) None (Some (1 # 10)%Q))
     ∉ key <$> preprocess_prices scenario_A).
Proof.
  apply first_record_dropped. vm_compute. reflexivity.
Defined.

(** ** The crisis window on monthly labels *)

(** X6. On the month-end labels of the resampled table the crisis window
    holds exactly the 24 months from January 2008 to December 2009. *)
Theorem crisis_window_months (mi : Z) :
  crisis_mask (month_end mi) = true <-> (2008 * 12 <= mi <= 2009 * 12 + 11)%Z.
Proof.
  unfold crisis_mask. rewrite andb_true_iff, !Z.leb_le.
  assert (month_end (2008 * 12 - 1) < crisis_start)%Z as H1 by done.
  assert (crisis_start <= month_end (2008 * 12))%Z as H2 by done.
  assert (month_end (2009 * 12 + 11) = crisis_end) as H3 by done.
  split.
  - intros [Hlo Hhi]. split.
    + destruct (Z.le_gt_cases (2008 * 12) mi) as [|Hlt]; [done|].
      destruct (decide (mi = 2008 * 12 - 1)%Z) as [->|]; [lia|].
      pose proof (month_end_mono mi (2008 * 12 - 1) ltac:(lia)). lia.
    + destruct (Z.le_gt_cases mi (2009 * 12 + 11)) as [|Hgt]; [done|].
      pose proof (month_end_mono (2009 * 12 + 11) mi ltac:(lia)). lia.
  - intros [Hlo Hhi]. split.
    + destruct (decide (mi = 2008 * 12)%Z) as [->|]; [done|].
      pose proof (month_end_mono (2008 * 12) mi ltac:(lia)). lia.
    + destruct (decide (mi = 2009 * 12 + 11)%Z) as [->|]; [lia|].
      pose proof (month_end_mono mi (2009 * 12 + 11) ltac:(lia)). lia.
Qed.

Lemma crisis_window_months_witness :
  crisis_mask (month_end (2008 * 12 + 8)) = true.
Proof. apply crisis_window_months. lia. Defined.

(** ** [plot_price_analysis], [preprocessing] *)

(** X7. [preprocessing] never saves the average-price chart, whatever
    [plot] is: [preprocess_prices] calls [plot_price_analysis] without
    passing the flag on, and the function returns at once on its default. *)
Theorem preprocessing_saves_no_figure (pad : bool) (prices_df : list Obs)
    (sp500_df : list IndexObs) (plot : bool) :
  figures (preprocessing pad prices_df sp500_df plot) = [] /\
  (preprocess_prices_df prices_df plot).2 = [] /\
  (forall t, plot_price_analysis t true <> []).
Proof.
  unfold preprocessing, preprocess_prices_df. simpl.
  split_and!; [by destruct plot..|done].
Qed.

(** X8. The missing-value report [preprocessing] prints is always zero in
    every column: no row with a missing cell is left in the table. *)
Theorem preprocessing_reports_no_missing (pad : bool) (prices_df : list Obs)
    (sp500_df : list IndexObs) (plot : bool) :
  missing_values (preprocessing pad prices_df sp500_df plot) = (0, 0, 0)%nat.
Proof.
  unfold preprocessing, preprocess_prices_df. simpl.
  unfold isna_sum.
  set (t := preprocess_prices _).
  assert (forall col : Row -> option Q,
            (forall r, r ∈ t -> is_Some (col r)) ->
            length (filter (fun r => col r = None) t) = 0%nat) as H.
  { intros col Hcol. rewrite filter_none; [done|].
    intros r Hr Hn. destruct (Hcol r Hr) as [? ?]. congruence. }
  rewrite !H; [done|..]; intros r Hr;
    by apply preprocess_prices_all_present in Hr as (? & ? & ?).
Qed.

(** ** [preprocess_sp500] *)

Lemma seqZ_sorted m n : StronglySorted Z.lt (seqZ m n).
Proof.
  destruct (Z.le_gt_cases n 0) as [Hn|Hn]; [rewrite seqZ_nil by done; constructor|].
  rewrite <- (Z2Nat.id n) by lia. generalize (Z.to_nat n) as k. clear.
  intros k. revert m. induction k as [|k IH]; intros m; [constructor|].
  rewrite seqZ_cons by lia. constructor.
  - replace (Z.pred (Z.of_nat (S k))) with (Z.of_nat k) by lia. apply IH.
  - apply Forall_forall. intros x Hx%elem_of_seqZ. lia.
Qed.

Lemma resample_index_dates sp500_df :
  StronglySorted Z.lt (resample_index sp500_df).*1.
Proof.
  unfold resample_index.
  set (sorted := stable_sort _ sp500_df).
  destruct (head sorted), (last sorted); try constructor.
  rewrite <- list_fmap_compose.
  apply (StronglySorted_fmap _ Z.lt); [|apply seqZ_sorted].
  intros x y. simpl. apply month_end_mono.
Qed.

Lemma ffill_col_length prev col : length (ffill_col prev col) = length col.
Proof. revert prev. induction col as [|[q|] col IH]; intros; simpl; auto. Qed.

Lemma pct_change_col_length prev col : length (pct_change_col prev col) = length col.
Proof. revert prev. induction col as [|p col IH]; intros; simpl; auto. Qed.

Lemma series_pct_change_length pad col :
  length (series_pct_change pad col) = length col.
Proof.
  unfold series_pct_change. rewrite pct_change_col_length.
  destruct pad; [apply ffill_col_length|done].
Qed.

Lemma ffill_col_lookup_Some prev col i q :
  col !! i = Some (Some q) -> ffill_col prev col !! i = Some (Some q).
Proof.
  revert prev i. induction col as [|[q'|] col IH]; intros prev [|i] Hi;
    simplify_eq/=; auto.
Qed.

Lemma pct_change_col_lookup_0 prev col p :
  col !! 0%nat = Some p ->
  pct_change_col prev col !! 0%nat = Some (pct_float prev p).
Proof. destruct col; intros; simplify_eq/=; done. Qed.

Lemma pct_change_col_lookup_S prev col i p0 p1 :
  col !! i = Some p0 -> col !! S i = Some p1 ->
  pct_change_col prev col !! S i = Some (pct_float (Some p0) p1).
Proof.
  revert prev i. induction col as [|p col IH]; intros prev i H0 H1; [done|].
  destruct i as [|i]; simplify_eq/=.
  - exact (pct_change_col_lookup_0 _ _ _ H1).
  - by eapply IH.
Qed.

Lemma preprocess_sp500_lookup pad sp500_df i r :
  preprocess_sp500 pad sp500_df !! i = Some r <->
  exists ret, (resample_index sp500_df) !! i = Some (ir_date r, ir_adj_close r) /\
    series_pct_change pad (resample_index sp500_df).*2 !! i = Some ret /\
    ir_monthly_return r = ret.
Proof.
  unfold preprocess_sp500. rewrite lookup_zip_with_Some. split.
  - intros ([d a] & ret & -> & ? & ?). simpl. eauto.
  - intros (ret & ? & ? & ?). exists (ir_date r, ir_adj_close r), ret.
    destruct r; simplify_eq/=. done.
Qed.

Lemma preprocess_sp500_dates pad sp500_df :
  ir_date <$> preprocess_sp500 pad sp500_df = (resample_index sp500_df).*1.
Proof.
  unfold preprocess_sp500.
  pose proof (series_pct_change_length pad (resample_index sp500_df).*2) as Hlen.
  rewrite length_fmap in Hlen.
  revert Hlen. generalize (series_pct_change pad (resample_index sp500_df).*2).
  induction (resample_index sp500_df) as [|[d a] l IH]; intros [|ret rets] ?;
    simplify_eq/=; [done|]. f_equal. auto.
Qed.

(** ** More of [backtest] *)

Lemma foldl_Qplus_acc (acc : Q) l : (foldl Qplus acc l == acc + Qsum l)%Q.
Proof.
  unfold Qsum. revert acc. induction l as [|x l IH]; intros acc; simpl.
  - by rewrite Qplus_0_r.
  - rewrite (IH (acc + x)%Q), (IH (0 + x)%Q). ring.
Qed.

Lemma Qsum_cons x l : (Qsum (x :: l) == x + Qsum l)%Q.
Proof.
  unfold Qsum at 1. simpl. rewrite foldl_Qplus_acc. ring.
Qed.

Lemma Qsum_scale (c : Q) l : (Qsum ((fun x => c * x)%Q <$> l) == c * Qsum l)%Q.
Proof.
  induction l as [|x l IH]; csimpl.
  - unfold Qsum. simpl. ring.
  - rewrite !Qsum_cons, IH. ring.
Qed.

(** The PnL of a month adds up the forward returns of the selected rows. *)
Lemma month_pnl_selected (rows : list SignalRow) :
  (Qsum (omap pnl rows)
   == Qsum (omap (fun r => monthly_future_return (row r))
              (filter (fun r => signal r = true) rows)))%Q.
Proof.
  induction rows as [|r rows IH]; [reflexivity|].
  rewrite filter_cons.
  destruct (decide (signal r = true)) as [Hs|Hs]; csimpl; unfold pnl at 1;
    destruct (monthly_future_return (row r)) as [f|] eqn:Hf; simpl; try done.
  - rewrite Hs. simpl. rewrite !Qsum_cons, IH. ring.
  - apply not_true_is_false in Hs. rewrite Hs. simpl.
    rewrite Qsum_cons, IH. ring.
Qed.

Lemma sum_skipna_pnl (rows : list SignalRow) :
  sum_skipna (pnl <$> rows) = Qsum (omap pnl rows).
Proof.
  unfold sum_skipna. f_equal.
  induction rows as [|r l IH]; [done|]. csimpl. rewrite IH. by destruct (pnl r).
Qed.

(** X11. The strategy return of a month is the plain average of the
    forward returns of the rows selected in that month. It is NaN exactly
    when no row of the month is selected; the PnL of the month is then 0. *)
Theorem strategy_return_is_mean (prices_df : list SignalRow) (d : Timestamp)
    (x : option Q) :
  (d, x) ∈ strategy_returns prices_df ->
  let selected := filter (fun r => signal r = true) (month d prices_df) in
  match x with
  | Some q =>
      selected <> [] /\
      (q == Qsum (omap (fun r => monthly_future_return (row r)) selected)
            / inject_Z (Z.of_nat (length selected)))%Q
  | None =>
      selected = [] /\ (sum_skipna (pnl <$> month d prices_df) == 0)%Q
  end.
Proof.
  intros [Hd ->]%elem_of_strategy_returns. simpl.
  unfold selected_count_of.
  set (selected := filter _ (month d prices_df)).
  destruct (length selected) as [|n] eqn:Hn; simpl.
  - split; [by apply length_zero_iff_nil|].
    by apply pnl_zero_without_selection.
  - split; [by intros Hnil; rewrite Hnil in Hn|].
    by rewrite sum_skipna_pnl, month_pnl_selected.
Qed.

Lemma strategy_return_is_mean_witness :
  let selected :=
    filter (fun r => signal r = true)
      (month (days_from_civil 2010 1 31)
         (create_signal (preprocess_prices scenario_crisis_exit))) in
  selected <> [] /\
  (9 # 90 == Qsum (omap (fun r => monthly_future_return (row r)) selected)
             / inject_Z (Z.of_nat (length selected)))%Q.
Proof.
  apply (strategy_return_is_mean
           (create_signal (preprocess_prices scenario_crisis_exit))
           (days_from_civil 2010 1 31) (Some (9 # 90)%Q)).
  vm_compute. do 2 constructor.
Defined.

Lemma preprocess_prices_future_bounds prices_monthly r :
  r ∈ preprocess_prices prices_monthly -> crisis_mask (date r) = false ->
  within_bounds (monthly_future_return r).
Proof.
  intros Hr' Hc.
  unfold preprocess_prices in Hr'. rewrite dropna_dropna_future in Hr'.
  apply list_elem_of_filter in Hr' as [_ Hr'].
  apply list_elem_of_lookup in Hr' as [i Hi].
  apply fill_missing_lookup in Hi as (r0 & Hr & Hk & Hf & _).
  assert (date r = date r0) as Hd by exact (f_equal fst Hk).
  assert (suppressed r0) as Hs
    by (eapply suppress_outliers_suppressed, list_elem_of_lookup_2, Hr).
  destruct Hs as [_ Hbf]; [congruence|]. by rewrite Hf.
Qed.

Lemma create_signal_rows prices_df r :
  r ∈ create_signal prices_df -> row r ∈ prices_df.
Proof.
  unfold create_signal, groupby_date_apply.
  intros (d & Hr & _)%list_elem_of_bind.
  apply (list_elem_of_fmap_2 (fun r => (row r, average_return_1y r))) in Hr.
  rewrite get_top_20_signal_rows in Hr.
  apply list_elem_of_filter in Hr as [_ Hr].
  apply (list_elem_of_fmap_2 fst) in Hr. by rewrite with_average_rows in Hr.
Qed.

Lemma length_omap_total {A B} (f : A -> option B) l :
  Forall (fun x => is_Some (f x)) l -> length (omap f l) = length l.
Proof.
  induction 1 as [|x l [y Hy] _ IH]; [done|]. csimpl. rewrite Hy. simpl.
  by rewrite IH.
Qed.

Lemma Qsum_bounds (a b : Q) l :
  Forall (fun x => (a <= x)%Q /\ (x <= b)%Q) l ->
  (a * inject_Z (Z.of_nat (length l)) <= Qsum l)%Q /\
  (Qsum l <= b * inject_Z (Z.of_nat (length l)))%Q.
Proof.
  induction 1 as [|x l [Ha Hb] _ [IHa IHb]].
  - unfold Qsum. simpl. rewrite !Qmult_0_r. split; apply Qle_refl.
  - rewrite Qsum_cons. cbn [length].
    rewrite Nat2Z.inj_succ. unfold Z.succ. rewrite inject_Z_plus.
    split.
    + assert (a * (inject_Z (Z.of_nat (length l)) + inject_Z 1)
              == a + a * inject_Z (Z.of_nat (length l)))%Q as -> by ring.
      by apply Qplus_le_compat.
    + assert (b * (inject_Z (Z.of_nat (length l)) + inject_Z 1)
              == b + b * inject_Z (Z.of_nat (length l)))%Q as -> by ring.
      by apply Qplus_le_compat.
Qed.

(** X12. On the preprocessed table, the strategy return of a month outside
    the crisis window lies in [-0.5, 1]: every forward return it averages
    passed the outlier rule. *)
Theorem strategy_return_within_bounds (prices_monthly : list PriceRow)
    (d : Timestamp) (q : Q) :
  crisis_mask d = false ->
  (d, Some q)
    ∈ strategy_returns (create_signal (preprocess_prices prices_monthly)) ->
  (- (1 # 2) <= q)%Q /\ (q <= 1)%Q.
Proof.
  intros Hc [_ Hq]%elem_of_strategy_returns.
  set (t := create_signal (preprocess_prices prices_monthly)) in *.
  unfold selected_count_of in Hq.
  set (selected := filter (fun r => signal r = true) (month d t)) in *.
  set (vals := omap (fun r => monthly_future_return (row r)) selected).
  assert (forall r, r ∈ selected ->
            row r ∈ preprocess_prices prices_monthly /\ date (row r) = d)
    as Hsel.
  { intros r [_ [Hd Hr]%list_elem_of_filter]%list_elem_of_filter.
    split; [by apply create_signal_rows|done]. }
  assert (length vals = length selected) as Hlen.
  { apply length_omap_total, Forall_forall. intros r [Hr _]%Hsel.
    by apply preprocess_prices_all_present in Hr as (_ & _ & ?). }
  assert (Forall (fun x => (- (1 # 2) <= x)%Q /\ (x <= 1)%Q) vals) as Hb.
  { apply Forall_forall. intros v (r & Hr & Hv)%list_elem_of_omap.
    apply Hsel in Hr as [Hr Hd].
    pose proof (preprocess_prices_future_bounds _ _ Hr) as Hw.
    rewrite Hd, Hv in Hw. exact (Hw Hc). }
  apply Qsum_bounds in Hb as [Hlo Hhi]. rewrite Hlen in Hlo, Hhi.
  destruct (length selected) as [|n] eqn:Hn; [done|].
  simpl in Hq. injection Hq as Hq.
  assert (0 < inject_Z (Z.of_nat (S n)))%Q as Hpos.
  { change 0%Q with (inject_Z 0). rewrite <- Zlt_Qlt. lia. }
  assert (q == Qsum vals / inject_Z (Z.of_nat (S n)))%Q as ->.
  { rewrite Hq, sum_skipna_pnl, month_pnl_selected. reflexivity. }
  split.
  - by apply Qle_shift_div_l.
  - by apply Qle_shift_div_r.
Qed.

Lemma strategy_return_within_bounds_witness :
  (- (1 # 2) <= 9 # 90)%Q /\ (9 # 90 <= 1)%Q.
Proof.
  apply (strategy_return_within_bounds scenario_crisis_exit
           (days_from_civil 2010 1 31) (9 # 90)%Q).
  - reflexivity.
  - vm_compute. do 2 constructor.
Defined.

Lemma unique_NoDup {A} `{EqDecision A} (l : list A) : NoDup l -> unique l = l.
Proof.
  induction 1 as [|x l Hx _ IH]; simpl; [done|].
  rewrite IH. f_equal. apply filter_all. intros y Hy ->. done.
Qed.

Lemma group_keys_strict dates : StronglySorted Z.lt (group_keys dates).
Proof.
  pose proof (NoDup_group_keys dates) as Hnd.
  pose proof (group_keys_sorted dates) as Hs.
  induction Hs as [|x l _ IH Hx]; [constructor|].
  apply NoDup_cons in Hnd as [Hx' Hnd].
  constructor; [by apply IH|].
  apply Forall_forall. intros y Hy.
  rewrite Forall_forall in Hx. specialize (Hx y Hy).
  assert (x <> y) by (by intros ->). lia.
Qed.

Lemma common_dates_eq prices_df sp500_df :
  common_dates (align prices_df sp500_df)
  = filter (fun d => d ∈ (benchmark_returns sp500_df).*1)
      (group_keys (months prices_df)).
Proof.
  unfold align, intersection. simpl. rewrite strategy_returns_index.
  by rewrite (unique_NoDup _ (NoDup_group_keys _)).
Qed.

Lemma filter_fmap_key {V} (g : Timestamp -> V) ks d :
  NoDup ks -> d ∈ ks ->
  filter (fun e => e.1 = d) ((fun d => (d, g d)) <$> ks) = [(d, g d)].
Proof.
  induction 1 as [|k ks Hk Hnd IH]; intros Hd; [by apply elem_of_nil in Hd|].
  csimpl. rewrite filter_cons. simpl.
  destruct (decide (k = d)) as [->|Hne].
  - f_equal. apply filter_none. intros e (k' & -> & Hk')%list_elem_of_fmap.
    simpl. by intros ->.
  - apply IH. apply elem_of_cons in Hd as [->|]; done.
Qed.

Lemma loc_index {V} (g : Timestamp -> V) ks labels :
  NoDup ks -> labels ⊆ ks ->
  loc ((fun d => (d, g d)) <$> ks) labels = (fun d => (d, g d)) <$> labels.
Proof.
  intros Hnd. unfold loc.
  induction labels as [|d labels IH]; intros Hsub; [done|].
  csimpl. rewrite filter_fmap_key; [|done|apply Hsub; left]. simpl.
  f_equal. apply IH. intros x Hx. apply Hsub. by right.
Qed.

Lemma filter_key_fmap {V W} (f : V -> W) (s : list (Timestamp * V)) d :
  filter (fun e => e.1 = d) ((fun e => (e.1, f e.2)) <$> s)
  = (fun e => (e.1, f e.2)) <$> filter (fun e => e.1 = d) s.
Proof.
  induction s as [|e s IHs]; [done|].
  rewrite fmap_cons, !filter_cons. simpl.
  destruct (decide (e.1 = d)); [rewrite fmap_cons; f_equal|]; exact IHs.
Qed.

Lemma loc_fmap {V W} (f : V -> W) (s : list (Timestamp * V)) labels :
  loc ((fun e => (e.1, f e.2)) <$> s) labels
  = (fun e => (e.1, f e.2)) <$> loc s labels.
Proof.
  unfold loc. induction labels as [|d labels IH]; [done|].
  csimpl. by rewrite fmap_app, <- IH, filter_key_fmap.
Qed.

Lemma common_dates_months prices_df sp500_df :
  common_dates (align prices_df sp500_df) ⊆ group_keys (months prices_df).
Proof.
  rewrite common_dates_eq. by intros d [_ Hd]%list_elem_of_filter.
Qed.

(** The aligned strategy PnL holds one entry per common month, in the order
    of the common months. *)
Lemma aligned_strategy_pnl prices_df sp500_df :
  a_strategy_pnl (align prices_df sp500_df)
  = (fun d => (d, sum_skipna (pnl <$> month d prices_df)))
      <$> common_dates (align prices_df sp500_df).
Proof.
  pose proof (common_dates_months prices_df sp500_df) as Hsub.
  unfold align in *. simpl in *. unfold strategy_pnl_series.
  fold (months prices_df).
  by apply loc_index; [apply NoDup_group_keys|].
Qed.

Lemma cumsum_from_lookup acc l i x :
  cumsum_from acc l !! i = Some x -> (x == acc + Qsum (take (S i) l))%Q.
Proof.
  revert acc i. induction l as [|y l IH]; intros acc i Hi; [done|].
  destruct i as [|i]; simpl in Hi.
  - injection Hi as <-. cbn [take]. rewrite Qsum_cons. unfold Qsum. simpl. ring.
  - apply IH in Hi. rewrite Hi. cbn [take]. rewrite (Qsum_cons y). ring.
Qed.

Lemma cumsum_lookup l i x :
  cumsum l !! i = Some x -> (x == Qsum (take (S i) l))%Q.
Proof.
  destruct l as [|y l]; [done|]. destruct i as [|i]; simpl.
  - intros [= <-]. cbn [take]. rewrite Qsum_cons. unfold Qsum. simpl. ring.
  - intros Hi%cumsum_from_lookup. rewrite Hi. cbn [take].
    by rewrite (Qsum_cons y).
Qed.

Lemma cumsum_from_length acc l : length (cumsum_from acc l) = length l.
Proof. revert acc. induction l; intros acc; simpl; by f_equal. Qed.

Lemma cumsum_length l : length (cumsum l) = length l.
Proof. destruct l; simpl; [done|]. by rewrite cumsum_from_length. Qed.

Lemma backtest_Some prices_df sp500_df res :
  backtest prices_df sp500_df = Some res ->
  let a := align prices_df sp500_df in
  strategy_cumulative_pnl res = cumsum (a_strategy_pnl a).*2 /\
  benchmark_cumulative_pnl res = cumsum (a_benchmark_pnl a).*2 /\
  strategy_total_return res = sum_skipna (a_strategy_returns a).*2 /\
  benchmark_total_return res = Qsum (a_benchmark_returns a).*2 /\
  last (cumsum (a_strategy_pnl a).*2) = Some (strategy_total_pnl res) /\
  last (cumsum (a_benchmark_pnl a).*2) = Some (benchmark_total_pnl res).
Proof.
  intros H. cbv zeta. unfold backtest in H.
  set (a := align prices_df sp500_df) in *.
  destruct (last (cumsum (a_strategy_pnl a).*2)) as [x|]; [|done].
  destruct (last (cumsum (a_benchmark_pnl a).*2)) as [y|]; [|done].
  simpl in H. by injection H as <-.
Qed.

Lemma aligned_strategy_returns prices_df sp500_df :
  a_strategy_returns (align prices_df sp500_df)
  = (fun d => (d, div_count (sum_skipna (pnl <$> month d prices_df))
                    (selected_count_of d prices_df)))
      <$> common_dates (align prices_df sp500_df).
Proof.
  pose proof (common_dates_months prices_df sp500_df) as Hsub.
  unfold align in *. simpl in *.
  set (common := intersection _ _) in *. rewrite strategy_returns_eq.
  by apply loc_index; [apply NoDup_group_keys|].
Qed.

Lemma aligned_benchmark_pnl prices_df sp500_df :
  (a_benchmark_pnl (align prices_df sp500_df)).*2
  = (fun x => (20 * x)%Q) <$> (a_benchmark_returns (align prices_df sp500_df)).*2.
Proof.
  unfold align. simpl. rewrite benchmark_pnl_series_eq, loc_fmap.
  rewrite <- !list_fmap_compose. by apply list_fmap_ext.
Qed.

Lemma last_cumsum_Qsum l x : last (cumsum l) = Some x -> (x == Qsum l)%Q.
Proof.
  intros Hl. destruct (decide (l = [])) as [->|Hne]; [done|].
  destruct (last_cumsum l Hne) as (y & Hy & Hsum). congruence.
Qed.

(** X13. Whenever [backtest] produces results, the total benchmark PnL is
    20 times the total benchmark return: the benchmark holds 20 units in
    every compared month. *)
Theorem benchmark_total_pnl_is_20_returns (prices_df : list SignalRow)
    (sp500_df : list BenchRow) (res : Results) :
  backtest prices_df sp500_df = Some res ->
  (benchmark_total_pnl res == 20 * benchmark_total_return res)%Q.
Proof.
  intros (_ & _ & _ & -> & _ & Hb)%backtest_Some.
  apply last_cumsum_Qsum in Hb. rewrite Hb, aligned_benchmark_pnl.
  apply Qsum_scale.
Qed.

Lemma benchmark_total_pnl_is_20_returns_witness :
  exists res,
    backtest (create_signal (preprocess_prices scenario_crisis_exit))
      scenario_benchmark = Some res /\
    (benchmark_total_pnl res == 20 * benchmark_total_return res)%Q.
Proof.
  destruct (backtest (create_signal (preprocess_prices scenario_crisis_exit))
              scenario_benchmark) as [res|] eqn:Hres;
    [|by vm_compute in Hres].
  exists res. split; [done|].
  exact (benchmark_total_pnl_is_20_returns _ _ _ Hres).
Defined.

(** X14. The curves [backtest] draws are running totals over the compared
    months: the strategy curve has one point per common month, and its
    point number [i] adds up the PnL of the first [i + 1] common months;
    point number [i] of the benchmark curve is 20 times the sum of the
    first [i + 1] aligned benchmark returns. *)
Theorem cumulative_pnl_is_running_total (prices_df : list SignalRow)
    (sp500_df : list BenchRow) (res : Results) :
  backtest prices_df sp500_df = Some res ->
  let a := align prices_df sp500_df in
  length (strategy_cumulative_pnl res) = length (common_dates a) /\
  (forall i x, strategy_cumulative_pnl res !! i = Some x ->
     (x == Qsum ((fun d => sum_skipna (pnl <$> month d prices_df))
                   <$> take (S i) (common_dates a)))%Q) /\
  (forall i x, benchmark_cumulative_pnl res !! i = Some x ->
     (x == 20 * Qsum (take (S i) (a_benchmark_returns a).*2))%Q).
Proof.
  intros (-> & -> & _)%backtest_Some a. unfold a.
  rewrite aligned_strategy_pnl, aligned_benchmark_pnl.
  rewrite <- list_fmap_compose. split_and!.
  - by rewrite cumsum_length, length_fmap.
  - intros i x Hx%cumsum_lookup. by rewrite Hx, fmap_take.
  - intros i x Hx%cumsum_lookup. rewrite Hx, <- fmap_take. apply Qsum_scale.
Qed.

Lemma cumulative_pnl_is_running_total_witness :
  exists res,
    backtest (create_signal (preprocess_prices scenario_crisis_exit))
      scenario_benchmark = Some res /\
    length (strategy_cumulative_pnl res) = 2%nat.
Proof.
  destruct (backtest (create_signal (preprocess_prices scenario_crisis_exit))
              scenario_benchmark) as [res|] eqn:Hres;
    [|by vm_compute in Hres].
  exists res. split; [done|].
  by rewrite (proj1 (cumulative_pnl_is_running_total _ _ _ Hres)).
Defined.

(** X15. The months compared run in strictly ascending order, whatever the
    order of the rows of the two inputs, and the aligned strategy series
    hold exactly one entry for each of them, in that order. *)
Theorem common_dates_ascending (prices_df : list SignalRow)
    (sp500_df : list BenchRow) :
  let a := align prices_df sp500_df in
  StronglySorted Z.lt (common_dates a) /\
  (a_strategy_returns a).*1 = common_dates a /\
  (a_strategy_pnl a).*1 = common_dates a.
Proof.
  intros a. unfold a. split_and!.
  - rewrite common_dates_eq. apply StronglySorted_filter, group_keys_strict.
  - rewrite aligned_strategy_returns, <- list_fmap_compose. apply list_fmap_id.
  - rewrite aligned_strategy_pnl, <- list_fmap_compose. apply list_fmap_id.
Qed.

Lemma sum_skipna_scaled (f : Timestamp -> Q) (n : Timestamp -> nat) (k : nat)
    (dates : list Timestamp) :
  (0 < k)%nat -> Forall (fun d => n d = k) dates ->
  (Qsum (f <$> dates)
   == inject_Z (Z.of_nat k)
      * sum_skipna ((fun d => div_count (f d) (n d)) <$> dates))%Q.
Proof.
  intros Hk. unfold sum_skipna.
  induction 1 as [|d dates Hd _ IH].
  - unfold Qsum. simpl. ring.
  - csimpl. rewrite Hd. destruct k as [|k]; [lia|]. simpl.
    rewrite !Qsum_cons, IH. field.
    change 0%Q with (inject_Z 0). rewrite inject_Z_injective. lia.
Qed.

(** X16. When every compared month has the same number [k > 0] of selected
    tickers, the total strategy PnL is [k] times the total strategy return.
    With 20 selections a month both totals are on the scale of the
    benchmark, which holds 20 units. *)
Theorem strategy_total_pnl_scale (prices_df : list SignalRow)
    (sp500_df : list BenchRow) (res : Results) (k : nat) :
  backtest prices_df sp500_df = Some res ->
  (0 < k)%nat ->
  Forall (fun d => selected_count_of d prices_df = k)
    (common_dates (align prices_df sp500_df)) ->
  (strategy_total_pnl res
   == inject_Z (Z.of_nat k) * strategy_total_return res)%Q.
Proof.
  intros (_ & _ & -> & _ & Hs & _)%backtest_Some Hk Hall.
  apply last_cumsum_Qsum in Hs.
  rewrite Hs, aligned_strategy_pnl, aligned_strategy_returns.
  rewrite <- !list_fmap_compose.
  exact (sum_skipna_scaled _ _ k _ Hk Hall).
Qed.

Lemma strategy_total_pnl_scale_witness :
  exists res,
    backtest (create_signal (preprocess_prices scenario_21))
      scenario_benchmark_2010 = Some res /\
    (strategy_total_pnl res == 20 * strategy_total_return res)%Q.
Proof.
  destruct (backtest (create_signal (preprocess_prices scenario_21))
              scenario_benchmark_2010) as [res|] eqn:Hres;
    [|by vm_compute in Hres].
  exists res. split; [done|].
  apply (strategy_total_pnl_scale _ _ _ 20 Hres); [lia|].
  by apply (bool_decide_unpack _); vm_compute.
Defined.

(** ** More of [create_signal] *)

(** Grouping by key and concatenating the groups rearranges the rows. *)
Lemma bind_groups_Permutation {A} (f : A -> Timestamp) (ks : list Timestamp)
    (l : list A) :
  NoDup ks -> (forall x, x ∈ l -> f x ∈ ks) ->
  (d ← ks; filter (fun x => f x = d) l) ≡ₚ l.
Proof.
  intros Hnd. revert l.
  induction Hnd as [|k ks Hk Hnd IH]; intros l Hl.
  - destruct l as [|x l]; [done|].
    exfalso. apply (elem_of_nil (f x)), Hl. left.
  - rewrite bind_cons.
    etrans; [|apply (filter_app_complement (fun x => f x = k) l)].
    apply Permutation_app; [done|].
    rewrite <- (IH (filter (fun x => f x <> k) l)).
    + apply reflexive_eq. apply Forall_bind_ext, Forall_forall.
      intros d Hd. rewrite list_filter_filter. apply list_filter_iff.
      intros x. split; [|tauto]. intros ->. split; [done|]. by intros ->.
    + intros x [Hx Hxl]%list_elem_of_filter.
      specialize (Hl x Hxl). apply elem_of_cons in Hl as [?|?]; done.
Qed.

Lemma bind_groups_sorted {A} (f : A -> Timestamp) (ks : list Timestamp)
    (l : list A) :
  StronglySorted Z.lt ks ->
  StronglySorted Z.le (f <$> (d ← ks; filter (fun x => f x = d) l)).
Proof.
  induction 1 as [|k ks Hks IH Hk]; [constructor|].
  rewrite bind_cons, fmap_app. apply StronglySorted_app_2; [| |exact IH].
  - intros d1 d2 (x1 & -> & [-> _]%list_elem_of_filter)%list_elem_of_fmap
      (x2 & -> & (d & [Hd _]%list_elem_of_filter & Hdks)%list_elem_of_bind)
        %list_elem_of_fmap.
    rewrite Forall_forall in Hk. specialize (Hk d Hdks). lia.
  - clear IH. induction l as [|x l IHl]; [constructor|].
    rewrite filter_cons. case_decide as Hx; [|done].
    csimpl. constructor; [done|]. apply Forall_forall.
    intros d (x' & -> & [-> _]%list_elem_of_filter)%list_elem_of_fmap. lia.
Qed.

Lemma create_signal_row prices_df :
  row <$> create_signal prices_df
  = d ← group_keys (date <$> prices_df); filter (fun r => date r = d) prices_df.
Proof.
  unfold create_signal, groupby_date_apply. rewrite fmap_bind_comm.
  apply list_bind_ext.
  - intros d. rewrite <- cross_section_rows.
    rewrite <- (get_top_20_signal_rows (filter _ (with_average prices_df))) at 2.
    by rewrite <- list_fmap_compose.
  - f_equal. rewrite <- (with_average_rows prices_df) at 2.
    by rewrite <- list_fmap_compose.
Qed.

(** X17. [create_signal] adds its two columns to the table and drops or
    repeats no row: the rows of its result are those of its input,
    regrouped month by month in ascending order of the date, each month in
    the order of the input. *)
Theorem create_signal_keeps_rows (prices_df : list Row) :
  row <$> create_signal prices_df ≡ₚ prices_df /\
  StronglySorted Z.le (months (create_signal prices_df)) /\
  (forall d, row <$> month d (create_signal prices_df)
             = filter (fun r => date r = d) prices_df).
Proof.
  split_and!.
  - rewrite create_signal_row. apply bind_groups_Permutation.
    + apply NoDup_group_keys.
    + intros r Hr. apply elem_of_group_keys. by apply list_elem_of_fmap_2.
  - unfold months. rewrite (list_fmap_compose row date), create_signal_row.
    apply bind_groups_sorted, group_keys_strict.
  - intros d. rewrite month_create_signal, <- cross_section_rows.
    rewrite <- (get_top_20_signal_rows (filter _ (with_average prices_df))) at 2.
    by rewrite <- list_fmap_compose.
Qed.

Lemma Qltb_lt (x y : Q) : Qltb x y = true <-> (x < y)%Q.
Proof.
  unfold Qltb. rewrite negb_true_iff, <- not_true_iff_false, Qle_bool_iff.
  split; [apply Qnot_le_lt|apply Qlt_not_le].
Qed.

Lemma price_outlier_true bounds o :
  price_outlier bounds o = true ->
  exists p lo hi, o_price o = Some p /\ bounds = Some (lo, hi) /\
    ((p < lo)%Q \/ (hi < p)%Q).
Proof.
  unfold price_outlier. destruct bounds as [[lo hi]|]; [|done].
  unfold cell_lt, cell_gt. destruct (o_price o) as [p|]; [|done].
  intros [H|H]%orb_true_iff; apply Qltb_lt in H; exists p, lo, hi; auto.
Qed.

(** ** [identify_outliers] (preprocessing.py, lines 126-157) *)

(** X18. [outliers.txt] lists at most five rows, whatever the number of
    tickers. Every row listed is a row of the input with a price, and that
    price lies outside the IQR fence of the prices of its own ticker; a row
    without price is never listed. *)
Theorem identify_outliers_reports (prices_df : list Obs) :
  (length (identify_outliers prices_df) <= 5)%nat /\
  (forall o, o ∈ identify_outliers prices_df ->
     o ∈ prices_df /\
     exists p lower_bound upper_bound,
       o_price o = Some p /\
       iqr_bounds
         (o_price <$> filter (fun x => o_ticker x = o_ticker o) prices_df)
       = Some (lower_bound, upper_bound) /\
       ((p < lower_bound)%Q \/ (upper_bound < p)%Q)).
Proof.
  split.
  - unfold identify_outliers. rewrite length_take. lia.
  - intros o Ho. unfold identify_outliers in Ho.
    apply subseteq_take in Ho.
    apply list_elem_of_bind in Ho as (tk & Ho & _).
    unfold ticker_outliers in Ho. apply subseteq_take in Ho.
    apply list_elem_of_filter in Ho as [Hout [Htk Ho]%list_elem_of_filter].
    split; [done|]. subst tk.
    apply price_outlier_true in Hout as (p & lo & hi & ? & ? & ?).
    by exists p, lo, hi.
Qed.

(** ** The pipeline of [main] (main.py, lines 43-50) *)

Lemma resample_monthly_NoDup prices_df :
  NoDup (pr_key <$> resample_monthly prices_df).
Proof.
  unfold resample_monthly. rewrite fmap_bind_comm.
  apply NoDup_bind.
  - intros tk1 tk2 k _ _ (r1 & -> & Hr1)%list_elem_of_fmap
      (r2 & Hk & Hr2)%list_elem_of_fmap.
    apply resample_ticker_ticker in Hr1, Hr2. subst.
    exact (f_equal snd Hk).
  - intros tk _. apply resample_ticker_NoDup.
  - rewrite stable_sort_Permutation. apply NoDup_unique.
Qed.

Lemma run_pipeline_prices pad prices sp500 :
  prices_processed (run_pipeline pad prices sp500).1
  = preprocess_prices (resample_monthly prices).
Proof. reflexivity. Qed.

(** X19. Whatever the two raw frames hold, the table [main] hands to
    [backtest] has at least one and at most 20 selected tickers in every
    month it contains, namely [min N 20] of the [N] rows of the month, and
    every monthly strategy return is a number: resampling leaves one row
    per ticker and month, so that no label is counted twice. *)
Theorem pipeline_selects_every_month (pad : bool) (prices : list Obs)
    (sp500 : list IndexObs) :
  let p := (run_pipeline pad prices sp500).1 in
  let prices_df := create_signal (prices_processed p) in
  forall d x, (d, x) ∈ strategy_returns prices_df ->
    selected_count_of d prices_df = Nat.min (length (month d prices_df)) 20 /\
    (1 <= selected_count_of d prices_df <= 20)%nat /\
    is_Some x.
Proof.
  intros p prices_df d x [Hd ->]%elem_of_strategy_returns.
  unfold prices_df, p in *. rewrite run_pipeline_prices in *.
  set (t := preprocess_prices (resample_monthly prices)) in *.
  assert (selected_count_of d (create_signal t)
          = Nat.min (length (month d (create_signal t))) 20) as Hmin.
  { apply selected_count_min.
    - apply preprocess_prices_NoDup, resample_monthly_NoDup.
    - apply Forall_forall. intros r'. apply preprocess_prices_complete. }
  apply list_elem_of_fmap in Hd as (r & Hd & Hr).
  assert (r ∈ month d (create_signal t)) as Hin
    by (by apply list_elem_of_filter).
  assert (0 < length (month d (create_signal t)))%nat as Hpos.
  { destruct (month d (create_signal t)); [by apply elem_of_nil in Hin|].
    simpl. lia. }
  split; [done|]. split; [lia|].
  destruct (selected_count_of d (create_signal t)) eqn:Hn; [lia|].
  simpl. eauto.
Qed.

Lemma resample_monthly_labels_witness :
  pr_date (mkPriceRow (days_from_civil 2010 1 31) "A" (Some 10%Q))
  = month_end
      (month_of (pr_date (mkPriceRow (days_from_civil 2010 1 31) "A" (Some 10%Q)))).
Proof.
  apply (proj2 (resample_monthly_labels scenario_daily)).
  vm_compute. constructor.
Defined.

Lemma resample_monthly_last_price_witness :
  exists o, o ∈ scenario_daily /\ o_ticker o = "A" /\
    month_of (o_date o) = month_of (days_from_civil 2010 1 31) /\
    o_price o = Some 10%Q /\
    forall o', o' ∈ scenario_daily -> o_ticker o' = "A" ->
      month_of (o_date o') = month_of (days_from_civil 2010 1 31) ->
      is_Some (o_price o') -> (o_date o' <= o_date o)%Z.
Proof.
  apply (proj1 (proj2 (resample_monthly_last_price scenario_daily))
           (mkPriceRow (days_from_civil 2010 1 31) "A" (Some 10%Q)) 10%Q).
  - vm_compute. constructor.
  - reflexivity.
Defined.

Lemma preprocess_prices_keeps_prices_witness :
  exists r0 p, r0 ∈ scenario_A /\
    pr_key r0 = (days_from_civil 2010 2 28, "A") /\
    pr_price r0 = Some p /\ Some 11%Q = Some p /\
    (1 # 10 <= p)%Q /\ (p <= 10000)%Q.
Proof.
  apply (preprocess_prices_keeps_prices scenario_A
           (mkRow (days_from_civil 2010 2 28) "A" (Some 11%Q)
              (Some (1 # 10)%Q) (Some (-2 # 11)%Q))).
  vm_compute. constructor.
Defined.

Lemma preprocess_prices_sorted_witness :
  NoDup (key <$> preprocess_prices scenario_two_tickers).
Proof.
  apply (proj2 (preprocess_prices_sorted scenario_two_tickers)).
  by apply (bool_decide_unpack _); vm_compute.
Defined.

Lemma identify_outliers_reports_witness :
  mkObs (days_from_civil 2010 4 30) "A" (Some 1000%Q) ∈ scenario_daily /\
  exists p lower_bound upper_bound,
    Some 1000%Q = Some p /\
    iqr_bounds (o_price <$> filter (fun x => o_ticker x = "A") scenario_daily)
    = Some (lower_bound, upper_bound) /\
    ((p < lower_bound)%Q \/ (upper_bound < p)%Q).
Proof.
  apply (proj2 (identify_outliers_reports scenario_daily)
           (mkObs (days_from_civil 2010 4 30) "A" (Some 1000%Q))).
  vm_compute. constructor.
Defined.

Lemma pipeline_selects_every_month_witness :
  let prices_df :=
    create_signal
      (prices_processed (run_pipeline true scenario_daily scenario_index).1) in
  selected_count_of (days_from_civil 2010 2 28) prices_df
  = Nat.min (length (month (days_from_civil 2010 2 28) prices_df)) 20 /\
  (1 <= selected_count_of (days_from_civil 2010 2 28) prices_df <= 20)%nat /\
  is_Some (Some (0 # 10)%Q).
Proof.
  apply (pipeline_selects_every_month true scenario_daily scenario_index
           (days_from_civil 2010 2 28) (Some (0 # 10)%Q)).
  vm_compute. constructor.
Defined.

Lemma preprocess_sp500_first pad sp500_df r :
  preprocess_sp500 pad sp500_df !! 0%nat = Some r -> ir_monthly_return r = NaN.
Proof.
  intros (ret & Hrow & Hret & ->)%preprocess_sp500_lookup.
  unfold series_pct_change in Hret.
  destruct (if pad then _ else _) as [|p col] eqn:Hcol; [done|].
  simpl in Hret. by simplify_eq.
Qed.

Lemma pct_float_spec (a b : Q) :
  (~ (a == 0)%Q -> pct_float (Some (Some a)) (Some b) = Num (b / a - 1)%Q) /\
  ((a == 0)%Q -> (0 < b)%Q ->
   pct_float (Some (Some a)) (Some b) = Infinity false) /\
  ((a == 0)%Q -> (b < 0)%Q ->
   pct_float (Some (Some a)) (Some b) = Infinity true) /\
  ((a == 0)%Q -> (b == 0)%Q -> pct_float (Some (Some a)) (Some b) = NaN).
Proof.
  unfold pct_float.
  destruct (Qeq_bool a 0) eqn:Ha.
  - apply Qeq_bool_iff in Ha. split_and!; [done|..].
    + intros _ Hb. destruct (Qeq_bool b 0) eqn:Hb0.
      * apply Qeq_bool_iff in Hb0. rewrite Hb0 in Hb.
        by apply Qlt_irrefl in Hb.
      * destruct (Qltb b 0) eqn:Hlt; [|done].
        apply Qltb_lt in Hlt. destruct (Qlt_irrefl 0).
        exact (Qlt_trans _ _ _ Hb Hlt).
    + intros _ Hb. destruct (Qeq_bool b 0) eqn:Hb0.
      * apply Qeq_bool_iff in Hb0. rewrite Hb0 in Hb.
        by apply Qlt_irrefl in Hb.
      * apply Qltb_lt in Hb. by rewrite Hb.
    + intros _ Hb%Qeq_bool_iff. by rewrite Hb.
  - apply Qeq_bool_neq in Ha. split_and!; done.
Qed.

(** X9. The preprocessed benchmark has one row per month, in ascending
    order of its month-end labels. The first month has no return. A month
    that follows a month with a close, and has a close itself, has the
    return [adj_close[t] / adj_close[t-1] - 1] when the earlier close is
    not 0; after a close of 0 the return is infinite, with the sign of the
    close of the month, or NaN when that close is 0 as well. This holds
    whether or not [pct_change] pads missing values. *)
Theorem preprocess_sp500_returns (pad : bool) (sp500_df : list IndexObs) :
  let out := preprocess_sp500 pad sp500_df in
  StronglySorted Z.lt (ir_date <$> out) /\
  (forall r, out !! 0%nat = Some r -> ir_monthly_return r = NaN) /\
  (forall i r0 r1 a b, out !! i = Some r0 -> out !! S i = Some r1 ->
     ir_adj_close r0 = Some a -> ir_adj_close r1 = Some b ->
     (~ (a == 0)%Q -> ir_monthly_return r1 = Num (b / a - 1)%Q) /\
     ((a == 0)%Q -> (0 < b)%Q -> ir_monthly_return r1 = Infinity false) /\
     ((a == 0)%Q -> (b < 0)%Q -> ir_monthly_return r1 = Infinity true) /\
     ((a == 0)%Q -> (b == 0)%Q -> ir_monthly_return r1 = NaN)).
Proof.
  intros out. split_and!.
  - unfold out. rewrite preprocess_sp500_dates. apply resample_index_dates.
  - intros r. apply preprocess_sp500_first.
  - intros i r0 r1 a b (ret0 & Hrow0 & _ & _)%preprocess_sp500_lookup
      (ret1 & Hrow1 & Hret1 & ->)%preprocess_sp500_lookup Ha Hb.
    assert ((resample_index sp500_df).*2 !! i = Some (Some a)) as Hc0
      by (by rewrite list_lookup_fmap, Hrow0; simpl; rewrite Ha).
    assert ((resample_index sp500_df).*2 !! S i = Some (Some b)) as Hc1
      by (by rewrite list_lookup_fmap, Hrow1; simpl; rewrite Hb).
    unfold series_pct_change in Hret1.
    rewrite (pct_change_col_lookup_S _ _ i (Some a) (Some b)) in Hret1.
    + injection Hret1 as <-. apply pct_float_spec.
    + destruct pad; [by apply ffill_col_lookup_Some|done].
    + destruct pad; [by apply ffill_col_lookup_Some|done].
Qed.

Lemma preprocess_sp500_returns_witness :
  ir_monthly_return
    (mkIndexRow (days_from_civil 2010 2 28) (Some 1100%Q) (Num (100 # 1000)%Q))
  = Num (1100 / 1000 - 1)%Q /\
  ir_monthly_return
    (mkIndexRow (days_from_civil 2010 3 31) (Some 5%Q) (Infinity false))
  = Infinity false.
Proof.
  split.
  - apply (proj2 (proj2 (preprocess_sp500_returns true scenario_index)) 0%nat
             (mkIndexRow (days_from_civil 2010 1 31) (Some 1000%Q) NaN)
             (mkIndexRow (days_from_civil 2010 2 28) (Some 1100%Q)
                (Num (100 # 1000)%Q)) 1000%Q 1100%Q);
      [vm_compute; reflexivity..|by vm_compute].
  - apply (proj2 (proj2 (preprocess_sp500_returns false scenario_zero_close))
             1%nat
             (mkIndexRow (days_from_civil 2010 2 28) (Some 0%Q) NaN)
             (mkIndexRow (days_from_civil 2010 3 31) (Some 5%Q)
                (Infinity false)) 0%Q 5%Q);
      [vm_compute; reflexivity..|by vm_compute|by vm_compute].
Defined.

Lemma preprocess_sp500_first_date pad sp500_df r r' :
  preprocess_sp500 pad sp500_df !! 0%nat = Some r ->
  r' ∈ preprocess_sp500 pad sp500_df ->
  ir_date r' = ir_date r -> r' = r.
Proof.
  intros H0 [i Hi]%list_elem_of_lookup Hd.
  pose proof (resample_index_dates sp500_df) as Hs.
  rewrite <- (preprocess_sp500_dates pad) in Hs.
  destruct i as [|i]; [congruence|].
  assert (ir_date r < ir_date r')%Z; [|lia].
  eapply (StronglySorted_lookup_lt Z.lt _ 0 (S i)); [exact Hs|..|lia].
  - by rewrite list_lookup_fmap, H0.
  - by rewrite list_lookup_fmap, Hi.
Qed.

Lemma bench_row_Some r b :
  bench_row r = Some b ->
  b_date b = ir_date r /\
  forall q, monthly_return b = Some q -> ir_monthly_return r = Num q.
Proof.
  unfold bench_row. destruct (ir_monthly_return r); intros; simplify_eq/=;
    split; congruence.
Qed.

(** X10. The first month of the benchmark never takes part in the
    comparison: it has no return, no later row carries its date, so that
    [dropna] leaves no row of that date, and when the returns are handed to
    [backtest] it is neither in the benchmark series nor in an aligned
    window. *)
Theorem first_benchmark_month_excluded (pad : bool) (sp500_df : list IndexObs)
    (prices_df : list SignalRow) (r : IndexRow) :
  preprocess_sp500 pad sp500_df !! 0%nat = Some r ->
  ir_monthly_return r = NaN /\
  (forall r', r' ∈ preprocess_sp500 pad sp500_df ->
     ir_monthly_return r' <> NaN -> ir_date r' <> ir_date r) /\
  (forall sp500, bench_frame (preprocess_sp500 pad sp500_df) = Some sp500 ->
     (ir_date r ∉ (benchmark_returns sp500).*1) /\
     (ir_date r ∉ common_dates (align prices_df sp500))).
Proof.
  intros H0.
  pose proof (preprocess_sp500_first _ _ _ H0) as Hnan.
  assert (forall r', r' ∈ preprocess_sp500 pad sp500_df ->
            ir_monthly_return r' <> NaN -> ir_date r' <> ir_date r) as Hlater.
  { intros r' Hr' Hret Hd.
    apply Hret. by rewrite (preprocess_sp500_first_date _ _ _ _ H0 Hr' Hd). }
  split_and!; [done..|].
  intros sp500 Hframe%mapM_Some_1.
  assert (ir_date r ∉ (benchmark_returns sp500).*1) as Hnot.
  { intros ([d q] & Hd & Hin)%list_elem_of_fmap. simpl in Hd. subst d.
    unfold benchmark_returns in Hin.
    apply list_elem_of_omap in Hin as (b & Hb & Hq).
    apply list_elem_of_lookup in Hb as [i Hi].
    destruct (Forall2_lookup_r _ _ _ _ _ Hframe Hi) as (r' & Hr' & Hrow).
    apply bench_row_Some in Hrow as [Hdate Hret].
    destruct (monthly_return b) as [q'|] eqn:Hq'; simplify_eq/=.
    apply (Hlater r'); [by eapply list_elem_of_lookup_2| |congruence].
    by rewrite (Hret q eq_refl). }
  split; [done|].
  unfold align; simpl. rewrite elem_of_intersection. tauto.
Qed.

Lemma first_benchmark_month_excluded_witness :
  exists sp500,
    bench_frame (preprocess_sp500 true scenario_index) = Some sp500 /\
    (days_from_civil 2010 1 31 ∉ (benchmark_returns sp500).*1) /\
    (days_from_civil 2010 1 31 ∉ common_dates (align [] sp500)).
Proof.
  destruct (bench_frame (preprocess_sp500 true scenario_index))
    as [sp500|] eqn:Hframe; [|by vm_compute in Hframe].
  exists sp500. split; [done|].
  apply (proj2 (proj2 (first_benchmark_month_excluded true scenario_index []
           (mkIndexRow (days_from_civil 2010 1 31) (Some 1000%Q) NaN)
           ltac:(by vm_compute)))).
  exact Hframe.
Defined.
